(** * trade_chart.py: the trade enrichment pipeline

    A shallow embedding of [calculate_vwap] and of [fetch_and_chart_trades]
    (src/trade_chart.py), and the properties the specification states about
    them.

    Conventions of the embedding.
    - A DataFrame is the list of its rows, in row order; a column assignment
      [df['c'] = e] maps over the rows, [df[mask]] is [filter], and
      [df.loc[mask, 'c'] = v] rewrites column [c] on the rows of the mask.
    - [ts_event] is an instant, in nanoseconds since the epoch (UTC), a [Z].
    - [size] is an unsigned integer column, a [N]; sums of sizes are taken
      without wrap-around.
    - [price] is a float64 column: a binary64 float of the standard library,
      with its rounding, its infinities and NaN (the value of an undefined
      price).  The pandas reductions and [cumsum] skip NaN, and a comparison
      with NaN is false.
    - The vendor client, the date parser, the time zone database, the file
      system and the chart renderer are not part of the source: they are
      parameters.  So is the sorting routine behind [sort_values]; the one
      that pandas calls by default, numpy's quicksort on positions, is
      written out and shown to sort. *)

From Stdlib Require Import ZArith NArith Floats String Ascii List Bool.
From Stdlib Require Import Permutation Sorted Lia.
Import ListNotations.

Set Implicit Arguments.

(* ================================================================== *)
(** * Numbers *)

Module Num.

(** [np.isnan] *)
Definition is_nan (x : float) : bool := PrimFloat.is_nan x.

(** [a == b] on floats: NaN is equal to nothing, itself included. *)
Definition float_eqb (a b : float) : bool := PrimFloat.eqb a b.

(** An unsigned integer as a float64, rounded to the nearest. *)
Definition size_to_float (n : N) : float :=
  SF2Prim (binary_normalize prec emax (Z.of_N n) 0 false).

(** [a / b] for a float column over an unsigned integer column, as numpy
    computes it under pandas: a zero divisor raises nothing, it gives NaN
    for [0 / 0] and a signed infinity otherwise. *)
Definition truediv (a : float) (b : N) : float :=
  PrimFloat.div a (size_to_float b).

(** [price * size]: a float times an unsigned integer. *)
Definition mul_size (p : float) (s : N) : float :=
  PrimFloat.mul p (size_to_float s).

Definition fmax (a b : float) : float := if PrimFloat.ltb a b then b else a.
Definition fmin (a b : float) : float := if PrimFloat.ltb b a then b else a.

(** The entries of a column that are not NaN. *)
Definition dropna (l : list float) : list float :=
  filter (fun x => negb (is_nan x)) l.

(** [Series.max()] and [Series.min()] of a float column, and the two
    aggregates of [groupby]: NaN is skipped, and the result is NaN when no
    entry is left. *)
Definition series_max (l : list float) : float :=
  match dropna l with
  | [] => PrimFloat.nan
  | x :: t => fold_left fmax t x
  end.

Definition series_min (l : list float) : float :=
  match dropna l with
  | [] => PrimFloat.nan
  | x :: t => fold_left fmin t x
  end.

(** [np.cumsum]: the first entry, then each entry added to the running
    total, left to right. *)
Fixpoint cumsum_from (A : Type) (add : A -> A -> A) (acc : A) (l : list A)
  : list A :=
  match l with
  | [] => []
  | x :: t => add acc x :: cumsum_from add (add acc x) t
  end.

Definition cumsum (A : Type) (add : A -> A -> A) (l : list A) : list A :=
  match l with
  | [] => []
  | x :: t => x :: cumsum_from add x t
  end.

Definition nan_to_zero (x : float) : float := if is_nan x then PrimFloat.zero else x.

Fixpoint map2 (A B C : Type) (f : A -> B -> C) (l : list A) (l' : list B)
  : list C :=
  match l, l' with
  | a :: t, b :: t' => f a b :: map2 f t t'
  | _, _ => []
  end.

(** [Series.cumsum()] of a float column (skipna): [np.cumsum] runs on the
    column with 0.0 in the place of NaN, and the rows that held NaN get NaN
    back. *)
Definition cumsum_skipna (l : list float) : list float :=
  map2 (fun x s => if is_nan x then PrimFloat.nan else s)
       l (cumsum PrimFloat.add (map nan_to_zero l)).

(** The sum of a column in the order of its rows, starting from its first
    entry ([zero] when there is none). *)
Definition total (A : Type) (add : A -> A -> A) (zero : A) (l : list A) : A :=
  match l with
  | [] => zero
  | x :: t => fold_left add t x
  end.

(** [Series.sum()] of an unsigned integer column. *)
Definition series_sum (l : list N) : N := fold_left N.add l 0%N.

End Num.

Import Num.

(* ================================================================== *)
(** * Timestamps and [strftime] *)

Module Time.

Local Open Scope Z_scope.

Definition NS_PER_MINUTE : Z := 60000000000.
Definition NS_PER_HOUR : Z := 3600000000000.
Definition NS_PER_DAY : Z := 86400000000000.

(** A time zone aware timestamp: the instant and the UTC offset of its
    zone at that instant, both in nanoseconds. *)
Record Timestamp : Type := {
  value : Z;
  utcoffset : Z
}.

(** [Series.dt.tz_convert(zone)]: the instant is kept, the zone changes.
    [zone] is the offset table of the target zone. *)
Definition tz_convert (zone : Z -> Z) (t : Z) : Timestamp :=
  {| value := t; utcoffset := zone t |}.

Definition wall_clock (t : Timestamp) : Z := value t + utcoffset t.

(** Year, month and day of a day number counted from 1970-01-01
    (proleptic Gregorian calendar). *)
Definition civil_from_days (days : Z) : Z * Z * Z :=
  let z := days + 719468 in
  let era := z / 146097 in
  let doe := z - era * 146097 in
  let yoe := (doe - doe / 1460 + doe / 36524 - doe / 146096) / 365 in
  let doy := doe - (365 * yoe + yoe / 4 - yoe / 100) in
  let mp := (5 * doy + 2) / 153 in
  let d := doy - (153 * mp + 2) / 5 + 1 in
  let m := if mp <? 10 then mp + 3 else mp - 9 in
  let y := yoe + era * 400 + (if m <=? 2 then 1 else 0) in
  (y, m, d).

Definition digit (n : Z) : ascii := ascii_of_nat (48 + Z.to_nat (n mod 10)).

Definition pad2 (n : Z) : string :=
  String (digit (n / 10)) (String (digit n) EmptyString).

Definition pad4 (n : Z) : string :=
  String (digit (n / 1000)) (String (digit (n / 100)) (pad2 n)).

(** ["%Y-%m-%d"] of the wall clock. *)
Definition format_date (t : Timestamp) : string :=
  let '(y, m, d) := civil_from_days (wall_clock t / NS_PER_DAY) in
  (pad4 y ++ "-" ++ pad2 m ++ "-" ++ pad2 d)%string.

Definition hour_of_day (t : Timestamp) : Z :=
  (wall_clock t mod NS_PER_DAY) / NS_PER_HOUR.

Definition minute_of_hour (t : Timestamp) : Z :=
  (wall_clock t mod NS_PER_HOUR) / NS_PER_MINUTE.

(** [strftime('%Y-%m-%d %H:00')] *)
Definition strftime_hour (t : Timestamp) : string :=
  (format_date t ++ " " ++ pad2 (hour_of_day t) ++ ":00")%string.

(** [strftime('%Y-%m-%d %H:%M')] *)
Definition strftime_minute (t : Timestamp) : string :=
  (format_date t ++ " " ++ pad2 (hour_of_day t) ++ ":"
     ++ pad2 (minute_of_hour t))%string.

(** Eastern Standard Time, the offset of America/New_York in winter. *)
Definition EST (_ : Z) : Z := - 5 * NS_PER_HOUR.

End Time.

Import Time.

(* ================================================================== *)
(** * Exceptions *)

Module Exn.

(** A raised Python exception: its class and its message. *)
Record exn : Type := { exn_class : string; exn_message : string }.

(** The result of running a piece of Python: it returns or it raises. *)
Inductive outcome (A : Type) : Type :=
| Returned (a : A)
| Raised (e : exn).

Arguments Raised {A} e.

Definition bind (A B : Type) (m : outcome A) (k : A -> outcome B)
  : outcome B :=
  match m with
  | Returned a => k a
  | Raised e => Raised e
  end.

Definition raises (A : Type) (m : outcome A) : bool :=
  match m with
  | Returned _ => false
  | Raised _ => true
  end.

End Exn.

Import Exn.

Notation "x <- m ;; k" := (bind m (fun x => k))
  (at level 61, m at next level, right associativity).

(* ================================================================== *)
(** * Sorting *)

Module Sorting.

Local Open Scope Z_scope.

(** A sorting [kind] of [sort_values]: an [argsort] on the key column.
    What pandas promises of every kind is that the indexer is a
    rearrangement of the row positions which puts the keys in
    non-decreasing order.  Only the kinds 'mergesort' and 'stable' promise
    more. *)
Record SortKind : Type := {
  argsort : list Z -> list nat;
  argsort_perm :
    forall keys, Permutation (argsort keys) (seq 0 (length keys));
  argsort_sorted :
    forall keys,
      Sorted Z.le (map (fun i => nth i keys 0) (argsort keys))
}.

(** [df.take(indexer)]: the rows at the positions of the indexer. *)
Definition take (A : Type) (df : list A) (indexer : list nat) : list A :=
  flat_map
    (fun i => match nth_error df i with Some r => [r] | None => [] end)
    indexer.

(** [df.sort_values(by)] with sorting kind [kind]. *)
Definition sort_values (A : Type) (kind : SortKind) (by_ : A -> Z)
           (df : list A) : list A :=
  take df (argsort kind (map by_ df)).

End Sorting.

Import Sorting.

(* ================================================================== *)
(** * numpy's quicksort on positions

    [df.sort_values('ts_event')] sorts with [kind='quicksort']: pandas asks
    numpy for the [argsort] of the key column, and for a column of
    timestamps numpy runs [aquicksort_] of npysort/quicksort.cpp.  It is an
    introsort: a quicksort with the median of three as its pivot, an
    insertion sort for the partitions of at most 17 entries, and
    [aheapsort_] of npysort/heapsort.cpp for a partition that is taken from
    the stack when the depth limit is used up.  This is code of the
    library; it is written out because the order in which ticks of the same
    instant are exported depends on it.  Positions are natural numbers
    where the routine has pointers into [tosort], and each loop is given
    the number of turns it may take, which is shown to be enough. *)

Module Numpy.

Local Open Scope nat_scope.

(** Partitions of at most [SMALL_QUICKSORT + 1] entries are sorted by
    insertion. *)
Definition SMALL_QUICKSORT : nat := 16.

Section Argsort.

(** The key column [v]; the array [tosort] of row positions is what the
    routine rearranges. *)
Variable v : list Z.

Definition key (i : nat) : Z := nth i v 0%Z.

Definition less (a b : Z) : bool := (a <? b)%Z.

(** [tosort[p]], and [tosort[p] = x]. *)
Definition get (a : list nat) (p : nat) : nat := nth p a 0.

Fixpoint put (a : list nat) (p : nat) (x : nat) : list nat :=
  match a, p with
  | [], _ => []
  | _ :: t, 0 => x :: t
  | y :: t, S p' => y :: put t p' x
  end.

(** [INTP_SWAP(tosort[p], tosort[q])] *)
Definition swap (a : list nat) (p q : nat) : list nat :=
  put (put a p (get a q)) q (get a p).

(** ** [aheapsort_]: the heap is the partition that starts at [pl], read
    with indices from 1, so that index [i] is the entry [pl + i - 1]. *)

(** The loop that lets [tmp] sink from index [i]; [j] is the left child of
    [i]. *)
Fixpoint sift (fuel : nat) (a : list nat) (pl n tmp i j : nat) : list nat :=
  match fuel with
  | 0 => put a (pl + i - 1) tmp
  | S fuel' =>
      if j <=? n then
        let j :=
          if (j <? n)
             && less (key (get a (pl + j - 1))) (key (get a (pl + j)))
          then j + 1 else j in
        if less (key tmp) (key (get a (pl + j - 1))) then
          sift fuel' (put a (pl + i - 1) (get a (pl + j - 1)))
               pl n tmp j (j + j)
        else put a (pl + i - 1) tmp
      else put a (pl + i - 1) tmp
  end.

(** [for (l = n >> 1; l > 0; --l)] *)
Fixpoint heapify (l : nat) (a : list nat) (pl n : nat) : list nat :=
  match l with
  | 0 => a
  | S l' =>
      heapify l' (sift n a pl n (get a (pl + l - 1)) l (l + l)) pl n
  end.

(** [for (; n > 1;)] *)
Fixpoint sortdown (n : nat) (a : list nat) (pl : nat) : list nat :=
  match n with
  | 0 => a
  | S n' =>
      if 1 <? n then
        let tmp := get a (pl + n - 1) in
        let a := put a (pl + n - 1) (get a pl) in
        sortdown n' (sift n' a pl n' tmp 1 2) pl
      else a
  end.

Definition aheapsort (a : list nat) (pl n : nat) : list nat :=
  sortdown n (heapify (n / 2) a pl n) pl.

(** ** The partition step of [aquicksort_] *)

(** [do { ++pi; } while (less(v[*pi], vp));] *)
Fixpoint scan_up (fuel : nat) (a : list nat) (vp : Z) (pi : nat) : nat :=
  let pi := S pi in
  if less (key (get a pi)) vp
  then match fuel with 0 => pi | S fuel' => scan_up fuel' a vp pi end
  else pi.

(** [do { --pj; } while (less(vp, v[*pj]));] *)
Fixpoint scan_down (fuel : nat) (a : list nat) (vp : Z) (pj : nat) : nat :=
  let pj := pj - 1 in
  if less vp (key (get a pj))
  then match fuel with 0 => pj | S fuel' => scan_down fuel' a vp pj end
  else pj.

(** [for (;;)] with its two scans, its exit and its swap. *)
Fixpoint partition_loop (fuel : nat) (a : list nat) (vp : Z) (pi pj : nat)
  : list nat * nat :=
  let pi := scan_up (pj - pi) a vp pi in
  let pj := scan_down pj a vp pj in
  if pj <=? pi then (a, pi)
  else
    match fuel with
    | 0 => (a, pi)
    | S fuel' => partition_loop fuel' (swap a pi pj) vp pi pj
    end.

(** The median of three, the pivot put at [pr - 1], the loop, and the
    pivot put in its place [pi], which is returned. *)
Definition partition (a : list nat) (pl pr : nat) : list nat * nat :=
  let pm := pl + (pr - pl) / 2 in
  let a := if less (key (get a pm)) (key (get a pl)) then swap a pm pl
           else a in
  let a := if less (key (get a pr)) (key (get a pm)) then swap a pr pm
           else a in
  let a := if less (key (get a pm)) (key (get a pl)) then swap a pm pl
           else a in
  let vp := key (get a pm) in
  let pi := pl in
  let pj := pr - 1 in
  let a := swap a pm pj in
  let '(a, pi) := partition_loop (pr - pl) a vp pi pj in
  let pk := pr - 1 in
  (swap a pi pk, pi).

(** ** The insertion sort of a small partition *)

(** [while (pj > pl && less(vp, v[*pk])) { *pj-- = *pk--; }  *pj = vi;]
    where [pk] is [pj - 1] throughout. *)
Fixpoint shift (fuel : nat) (a : list nat) (pl vi pj : nat) : list nat :=
  match fuel with
  | 0 => put a pj vi
  | S fuel' =>
      if (pl <? pj) && less (key vi) (key (get a (pj - 1)))
      then shift fuel' (put a pj (get a (pj - 1))) pl vi (pj - 1)
      else put a pj vi
  end.

(** [for (pi = pl + 1; pi <= pr; ++pi)], [count] entries to go. *)
Fixpoint insertion_from (count : nat) (a : list nat) (pl pi : nat)
  : list nat :=
  match count with
  | 0 => a
  | S count' =>
      insertion_from count' (shift (pi - pl) a pl (get a pi) pi) pl (S pi)
  end.

Definition insertion_sort (a : list nat) (pl pr : nat) : list nat :=
  insertion_from (pr - pl) a pl (pl + 1).

(** ** The loop of [aquicksort_] *)

(** Where the control is: at the head of [while (1)], or at the head of the
    inner [while]. *)
Inductive label : Type := Outer | Inner.

(** One turn of the loops at a time.  The stack holds the partitions put
    off, with the depth left for each.  The depth is tested at the head of
    the outer loop only: a partition taken from the stack with a negative
    depth is sorted by [aheapsort_]. *)
Fixpoint run (fuel : nat) (at_ : label) (a : list nat) (pl pr : nat)
         (cdepth : Z) (stack : list (nat * nat * Z)) : list nat :=
  match fuel with
  | 0 => a
  | S fuel' =>
      let stack_pop (a : list nat) : list nat :=
        match stack with
        | [] => a
        | (pl', pr', cdepth') :: stack' =>
            run fuel' Outer a pl' pr' cdepth' stack'
        end in
      match at_ with
      | Outer =>
          if (cdepth <? 0)%Z
          then stack_pop (aheapsort a pl (pr - pl + 1))
          else run fuel' Inner a pl pr cdepth stack
      | Inner =>
          if SMALL_QUICKSORT <? pr - pl then
            let '(a, pi) := partition a pl pr in
            if pi - pl <? pr - pi
            then run fuel' Inner a pl (pi - 1) (cdepth - 1)
                     ((pi + 1, pr, (cdepth - 1)%Z) :: stack)
            else run fuel' Inner a (pi + 1) pr (cdepth - 1)
                     ((pl, pi - 1, (cdepth - 1)%Z) :: stack)
          else stack_pop (insertion_sort a pl pr)
      end
  end.

(** [npy_get_msb(num) * 2] *)
Definition depth_limit (num : nat) : Z := (Z.log2 (Z.of_nat num) * 2)%Z.

(** [aquicksort_(v, tosort, num)] on [tosort = arange(num)]: no more than
    [3 * num + 2] turns of the loops are taken. *)
Definition aquicksort : list nat :=
  let num := length v in
  run (3 * num + 2) Outer (seq 0 num) 0 (num - 1) (depth_limit num) [].

End Argsort.

End Numpy.

Import Numpy.


(* ================================================================== *)
(** * Data frames of the pipeline *)

Module Frame.

(** A row of [trades.to_df()], with the columns the program reads. *)
Record Trade : Type := {
  symbol : string;
  ts_event : Z;
  price : float;
  size : N
}.

(** ... with the column [ts_event_et] (line 48). *)
Record Tick : Type := {
  trade :> Trade;
  ts_event_et : Timestamp
}.

(** ... with the four columns of [calculate_vwap]. *)
Record VwapRow : Type := {
  tick :> Tick;
  volume_price : float;
  cumulative_volume : N;
  cumulative_volume_price : float;
  vwap : float
}.

(** ... with the column [hour] (line 69). *)
Record Houred : Type := {
  row :> VwapRow;
  hour : string
}.

(** ... with the four flags (lines 77-80). *)
Record Flagged : Type := {
  houred :> Houred;
  is_hourly_high : bool;
  is_hourly_low : bool;
  is_day_high : bool;
  is_day_low : bool
}.

(** ... with the column [note] (line 88). *)
Record Noted : Type := {
  flagged :> Flagged;
  note : string
}.

(** A row of [hourly_stats]: the group key and the two aggregates. *)
Record HourStat : Type := {
  hs_hour : string;
  hs_max : float;
  hs_min : float
}.

(** A row of the exported table:
    [df[['symbol', 'ts_event_et', 'price', 'vwap', 'size', 'note']]]. *)
Record CsvRow : Type := {
  csv_symbol : string;
  csv_ts_event_et : Timestamp;
  csv_price : float;
  csv_vwap : float;
  csv_size : N;
  csv_note : string
}.

(** The traces handed to the chart. *)
Record Chart : Type := {
  trade_price : list (Timestamp * float);
  vwap_line : list (Timestamp * float);
  hourly_high_markers : list (Timestamp * float);
  hourly_low_markers : list (Timestamp * float);
  day_high_markers : list (Timestamp * float);
  day_low_markers : list (Timestamp * float);
  volume_bars : list (string * N)
}.

(** Everything [fetch_and_chart_trades] computes. *)
Record Report : Type := {
  frame : list Noted;
  csv : list CsvRow;
  hourly_summary : list HourStat;
  day_high : float;
  day_low : float;
  total_volume : N;
  volume_by_minute : list (string * N);
  chart : Chart
}.

End Frame.

Import Frame.

(* ================================================================== *)
(** * The program *)

Module TradeChart.

(** ** Helpers standing for pandas operations *)

(** The group keys of [groupby(key)]: each distinct key once, in ascending
    order of the strings. *)
Fixpoint insert_key (k : string) (l : list string) : list string :=
  match l with
  | [] => [k]
  | k' :: l' =>
      if String.leb k k' then k :: k' :: l' else k' :: insert_key k l'
  end.

Definition group_keys (keys : list string) : list string :=
  fold_right insert_key [] (nodup string_dec keys).

(** ** [calculate_vwap] (lines 13-19) *)

(** The four column assignments, row by row. *)
Fixpoint assign_vwap_columns (df : list Tick) (volume_price : list float)
         (cumulative_volume : list N) (cumulative_volume_price : list float)
         (vwap : list float) : list VwapRow :=
  match df, volume_price, cumulative_volume, cumulative_volume_price, vwap
  with
  | r :: df', vp :: vps, cv :: cvs, cvp :: cvps, v :: vs =>
      {| tick := r; volume_price := vp; cumulative_volume := cv;
         cumulative_volume_price := cvp; vwap := v |}
        :: assign_vwap_columns df' vps cvs cvps vs
  | _, _, _, _, _ => []
  end.

Definition calculate_vwap (df : list Tick) : list VwapRow :=
  let volume_price := map (fun r : Tick => mul_size (price r) (size r)) df in
  let cumulative_volume := cumsum N.add (map (fun r : Tick => size r) df) in
  let cumulative_volume_price := cumsum_skipna volume_price in
  let vwap := map2 truediv cumulative_volume_price cumulative_volume in
  assign_vwap_columns df volume_price cumulative_volume
                      cumulative_volume_price vwap.

(** ** The collaborators of [fetch_and_chart_trades] *)

Record Env : Type := {
  (** [Historical(API_KEY).timeseries.get_range(dataset, symbols, start,
      end).to_df()]: the vendor's answer for a symbol and two dates. *)
  get_range : string -> string -> string -> outcome (list Trade);
  (** [pd.Timestamp(date).tz_localize('UTC')]: an instant, or [None] for
      NaT. *)
  utc_timestamp : string -> outcome (option Z);
  (** The UTC offsets of America/New_York. *)
  new_york : Z -> Z;
  (** The sorting routine behind the default [kind] of [sort_values],
      'quicksort'. *)
  quicksort : SortKind;
  (** The file system under [DataFrame.to_csv(path, index=False)]: what
      writing these rows to this path does. *)
  write_csv : string -> list CsvRow -> outcome unit;
  (** The renderer under [fig.show()]. *)
  show : Chart -> outcome unit
}.

Section Driver.

Variable env : Env.

Local Open Scope Z_scope.

(** Lines 47-48. *)
Definition add_ts_event_et (trades : list Trade) : list Tick :=
  map (fun t => {| trade := t;
                   ts_event_et := tz_convert (new_york env) (ts_event t) |})
      trades.

(** Line 60: the mask of the range filter. *)
Definition in_range (start_ts end_ts : Z) (r : VwapRow) : bool :=
  (start_ts <=? ts_event r) && (ts_event r <=? end_ts).

(** Lines 60 and 66: the range filter, then the sort. *)
Definition normalize (start_ts end_ts : Z) (df : list VwapRow)
  : list VwapRow :=
  sort_values (quicksort env) (fun r : VwapRow => ts_event r)
              (filter (in_range start_ts end_ts) df).

(** Line 69. *)
Definition add_hour (df : list VwapRow) : list Houred :=
  map (fun r => {| row := r; hour := strftime_hour (ts_event_et r) |}) df.

(** Line 72: [df.groupby('hour')['price'].agg(['max', 'min'])]. *)
Definition hourly_stats (df : list Houred) : list HourStat :=
  map (fun h =>
         let group := filter (fun r : Houred => String.eqb (hour r) h) df in
         let prices := map (fun r : Houred => price r) group in
         {| hs_hour := h;
            hs_max := series_max prices;
            hs_min := series_min prices |})
      (group_keys (map hour df)).

(** Lines 77-80. *)
Definition init_flags (day_high day_low : float) (df : list Houred)
  : list Flagged :=
  map (fun r =>
         {| houred := r;
            is_hourly_high := false;
            is_hourly_low := false;
            is_day_high := float_eqb (price r) day_high;
            is_day_low := float_eqb (price r) day_low |})
      df.

(** [df.loc[mask, 'is_hourly_high'] = True] *)
Definition loc_set_hourly_high (mask : Flagged -> bool) (df : list Flagged)
  : list Flagged :=
  map (fun r =>
         if mask r
         then {| houred := r;
                 is_hourly_high := true;
                 is_hourly_low := is_hourly_low r;
                 is_day_high := is_day_high r;
                 is_day_low := is_day_low r |}
         else r)
      df.

(** [df.loc[mask, 'is_hourly_low'] = True] *)
Definition loc_set_hourly_low (mask : Flagged -> bool) (df : list Flagged)
  : list Flagged :=
  map (fun r =>
         if mask r
         then {| houred := r;
                 is_hourly_high := is_hourly_high r;
                 is_hourly_low := true;
                 is_day_high := is_day_high r;
                 is_day_low := is_day_low r |}
         else r)
      df.

(** Lines 83-85: the body of the loop, for one row of [hourly_stats]. *)
Definition mark_hour (df : list Flagged) (st : HourStat) : list Flagged :=
  let hour_mask (r : Flagged) := String.eqb (hour r) (hs_hour st) in
  let df1 :=
    loc_set_hourly_high
      (fun r => hour_mask r && float_eqb (price r) (hs_max st))
      df in
  loc_set_hourly_low
    (fun r => hour_mask r && float_eqb (price r) (hs_min st))
    df1.

(** Lines 82-85: the loop over [hourly_stats.iterrows()]. *)
Definition mark_hours (stats : list HourStat) (df : list Flagged)
  : list Flagged :=
  fold_left mark_hour stats df.

(** [df.loc[mask, 'note'] = label] *)
Definition loc_set_note (mask : Noted -> bool) (label : string)
           (df : list Noted) : list Noted :=
  map (fun r => if mask r then {| flagged := r; note := label |} else r)
      df.

(** Lines 88-92. *)
Definition add_note (df : list Flagged) : list Noted :=
  let df0 := map (fun r => {| flagged := r; note := "" |}) df in
  let df1 := loc_set_note (fun r => is_hourly_high r) "HOUR_HIGH" df0 in
  let df2 := loc_set_note (fun r => is_hourly_low r) "HOUR_LOW" df1 in
  let df3 := loc_set_note (fun r => is_day_high r) "DAY_HIGH" df2 in
  loc_set_note (fun r => is_day_low r) "DAY_LOW" df3.

(** Line 95: [f"{symbol}_trades_{start_date}.csv"]. *)
Definition output_file (symbol start_date : string) : string :=
  (symbol ++ "_trades_" ++ start_date ++ ".csv")%string.

(** Line 96: the selected columns ... *)
Definition selected_columns (df : list Noted) : list CsvRow :=
  map (fun r : Noted =>
         {| csv_symbol := symbol r;
            csv_ts_event_et := ts_event_et r;
            csv_price := price r;
            csv_vwap := vwap r;
            csv_size := size r;
            csv_note := note r |})
      df.

(** ... and their writing to the file. *)
Definition to_csv (path : string) (df : list Noted) : outcome unit :=
  write_csv env path (selected_columns df).

(** Line 118: the column [minute]. *)
Definition minute (r : Noted) : string := strftime_minute (ts_event_et r).

(** Line 119: [df.groupby('minute')['size'].sum()]. *)
Definition group_volume (df : list Noted) : list (string * N) :=
  map (fun k =>
         let group := filter (fun r => String.eqb (minute r) k) df in
         (k, series_sum (map (fun r : Noted => size r) group)))
      (group_keys (map minute df)).

(** The markers of a flag: [df[df[flag]]] as points of the chart. *)
Definition markers (flag : Noted -> bool) (df : list Noted)
  : list (Timestamp * float) :=
  map (fun r : Noted => (ts_event_et r, price r)) (filter flag df).

(** Lines 72-85: the statistics, the four flags and the loop. *)
Definition classify (df : list Houred) : list Flagged :=
  let stats := hourly_stats df in
  let day_high := series_max (map (fun r : Houred => price r) df) in
  let day_low := series_min (map (fun r : Houred => price r) df) in
  let df := init_flags day_high day_low df in
  mark_hours stats df.

(** Lines 57-92: the frame that is exported and charted, from the frame
    that left [calculate_vwap]. *)
Definition enrich (start_ts end_ts : Z) (df : list VwapRow) : list Noted :=
  add_note (classify (add_hour (normalize start_ts end_ts df))).

(** Lines 69-187, from the filtered and sorted frame: the exported table,
    the summary and the traces of the chart. *)
Definition report_of (sorted : list VwapRow) : Report :=
  let sorted := add_hour sorted in
  let df := add_note (classify sorted) in
  let volume := group_volume df in
  {| frame := df;
     csv := selected_columns df;
     hourly_summary := hourly_stats sorted;
     day_high := series_max (map (fun r : Houred => price r) sorted);
     day_low := series_min (map (fun r : Houred => price r) sorted);
     total_volume := series_sum (map (fun r : Noted => size r) df);
     volume_by_minute := volume;
     chart :=
       {| trade_price := map (fun r : Noted => (ts_event_et r, price r)) df;
          vwap_line := map (fun r : Noted => (ts_event_et r, vwap r)) df;
          hourly_high_markers := markers (fun r => is_hourly_high r) df;
          hourly_low_markers := markers (fun r => is_hourly_low r) df;
          day_high_markers := markers (fun r => is_day_high r) df;
          day_low_markers := markers (fun r => is_day_low r) df;
          volume_bars := volume |} |}.

(** What lines 57-187 compute from the frame that left [calculate_vwap],
    between two instants. *)
Definition chart_trades (start_ts end_ts : Z) (df : list VwapRow) : Report :=
  report_of (normalize start_ts end_ts df).

(** Lines 44-51: the frame that reaches the range filter. *)
Definition fetched_frame (trades : list Trade) : list VwapRow :=
  calculate_vwap (add_ts_event_et trades).

(** Lines 57-187 with the two bounds as parsed.  A comparison with NaT is
    false: when a bound is NaT the mask of line 60 selects no row. *)
Definition chart_between (start_ts end_ts : option Z) (df : list VwapRow)
  : Report :=
  match start_ts, end_ts with
  | Some s, Some e => chart_trades s e df
  | _, _ =>
      report_of
        (sort_values (quicksort env) (fun r : VwapRow => ts_event r)
                     (filter (fun _ => false) df))
  end.

(** [fetch_and_chart_trades(symbol, start_date, end_date)]: the request
    (line 36), the average (line 51), the two bounds (lines 58-59), the
    table written to its file (line 96) and the chart shown (line 209). *)
Definition fetch_and_chart_trades (symbol start_date end_date : string)
  : outcome Report :=
  trades <- get_range env symbol start_date end_date ;;
  let df := fetched_frame trades in
  start_ts <- utc_timestamp env start_date ;;
  end_ts <- utc_timestamp env end_date ;;
  let report := chart_between start_ts end_ts df in
  _ <- to_csv (output_file symbol start_date) (frame report) ;;
  _ <- show env (chart report) ;;
  Returned report.

End Driver.

End TradeChart.

Import TradeChart.

(* ================================================================== *)
(** * Facts about float64 numbers *)

Module FloatFacts.

Local Open Scope Z_scope.

(** The order of the floats that are not NaN, read off their sign,
    exponent and mantissa: [SFcompare] is the lexicographic comparison of
    these ranks. *)
Definition rank (f : spec_float) : option (Z * Z * Z) :=
  match f with
  | S754_nan => None
  | S754_zero _ => Some (0, 0, 0)
  | S754_infinity s => Some (if s then -2 else 2, 0, 0)
  | S754_finite s m e =>
      Some (if s then (-1, - e, Z.neg m) else (1, e, Z.pos m))
  end.

Definition lexc (k1 k2 : Z * Z * Z) : comparison :=
  let '(a1, b1, c1) := k1 in
  let '(a2, b2, c2) := k2 in
  match a1 ?= a2 with
  | Eq => match b1 ?= b2 with Eq => c1 ?= c2 | r => r end
  | r => r
  end.

Lemma SFcompare_rank (f1 f2 : spec_float) :
  SFcompare f1 f2
  = match rank f1, rank f2 with
    | Some k1, Some k2 => Some (lexc k1 k2)
    | _, _ => None
    end.
Proof.
  destruct f1 as [s1|s1| |s1 m1 e1], f2 as [s2|s2| |s2 m2 e2];
    try destruct s1; try destruct s2; try reflexivity; cbn.
  rewrite Z.compare_opp. rewrite (Z.compare_antisym e1 e2).
  destruct (e1 ?= e2); reflexivity.
Qed.

Definition float_rank (x : float) : option (Z * Z * Z) := rank (Prim2SF x).

Lemma lexc_refl (k : Z * Z * Z) : lexc k k = Eq.
Proof.
  destruct k as [[a b] c]. cbn. rewrite !Z.compare_refl. reflexivity.
Qed.

Lemma lexc_antisym (k1 k2 : Z * Z * Z) : lexc k2 k1 = CompOpp (lexc k1 k2).
Proof.
  destruct k1 as [[a1 b1] c1], k2 as [[a2 b2] c2]. cbn.
  rewrite (Z.compare_antisym a1 a2), (Z.compare_antisym b1 b2),
    (Z.compare_antisym c1 c2).
  destruct (a1 ?= a2), (b1 ?= b2), (c1 ?= c2); reflexivity.
Qed.

(** [k1 <= k2] in the lexicographic order. *)
Definition lexle (k1 k2 : Z * Z * Z) : Prop := lexc k1 k2 <> Gt.

Lemma lexle_spec (k1 k2 : Z * Z * Z) :
  lexle k1 k2
  <-> let '(a1, b1, c1) := k1 in
      let '(a2, b2, c2) := k2 in
      a1 < a2 \/ (a1 = a2 /\ (b1 < b2 \/ (b1 = b2 /\ c1 <= c2))).
Proof.
  destruct k1 as [[a1 b1] c1], k2 as [[a2 b2] c2]. unfold lexle. cbn.
  destruct (Z.compare_spec a1 a2), (Z.compare_spec b1 b2),
    (Z.compare_spec c1 c2);
    (split; intros G;
     [ try lia; exfalso; apply G; reflexivity
     | try (intros E; discriminate E); exfalso; lia ]).
Qed.

Lemma lexle_trans (k1 k2 k3 : Z * Z * Z) :
  lexle k1 k2 -> lexle k2 k3 -> lexle k1 k3.
Proof.
  rewrite !lexle_spec.
  destruct k1 as [[a1 b1] c1], k2 as [[a2 b2] c2], k3 as [[a3 b3] c3]. lia.
Qed.

Lemma lexle_total (k1 k2 : Z * Z * Z) : lexle k1 k2 \/ lexle k2 k1.
Proof.
  rewrite !lexle_spec.
  destruct k1 as [[a1 b1] c1], k2 as [[a2 b2] c2]. lia.
Qed.

Lemma lexc_eq_iff (k1 k2 : Z * Z * Z) :
  lexc k1 k2 = Eq <-> lexle k1 k2 /\ lexle k2 k1.
Proof.
  unfold lexle. rewrite (lexc_antisym k1 k2).
  destruct (lexc k1 k2); cbn; split; intros H; try discriminate;
    try (split; discriminate); try reflexivity;
    destruct H as [H1 H2]; exfalso; try (apply H1; reflexivity);
    apply H2; reflexivity.
Qed.

(** [x] is a number: not NaN. *)
Definition number (x : float) : Prop := is_nan x = false.

Lemma number_rank (x : float) : number x <-> exists k, float_rank x = Some k.
Proof.
  unfold number, is_nan, PrimFloat.is_nan, float_rank.
  rewrite FloatAxioms.eqb_spec. unfold SFeqb. rewrite SFcompare_rank.
  destruct (rank (Prim2SF x)) as [k|].
  - rewrite lexc_refl. split; [intros _; exists k; reflexivity | reflexivity].
  - split; [discriminate | intros [k H]; discriminate].
Qed.

Lemma leb_rank (x y : float) :
  PrimFloat.leb x y = true
  <-> exists k1 k2, float_rank x = Some k1 /\ float_rank y = Some k2 /\ lexle k1 k2.
Proof.
  rewrite FloatAxioms.leb_spec. unfold SFleb, float_rank. rewrite SFcompare_rank.
  destruct (rank (Prim2SF x)) as [k1|], (rank (Prim2SF y)) as [k2|].
  - unfold lexle. split.
    + intros H. exists k1, k2. repeat split.
      destruct (lexc k1 k2); try discriminate; discriminate.
    + intros [k1' [k2' [E1 [E2 H]]]]. injection E1 as <-. injection E2 as <-.
      destruct (lexc k1 k2); try reflexivity. exfalso; apply H; reflexivity.
  - split; [discriminate | intros [? [? [_ [E _]]]]; discriminate].
  - split; [discriminate | intros [? [? [E _]]]; discriminate].
  - split; [discriminate | intros [? [? [E _]]]; discriminate].
Qed.

Lemma eqb_rank (x y : float) :
  PrimFloat.eqb x y = true
  <-> exists k1 k2, float_rank x = Some k1 /\ float_rank y = Some k2 /\ lexc k1 k2 = Eq.
Proof.
  rewrite FloatAxioms.eqb_spec. unfold SFeqb, float_rank. rewrite SFcompare_rank.
  destruct (rank (Prim2SF x)) as [k1|], (rank (Prim2SF y)) as [k2|].
  - split.
    + intros H. exists k1, k2. repeat split.
      destruct (lexc k1 k2); try discriminate; reflexivity.
    + intros [k1' [k2' [E1 [E2 H]]]]. injection E1 as <-. injection E2 as <-.
      rewrite H. reflexivity.
  - split; [discriminate | intros [? [? [_ [E _]]]]; discriminate].
  - split; [discriminate | intros [? [? [E _]]]; discriminate].
  - split; [discriminate | intros [? [? [E _]]]; discriminate].
Qed.

Lemma ltb_rank (x y : float) :
  PrimFloat.ltb x y = true
  <-> exists k1 k2, float_rank x = Some k1 /\ float_rank y = Some k2 /\ lexc k1 k2 = Lt.
Proof.
  rewrite FloatAxioms.ltb_spec. unfold SFltb, float_rank. rewrite SFcompare_rank.
  destruct (rank (Prim2SF x)) as [k1|], (rank (Prim2SF y)) as [k2|].
  - split.
    + intros H. exists k1, k2. repeat split.
      destruct (lexc k1 k2); try discriminate; reflexivity.
    + intros [k1' [k2' [E1 [E2 H]]]]. injection E1 as <-. injection E2 as <-.
      rewrite H. reflexivity.
  - split; [discriminate | intros [? [? [_ [E _]]]]; discriminate].
  - split; [discriminate | intros [? [? [E _]]]; discriminate].
  - split; [discriminate | intros [? [? [E _]]]; discriminate].
Qed.

(** The order of the numbers. *)
Definition fle (x y : float) : Prop := PrimFloat.leb x y = true.

Lemma fle_number (x y : float) : fle x y -> number x /\ number y.
Proof.
  unfold fle. rewrite leb_rank, !number_rank.
  intros [k1 [k2 [E1 [E2 _]]]]. split; eauto.
Qed.

Lemma fle_refl (x : float) : number x -> fle x x.
Proof.
  unfold fle. rewrite number_rank, leb_rank. intros [k E].
  exists k, k. repeat split; try assumption.
  unfold lexle. rewrite lexc_refl. discriminate.
Qed.

Lemma fle_trans (x y z : float) : fle x y -> fle y z -> fle x z.
Proof.
  unfold fle. rewrite !leb_rank.
  intros [k1 [k2 [E1 [E2 H12]]]] [k2' [k3 [E2' [E3 H23]]]].
  rewrite E2 in E2'. injection E2' as <-.
  exists k1, k3. repeat split; try assumption.
  eapply lexle_trans; eassumption.
Qed.

Lemma fle_total (x y : float) : number x -> number y -> fle x y \/ fle y x.
Proof.
  unfold fle. rewrite !number_rank, !leb_rank.
  intros [k1 E1] [k2 E2].
  destruct (lexle_total k1 k2) as [H|H]; [left | right]; eauto 6.
Qed.

Lemma feq_iff (x y : float) :
  float_eqb x y = true <-> fle x y /\ fle y x.
Proof.
  unfold float_eqb, fle. rewrite eqb_rank, !leb_rank. split.
  - intros [k1 [k2 [E1 [E2 H]]]]. apply lexc_eq_iff in H.
    destruct H as [H1 H2]. split; eauto 6.
  - intros [[k1 [k2 [E1 [E2 H12]]]] [k2' [k1' [E2' [E1' H21]]]]].
    rewrite E2 in E2'. injection E2' as <-.
    rewrite E1 in E1'. injection E1' as <-.
    exists k1, k2. repeat split; try assumption.
    apply lexc_eq_iff. split; assumption.
Qed.

Lemma flt_iff (x y : float) :
  PrimFloat.ltb x y = true <-> fle x y /\ ~ fle y x.
Proof.
  unfold fle. rewrite ltb_rank, !leb_rank. split.
  - intros [k1 [k2 [E1 [E2 H]]]]. split.
    + exists k1, k2. repeat split; try assumption.
      unfold lexle. rewrite H. discriminate.
    + intros [k2' [k1' [E2' [E1' H21]]]].
      rewrite E2 in E2'. injection E2' as <-.
      rewrite E1 in E1'. injection E1' as <-.
      apply H21. rewrite lexc_antisym, H. reflexivity.
  - intros [[k1 [k2 [E1 [E2 H12]]]] Hn].
    exists k1, k2. repeat split; try assumption.
    destruct (lexc k1 k2) eqn:E; try reflexivity.
    + exfalso. apply Hn. exists k2, k1. repeat split; try assumption.
      unfold lexle. rewrite lexc_antisym, E. discriminate.
    + exfalso. apply H12. exact E.
Qed.

Lemma not_flt_fle (x y : float) :
  number x -> number y -> PrimFloat.ltb x y = false -> fle y x.
Proof.
  intros Hx Hy H. destruct (fle_total Hx Hy) as [Hle|Hle]; [|exact Hle].
  destruct (PrimFloat.leb y x) eqn:E; [exact E|].
  assert (F : PrimFloat.ltb x y = true).
  { apply flt_iff. split; [exact Hle|]. unfold fle. rewrite E. discriminate. }
  congruence.
Qed.

(** Zeros and NaN, the values of a product with size 0. *)
Definition zero_or_nan (x : float) : Prop :=
  match Prim2SF x with
  | S754_zero _ | S754_nan => True
  | _ => False
  end.

Definition is_zero (x : float) : Prop :=
  match Prim2SF x with
  | S754_zero _ => True
  | _ => False
  end.

Lemma is_nan_spec (x : float) : is_nan x = true <-> Prim2SF x = S754_nan.
Proof.
  unfold is_nan, PrimFloat.is_nan. rewrite FloatAxioms.eqb_spec. unfold SFeqb.
  rewrite SFcompare_rank. destruct (Prim2SF x) as [s|s| |s m e]; cbn;
    try (rewrite !Z.compare_refl); try destruct s; cbn;
    try (rewrite !Z.compare_refl); try rewrite Pos.compare_refl;
      cbn; split; intros H; try discriminate; reflexivity.
Qed.

Lemma size_to_float_0 : Prim2SF (size_to_float 0) = S754_zero false.
Proof. reflexivity. Qed.

Lemma mul_size_0 (p : float) : zero_or_nan (mul_size p 0).
Proof.
  unfold zero_or_nan, mul_size. rewrite FloatAxioms.mul_spec, size_to_float_0.
  destruct (Prim2SF p) as [s|s| |s m e]; cbn; exact I.
Qed.

Lemma add_zeros (x y : float) : is_zero x -> is_zero y -> is_zero (x + y)%float.
Proof.
  unfold is_zero. rewrite FloatAxioms.add_spec.
  destruct (Prim2SF x) as [s|s| |s m e]; try contradiction.
  destruct (Prim2SF y) as [s'|s'| |s' m' e']; try contradiction.
  intros _ _. cbn. destruct s, s'; exact I.
Qed.

Lemma truediv_0 (x : float) : zero_or_nan x -> is_nan (truediv x 0) = true.
Proof.
  unfold zero_or_nan, truediv. intros H. apply is_nan_spec.
  rewrite FloatAxioms.div_spec, size_to_float_0.
  destruct (Prim2SF x) as [s|s| |s m e]; try contradiction; reflexivity.
Qed.


Lemma nan_is_nan : is_nan PrimFloat.nan = true.
Proof. reflexivity. Qed.

Lemma number_not_nan (x : float) : number x -> is_nan x = true -> False.
Proof. unfold number. congruence. Qed.

(** NaN compares equal to nothing. *)
Lemma float_eqb_number (x y : float) :
  float_eqb x y = true -> number x /\ number y.
Proof.
  intros H. apply feq_iff in H. destruct H as [H _].
  apply fle_number. exact H.
Qed.

Lemma float_eqb_refl (x : float) : number x -> float_eqb x x = true.
Proof. intros H. apply feq_iff. split; apply fle_refl; exact H. Qed.

Lemma float_eqb_nan_l (x y : float) : is_nan x = true -> float_eqb x y = false.
Proof.
  intros H. destruct (float_eqb x y) eqn:E; [|reflexivity].
  apply float_eqb_number in E. destruct E as [E _].
  unfold number in E. congruence.
Qed.

Lemma float_eqb_nan_r (x y : float) : is_nan y = true -> float_eqb x y = false.
Proof.
  intros H. destruct (float_eqb x y) eqn:E; [|reflexivity].
  apply float_eqb_number in E. destruct E as [_ E].
  unfold number in E. congruence.
Qed.

End FloatFacts.

Import FloatFacts.


(* ================================================================== *)
(** * Facts about sorting *)

Module SortingFacts.

Local Open Scope Z_scope.

Lemma take_seq_app (A : Type) (l pre : list A) :
  take (pre ++ l) (seq (length pre) (length l)) = l.
Proof.
  revert pre; induction l as [|x l IH]; intros pre; simpl; [reflexivity|].
  unfold take in *; simpl.
  rewrite nth_error_app2 by lia.
  rewrite Nat.sub_diag; simpl. f_equal.
  specialize (IH (pre ++ [x])).
  rewrite <- app_assoc, length_app in IH; simpl in IH.
  rewrite Nat.add_1_r in IH. exact IH.
Qed.

Lemma take_seq (A : Type) (l : list A) : take l (seq 0 (length l)) = l.
Proof. exact (take_seq_app l []). Qed.

Lemma take_perm (A : Type) (df : list A) (idx : list nat) :
  Permutation idx (seq 0 (length df)) -> Permutation (take df idx) df.
Proof.
  intros H. rewrite <- (take_seq df) at 2.
  unfold take. apply Permutation_flat_map. exact H.
Qed.

Lemma take_keys (A : Type) (by_ : A -> Z) (df : list A) (idx : list nat) :
  Forall (fun i => (i < length df)%nat) idx ->
  map by_ (take df idx) = map (fun i => nth i (map by_ df) 0) idx.
Proof.
  induction 1 as [|i idx Hi _ IH]; [reflexivity|].
  unfold take in *; simpl. rewrite map_app, IH. clear IH.
  destruct (nth_error df i) as [r|] eqn:E.
  - simpl. f_equal.
    apply (map_nth_error by_) in E.
    symmetry. apply nth_error_nth. exact E.
  - apply nth_error_None in E. lia.
Qed.

Lemma sort_values_perm (A : Type) (kind : SortKind) (by_ : A -> Z)
      (df : list A) :
  Permutation (sort_values kind by_ df) df.
Proof.
  unfold sort_values. apply take_perm.
  rewrite <- (length_map by_ df). apply argsort_perm.
Qed.

Lemma sort_values_sorted (A : Type) (kind : SortKind) (by_ : A -> Z)
      (df : list A) :
  Sorted Z.le (map by_ (sort_values kind by_ df)).
Proof.
  unfold sort_values. rewrite take_keys.
  - apply argsort_sorted.
  - apply Forall_forall. intros i Hi.
    apply (Permutation_in _ (argsort_perm kind (map by_ df))) in Hi.
    apply in_seq in Hi. rewrite length_map in Hi. lia.
Qed.

Lemma sort_values_nil (A : Type) (kind : SortKind) (by_ : A -> Z) :
  sort_values kind by_ (@nil A) = [].
Proof.
  apply Permutation_nil. apply Permutation_sym. apply sort_values_perm.
Qed.

End SortingFacts.

Import SortingFacts.

(* ================================================================== *)
(** * Facts about numpy's quicksort *)

Module NumpyFacts.

Local Open Scope nat_scope.

(** ** Reading and writing the array *)

Lemma length_put (a : list nat) :
  forall p x, length (put a p x) = length a.
Proof.
  induction a as [|y t IH]; intros [|p] x; simpl; auto.
Qed.

Lemma get_put_same (a : list nat) :
  forall p x, p < length a -> get (put a p x) p = x.
Proof.
  unfold get. induction a as [|y t IH]; intros [|p] x H; simpl in *;
    try lia; auto.
  apply IH. lia.
Qed.

Lemma get_put_other (a : list nat) :
  forall p x q, q <> p -> get (put a p x) q = get a q.
Proof.
  unfold get. induction a as [|y t IH]; intros [|p] x [|q] H; simpl;
    try reflexivity; try congruence.
  apply IH. congruence.
Qed.

Lemma get_put (a : list nat) (p x q : nat) :
  p < length a ->
  get (put a p x) q = if q =? p then x else get a q.
Proof.
  intros H. destruct (Nat.eqb_spec q p) as [->|Hne].
  - apply get_put_same, H.
  - apply get_put_other, Hne.
Qed.

Lemma length_swap (a : list nat) (p q : nat) :
  length (swap a p q) = length a.
Proof. unfold swap. rewrite !length_put. reflexivity. Qed.

Lemma get_swap (a : list nat) (p q x : nat) :
  p < length a -> q < length a ->
  get (swap a p q) x
  = if x =? q then get a p else if x =? p then get a q else get a x.
Proof.
  intros Hp Hq. unfold swap.
  rewrite get_put by (rewrite length_put; exact Hq).
  destruct (x =? q); [reflexivity|]. apply get_put, Hp.
Qed.

(** Two arrays of the same length with the same entries are the same. *)
Lemma array_ext (a b : list nat) :
  length a = length b ->
  (forall p, p < length a -> get a p = get b p) ->
  a = b.
Proof.
  intros Hlen H. apply (nth_ext a b 0 0 Hlen). exact H.
Qed.

(** Writing [x] on top of a write at the same place. *)
Lemma put_put (a : list nat) (p x y : nat) :
  put (put a p x) p y = put a p y.
Proof.
  apply array_ext; [rewrite !length_put; reflexivity|].
  intros q Hq. rewrite !length_put in Hq.
  destruct (Nat.eq_dec q p) as [->|Hne].
  - destruct (Nat.lt_ge_cases p (length a)) as [H|H].
    + rewrite !get_put_same; rewrite ?length_put; auto.
    + lia.
  - rewrite !get_put_other by exact Hne. reflexivity.
Qed.

(** The move of an entry into a hole is a swap of the filled array. *)
Lemma put_hole (a : list nat) (h s x : nat) :
  h < length a -> s < length a -> s <> h ->
  put (put a h (get a s)) s x = swap (put a h x) h s.
Proof.
  intros Hh Hs Hne.
  apply array_ext.
  - rewrite length_swap, !length_put. reflexivity.
  - intros q Hq. rewrite !length_put in Hq.
    rewrite get_swap by (rewrite length_put; assumption).
    rewrite get_put by (rewrite length_put; assumption).
    destruct (Nat.eqb_spec q s) as [->|Hqs].
    + rewrite get_put_same by exact Hh. reflexivity.
    + rewrite get_put by exact Hh.
      destruct (Nat.eqb_spec q h) as [->|Hqh].
      * rewrite get_put_other by exact Hne. reflexivity.
      * rewrite get_put_other by exact Hqh. reflexivity.
Qed.

Lemma put_get (a : list nat) (p : nat) : put a p (get a p) = a.
Proof.
  apply array_ext; [apply length_put|].
  intros q Hq. rewrite length_put in Hq.
  destruct (Nat.eq_dec q p) as [->|Hne].
  - apply get_put_same, Hq.
  - apply get_put_other, Hne.
Qed.

Lemma swap_same (a : list nat) (p : nat) : swap a p p = a.
Proof. unfold swap. rewrite put_put. apply put_get. Qed.

(** ** Rearrangements within a partition *)

(** [rearr l r a a']: the array [a'] comes from [a] by swaps of entries at
    positions from [l] to [r]. *)
Inductive rearr (l r : nat) (a : list nat) : list nat -> Prop :=
| rearr_refl : rearr l r a a
| rearr_swap (a' : list nat) (p q : nat) :
    rearr l r a a' ->
    l <= p <= r -> l <= q <= r -> p < length a' -> q < length a' ->
    rearr l r a (swap a' p q).

Lemma rearr_length (l r : nat) (a a' : list nat) :
  rearr l r a a' -> length a' = length a.
Proof.
  induction 1 as [|a' p q _ IH]; [reflexivity|].
  rewrite length_swap. exact IH.
Qed.

Lemma rearr_outside (l r : nat) (a a' : list nat) :
  rearr l r a a' -> forall x, x < l \/ r < x -> get a' x = get a x.
Proof.
  induction 1 as [|a' p q _ IH Hp Hq Lp Lq]; intros x Hx; [reflexivity|].
  rewrite get_swap by assumption.
  destruct (Nat.eqb_spec x q); [lia|]. destruct (Nat.eqb_spec x p); [lia|].
  apply IH, Hx.
Qed.

Lemma rearr_inside (l r : nat) (a a' : list nat) :
  rearr l r a a' ->
  forall x, l <= x <= r -> exists y, l <= y <= r /\ get a' x = get a y.
Proof.
  induction 1 as [|a' p q _ IH Hp Hq Lp Lq]; intros x Hx.
  - exists x. split; [exact Hx | reflexivity].
  - rewrite get_swap by assumption.
    destruct (Nat.eqb_spec x q); [apply IH, Hp|].
    destruct (Nat.eqb_spec x p); [apply IH, Hq|]. apply IH, Hx.
Qed.

Lemma rearr_trans (l r : nat) (a b c : list nat) :
  rearr l r a b -> rearr l r b c -> rearr l r a c.
Proof.
  intros Hab Hbc. induction Hbc as [|c p q _ IH Hp Hq Lp Lq];
    [exact Hab|].
  apply rearr_swap; assumption.
Qed.

Lemma rearr_weaken (l r l' r' : nat) (a b : list nat) :
  l' <= l -> r <= r' -> rearr l r a b -> rearr l' r' a b.
Proof.
  intros Hl Hr. induction 1 as [|b p q _ IH Hp Hq Lp Lq];
    [apply rearr_refl|].
  apply rearr_swap; try assumption; lia.
Qed.

Lemma rearr_one (l r : nat) (a : list nat) (p q : nat) :
  l <= p <= r -> l <= q <= r -> p < length a -> q < length a ->
  rearr l r a (swap a p q).
Proof. intros. apply rearr_swap; try assumption. apply rearr_refl. Qed.

(** An array that holds each of the positions below [n] once. *)
Definition arrangement (n : nat) (a : list nat) : Prop :=
  length a = n
  /\ (forall p, p < n -> get a p < n)
  /\ (forall p q, p < n -> q < n -> get a p = get a q -> p = q).

Lemma rearr_arrangement (l r n : nat) (a a' : list nat) :
  rearr l r a a' -> arrangement n a -> arrangement n a'.
Proof.
  induction 1 as [|a' p q _ IH Hp Hq Lp Lq]; intros Ha; [exact Ha|].
  destruct (IH Ha) as [Hlen [Hlt Hinj]].
  split; [rewrite length_swap; exact Hlen|]. split.
  - intros x Hx. rewrite get_swap by assumption.
    destruct (x =? q); [apply Hlt; lia|].
    destruct (x =? p); apply Hlt; lia.
  - intros x y Hx Hy. rewrite !get_swap by assumption.
    destruct (Nat.eqb_spec x q) as [->|Hxq];
      destruct (Nat.eqb_spec y q) as [->|Hyq];
      try destruct (Nat.eqb_spec x p) as [->|Hxp];
      try destruct (Nat.eqb_spec y p) as [->|Hyp];
      intros E; try reflexivity; apply Hinj in E; try lia.
Qed.

Lemma seq_get (n p : nat) : p < n -> get (seq 0 n) p = p.
Proof. intros H. unfold get. rewrite seq_nth by exact H. reflexivity. Qed.

Lemma arrangement_seq (n : nat) : arrangement n (seq 0 n).
Proof.
  split; [apply length_seq|]. split.
  - intros p Hp. rewrite seq_get by exact Hp. exact Hp.
  - intros p q Hp Hq. rewrite !seq_get by assumption. auto.
Qed.

(** An arrangement is a permutation of the positions. *)
Lemma arrangement_perm (n : nat) (a : list nat) :
  arrangement n a -> Permutation a (seq 0 n).
Proof.
  intros [Hlen [Hlt Hinj]].
  apply NoDup_Permutation_bis.
  - apply (proj2 (NoDup_nth a 0)). intros i j Hi Hj E.
    apply Hinj; try lia. exact E.
  - rewrite length_seq. lia.
  - intros x Hx. apply (In_nth a x 0) in Hx. destruct Hx as [p [Hp E]].
    apply in_seq. rewrite <- E. specialize (Hlt p). unfold get in Hlt. lia.
Qed.


(** ** The order of a partition *)

Section Order.

Variable v : list Z.

(** The key of the row at a position of the array. *)
Definition kk (a : list nat) (p : nat) : Z := key v (get a p).

(** The entries from [l] to [r] are in order. *)
Definition sorted_seg (a : list nat) (l r : nat) : Prop :=
  forall p q, l <= p -> p <= q -> q <= r -> (kk a p <= kk a q)%Z.

Lemma less_true (x y : Z) : less x y = true -> (x < y)%Z.
Proof. unfold less. apply Z.ltb_lt. Qed.

Lemma less_false (x y : Z) : less x y = false -> (y <= x)%Z.
Proof. unfold less. apply Z.ltb_ge. Qed.

Lemma kk_put_same (a : list nat) (p x : nat) :
  p < length a -> kk (put a p x) p = key v x.
Proof. intros H. unfold kk. rewrite get_put_same by exact H. reflexivity. Qed.

Lemma kk_put_other (a : list nat) (p x q : nat) :
  q <> p -> kk (put a p x) q = kk a q.
Proof. intros H. unfold kk. rewrite get_put_other by exact H. reflexivity. Qed.

(** ** The insertion sort *)

Section Insertion.

Variables pl pi : nat.

(** The loop that moves the entries above [vi] up by one place: the array
    has a hole at [pj]; its other entries from [pl] to [pi] are in order,
    and those behind the hole are above [vi]. *)
Lemma shift_spec (vi : nat) :
  forall (fuel : nat) (a : list nat) (pj : nat),
    fuel = pj - pl -> pl <= pj -> pj <= pi -> pi < length a ->
    (forall p q, pl <= p -> p <= q -> q <= pi -> p <> pj -> q <> pj ->
                 (kk a p <= kk a q)%Z) ->
    (forall q, pj < q -> q <= pi -> (key v vi < kk a q)%Z) ->
    rearr pl pi (put a pj vi) (shift v fuel a pl vi pj)
    /\ sorted_seg (shift v fuel a pl vi pj) pl pi.
Proof.
  assert (Stop : forall (a : list nat) (pj : nat),
             pl <= pj -> pj <= pi -> pi < length a ->
             (forall p q, pl <= p -> p <= q -> q <= pi -> p <> pj ->
                          q <> pj -> (kk a p <= kk a q)%Z) ->
             (forall q, pj < q -> q <= pi -> (key v vi < kk a q)%Z) ->
             (pl < pj -> (kk a (pj - 1) <= key v vi)%Z) ->
             rearr pl pi (put a pj vi) (put a pj vi)
             /\ sorted_seg (put a pj vi) pl pi).
  { intros a pj H1 H2 H3 Hs Hgt Hle. split; [apply rearr_refl|].
    intros p q Hp Hpq Hq.
    destruct (Nat.eq_dec p pj) as [->|Hpj];
      destruct (Nat.eq_dec q pj) as [->|Hqj].
    - lia.
    - rewrite kk_put_same by lia. rewrite kk_put_other by exact Hqj.
      apply Z.lt_le_incl, Hgt; lia.
    - rewrite kk_put_same by lia. rewrite kk_put_other by exact Hpj.
      apply Z.le_trans with (kk a (pj - 1)); [|apply Hle; lia].
      destruct (Nat.eq_dec p (pj - 1)) as [->|Hne]; [lia|].
      apply Hs; lia.
    - rewrite !kk_put_other by assumption. apply Hs; assumption. }
  induction fuel as [|fuel IH]; intros a pj Hf H1 H2 H3 Hs Hgt.
  - cbn [shift]. apply Stop; try assumption. lia.
  - cbn [shift].
    destruct (pl <? pj) eqn:Elt; cbn [andb].
    2:{ apply Stop; try assumption. apply Nat.ltb_ge in Elt. lia. }
    apply Nat.ltb_lt in Elt.
    destruct (less (key v vi) (key v (get a (pj - 1)))) eqn:Eless.
    2:{ apply Stop; try assumption. intros _. apply less_false, Eless. }
    apply less_true in Eless.
    destruct (IH (put a pj (get a (pj - 1))) (pj - 1)) as [R Srt].
    + lia.
    + lia.
    + lia.
    + rewrite length_put. exact H3.
    + intros p q Hp Hpq Hq Hpj Hqj.
      destruct (Nat.eq_dec p pj) as [->|Hp'];
        destruct (Nat.eq_dec q pj) as [->|Hq'].
      * lia.
      * rewrite kk_put_same by lia. rewrite kk_put_other by exact Hq'.
        apply Hs; lia.
      * rewrite kk_put_same by lia. rewrite kk_put_other by exact Hp'.
        apply Hs; lia.
      * rewrite !kk_put_other by assumption. apply Hs; assumption.
    + intros q Hq1 Hq2.
      destruct (Nat.eq_dec q pj) as [->|Hq'].
      * rewrite kk_put_same by lia. exact Eless.
      * rewrite kk_put_other by exact Hq'. apply Hgt; lia.
    + split; [|exact Srt].
      rewrite put_hole in R by lia.
      eapply rearr_trans; [|exact R].
      apply rearr_one; rewrite ?length_put; lia.
Qed.

End Insertion.

Lemma insertion_from_spec (pl : nat) :
  forall (count : nat) (a : list nat) (pi : nat),
    pl < pi -> pi + count - 1 < length a ->
    sorted_seg a pl (pi - 1) ->
    rearr pl (pi + count - 1) a (insertion_from v count a pl pi)
    /\ sorted_seg (insertion_from v count a pl pi) pl (pi + count - 1).
Proof.
  induction count as [|count IH]; intros a pi Hpi Hlen Hs.
  - cbn [insertion_from]. rewrite Nat.add_0_r.
    split; [apply rearr_refl | exact Hs].
  - cbn [insertion_from].
    destruct (@shift_spec pl pi (get a pi) (pi - pl) a pi) as [R Srt];
      try lia.
    + intros p q Hp Hpq Hq Hpj Hqj. apply Hs; lia.
    + rewrite put_get in R.
      destruct (IH (shift v (pi - pl) a pl (get a pi) pi) (S pi)) as [R' S'].
      * lia.
      * rewrite (rearr_length R). lia.
      * replace (S pi - 1) with pi by lia. exact Srt.
      * replace (S pi + count - 1) with (pi + S count - 1) in R', S' by lia.
        split; [|exact S'].
        eapply rearr_trans; [|exact R'].
        eapply rearr_weaken; [| |exact R]; lia.
Qed.

(** The insertion sort puts a partition in order, by a rearrangement of
    the partition. *)
Lemma insertion_sort_spec (a : list nat) (pl pr : nat) :
  pl <= pr -> pr < length a ->
  rearr pl pr a (insertion_sort v a pl pr)
  /\ sorted_seg (insertion_sort v a pl pr) pl pr.
Proof.
  intros H1 H2. unfold insertion_sort.
  destruct (@insertion_from_spec pl (pr - pl) a (pl + 1)) as [R Srt];
    try lia.
  - intros p q Hp Hpq Hq. replace q with p by lia. lia.
  - replace (pl + 1 + (pr - pl) - 1) with pr in R, Srt by lia.
    split; assumption.
Qed.


(** ** The partition step *)

Lemma kk_swap (a : list nat) (p q x : nat) :
  p < length a -> q < length a ->
  kk (swap a p q) x
  = if x =? q then kk a p else if x =? p then kk a q else kk a x.
Proof.
  intros Hp Hq. unfold kk. rewrite get_swap by assumption.
  destruct (x =? q); [reflexivity|]. destruct (x =? p); reflexivity.
Qed.

(** One step of the median of three: the entries at [hi] and [lo] are
    swapped when the key at [hi] is below the key at [lo]. *)
Definition cswap (a : list nat) (hi lo : nat) : list nat :=
  if less (key v (get a hi)) (key v (get a lo)) then swap a hi lo else a.

Lemma cswap_spec (l r : nat) (a : list nat) (hi lo : nat) :
  l <= hi <= r -> l <= lo <= r -> hi < length a -> lo < length a ->
  hi <> lo ->
  rearr l r a (cswap a hi lo)
  /\ kk (cswap a hi lo) lo = Z.min (kk a lo) (kk a hi)
  /\ kk (cswap a hi lo) hi = Z.max (kk a lo) (kk a hi)
  /\ forall x, x <> hi -> x <> lo -> kk (cswap a hi lo) x = kk a x.
Proof.
  intros Hhi Hlo Lhi Llo Hne. unfold cswap. fold (kk a hi) (kk a lo).
  destruct (less (kk a hi) (kk a lo)) eqn:E.
  - apply less_true in E. split; [apply rearr_one; assumption|].
    rewrite !kk_swap by assumption.
    rewrite Nat.eqb_refl.
    destruct (Nat.eqb_spec hi lo) as [->|_]; [contradiction|].
    rewrite Nat.eqb_refl.
    split; [lia|]. split; [lia|].
    intros x Hx1 Hx2. rewrite kk_swap by assumption.
    destruct (Nat.eqb_spec x lo); [contradiction|].
    destruct (Nat.eqb_spec x hi); [contradiction|]. reflexivity.
  - apply less_false in E. split; [apply rearr_refl|].
    split; [lia|]. split; [lia|]. reflexivity.
Qed.

Lemma scan_up_spec (a : list nat) (vp : Z) (s : nat) :
  (vp <= kk a s)%Z ->
  forall (fuel pi : nat),
    pi < s -> s - pi - 1 <= fuel ->
    pi < scan_up v fuel a vp pi <= s
    /\ (vp <= kk a (scan_up v fuel a vp pi))%Z
    /\ forall x, pi < x -> x < scan_up v fuel a vp pi -> (kk a x < vp)%Z.
Proof.
  intros Hs. induction fuel as [|fuel IH]; intros pi Hpi Hf;
    cbn [scan_up]; fold (kk a (S pi));
    destruct (less (kk a (S pi)) vp) eqn:E.
  - apply less_true in E.
    assert (S pi <> s) by (intros X; rewrite <- X in Hs; lia). lia.
  - apply less_false in E. split; [lia|]. split; [exact E|]. lia.
  - apply less_true in E.
    assert (S pi <> s) by (intros X; rewrite <- X in Hs; lia).
    destruct (IH (S pi)) as [H1 [H2 H3]]; try lia.
    split; [lia|]. split; [exact H2|].
    intros x Hx1 Hx2.
    destruct (Nat.eq_dec x (S pi)) as [->|Hne]; [exact E|].
    apply H3; lia.
  - apply less_false in E. split; [lia|]. split; [exact E|]. lia.
Qed.

Lemma scan_down_spec (a : list nat) (vp : Z) (s : nat) :
  (kk a s <= vp)%Z ->
  forall (fuel pj : nat),
    s < pj -> pj - s - 1 <= fuel ->
    s <= scan_down v fuel a vp pj < pj
    /\ (kk a (scan_down v fuel a vp pj) <= vp)%Z
    /\ forall x, scan_down v fuel a vp pj < x -> x < pj -> (vp < kk a x)%Z.
Proof.
  intros Hs. induction fuel as [|fuel IH]; intros pj Hpj Hf;
    cbn [scan_down]; fold (kk a (pj - 1));
    destruct (less vp (kk a (pj - 1))) eqn:E.
  - apply less_true in E.
    assert (pj - 1 <> s) by (intros X; rewrite <- X in Hs; lia). lia.
  - apply less_false in E. split; [lia|]. split; [exact E|]. lia.
  - apply less_true in E.
    assert (pj - 1 <> s) by (intros X; rewrite <- X in Hs; lia).
    destruct (IH (pj - 1)) as [H1 [H2 H3]]; try lia.
    split; [lia|]. split; [exact H2|].
    intros x Hx1 Hx2.
    destruct (Nat.eq_dec x (pj - 1)) as [->|Hne]; [exact E|].
    apply H3; lia.
  - apply less_false in E. split; [lia|]. split; [exact E|]. lia.
Qed.

(** The loop of the partition: the entries up to [pi] are not above the
    pivot, the entries from [pj] on are not below it, and the pivot waits
    at [pr - 1]. *)
Lemma partition_loop_spec (pl pr : nat) (vp : Z) :
  forall (fuel : nat) (a : list nat) (pi pj : nat),
    pl <= pi -> pi < pj -> pj <= pr - 1 -> pr < length a ->
    pj - pi <= fuel ->
    (forall x, pl <= x -> x <= pi -> (kk a x <= vp)%Z) ->
    (forall x, pj <= x -> x <= pr -> (vp <= kk a x)%Z) ->
    forall a' pi',
      partition_loop v fuel a vp pi pj = (a', pi') ->
      rearr pl pr a a'
      /\ pl < pi' /\ pi' <= pr - 1
      /\ get a' (pr - 1) = get a (pr - 1)
      /\ (forall x, pl <= x -> x < pi' -> (kk a' x <= vp)%Z)
      /\ (forall x, pi' <= x -> x <= pr -> (vp <= kk a' x)%Z).
Proof.
  induction fuel as [|fuel IH]; intros a pi pj H1 H2 H3 H4 Hf HL HR a' pi';
    cbn [partition_loop];
    (destruct (@scan_up_spec a vp pj (HR pj (Nat.le_refl _) ltac:(lia))
                             (pj - pi) pi) as [U1 [U2 U3]]; [lia | lia |]);
    (destruct (@scan_down_spec a vp pi (HL pi H1 (Nat.le_refl _))
                               pj pj) as [D1 [D2 D3]]; [lia | lia |]);
    set (i := scan_up v (pj - pi) a vp pi) in *;
    set (j := scan_down v pj a vp pj) in *;
    destruct (j <=? i) eqn:E.
  1,3: apply Nat.leb_le in E; intros X; injection X as <- <-;
    (split; [apply rearr_refl|]); (split; [lia|]); (split; [lia|]);
    (split; [reflexivity|]); split;
    [ intros x Hx1 Hx2;
      destruct (Nat.le_gt_cases x pi);
      [apply HL; lia | apply Z.lt_le_incl, U3; lia]
    | intros x Hx1 Hx2;
      destruct (Nat.eq_dec x i) as [->|Hne]; [exact U2|];
      destruct (Nat.le_gt_cases pj x);
      [apply HR; lia | apply Z.lt_le_incl, D3; lia] ].
  - apply Nat.leb_gt in E. lia.
  - apply Nat.leb_gt in E. intros X.
    destruct (IH (swap a i j) i j) with (a' := a') (pi' := pi')
      as [R [P1 [P2 [P3 [P4 P5]]]]]; try lia.
    + rewrite length_swap. exact H4.
    + intros x Hx1 Hx2. rewrite kk_swap by lia.
      destruct (Nat.eqb_spec x j); [lia|].
      destruct (Nat.eqb_spec x i) as [->|Hne]; [exact D2|].
      destruct (Nat.le_gt_cases x pi);
        [apply HL; lia | apply Z.lt_le_incl, U3; lia].
    + intros x Hx1 Hx2. rewrite kk_swap by lia.
      destruct (Nat.eqb_spec x j) as [->|Hne]; [exact U2|].
      destruct (Nat.eqb_spec x i); [lia|].
      destruct (Nat.le_gt_cases pj x);
        [apply HR; lia | apply Z.lt_le_incl, D3; lia].
    + exact X.
    + split.
      { eapply rearr_trans; [|exact R]. apply rearr_one; lia. }
      split; [lia|]. split; [lia|]. split.
      { rewrite P3. rewrite get_swap by lia.
        destruct (Nat.eqb_spec (pr - 1) j); [lia|].
        destruct (Nat.eqb_spec (pr - 1) i); [lia|]. reflexivity. }
      split; assumption.
Qed.

(** The partition step: a rearrangement of the partition, after which no
    entry before the place [pi] of the pivot is above it and no entry
    behind is below it. *)
Lemma partition_spec (a : list nat) (pl pr : nat) (a' : list nat)
      (pi : nat) :
  pl + 2 <= pr -> pr < length a ->
  partition v a pl pr = (a', pi) ->
  rearr pl pr a a'
  /\ pl < pi /\ pi < pr
  /\ (forall x, pl <= x -> x < pi -> (kk a' x <= kk a' pi)%Z)
  /\ (forall x, pi < x -> x <= pr -> (kk a' pi <= kk a' x)%Z).
Proof.
  intros H1 H2. unfold partition.
  set (pm := pl + (pr - pl) / 2).
  assert (Hpm : pl < pm /\ pm < pr).
  { unfold pm. pose proof (Nat.div_mod_eq (pr - pl) 2) as D.
    pose proof (Nat.mod_upper_bound (pr - pl) 2) as M. lia. }
  change (if less (key v (get a pm)) (key v (get a pl)) then swap a pm pl
          else a) with (cswap a pm pl).
  set (a1 := cswap a pm pl).
  change (if less (key v (get a1 pr)) (key v (get a1 pm)) then swap a1 pr pm
          else a1) with (cswap a1 pr pm).
  set (a2 := cswap a1 pr pm).
  change (if less (key v (get a2 pm)) (key v (get a2 pl)) then swap a2 pm pl
          else a2) with (cswap a2 pm pl).
  set (a3 := cswap a2 pm pl).
  destruct (@cswap_spec pl pr a pm pl) as [R1 [A1 [B1 C1]]]; try lia.
  fold a1 in R1, A1, B1, C1.
  pose proof (rearr_length R1) as L1.
  destruct (@cswap_spec pl pr a1 pr pm) as [R2 [A2 [B2 C2]]]; try lia.
  fold a2 in R2, A2, B2, C2.
  pose proof (rearr_length R2) as L2.
  destruct (@cswap_spec pl pr a2 pm pl) as [R3 [A3 [B3 C3]]]; try lia.
  fold a3 in R3, A3, B3, C3.
  pose proof (rearr_length R3) as L3.
  fold (kk a3 pm). set (vp := kk a3 pm) in *.
  assert (Hlo : (kk a3 pl <= vp)%Z).
  { rewrite A3, B3. lia. }
  assert (Hhi : (vp <= kk a3 pr)%Z).
  { rewrite B3, (C3 pr) by lia.
    rewrite (C2 pl) by lia. rewrite A2, B2. rewrite A1, B1.
    rewrite (C1 pr) by lia. lia. }
  set (a4 := swap a3 pm (pr - 1)).
  assert (R4 : rearr pl pr a3 a4) by (apply rearr_one; lia).
  pose proof (rearr_length R4) as L4.
  assert (K4 : forall x, kk a4 x
                         = if x =? pr - 1 then kk a3 pm
                           else if x =? pm then kk a3 (pr - 1)
                                else kk a3 x).
  { intros x. apply kk_swap; lia. }
  destruct (partition_loop v (pr - pl) a4 vp pl (pr - 1)) as [a5 i] eqn:E.
  intros X. injection X as <- <-.
  destruct (@partition_loop_spec pl pr vp (pr - pl) a4 pl (pr - 1))
    with (a' := a5) (pi' := i) as [R5 [P1 [P2 [P3 [P4 P5]]]]]; try lia.
  - intros x Hx1 Hx2. replace x with pl by lia. rewrite K4.
    destruct (Nat.eqb_spec pl (pr - 1)); [lia|].
    destruct (Nat.eqb_spec pl pm); [lia|]. exact Hlo.
  - intros x Hx1 Hx2. rewrite K4.
    destruct (Nat.eqb_spec x (pr - 1)); [fold vp; lia|].
    replace x with pr by lia.
    destruct (Nat.eqb_spec pr pm); [lia|]. exact Hhi.
  - exact E.
  - pose proof (rearr_length R5) as L5.
    assert (Kp : kk a5 (pr - 1) = vp).
    { unfold kk at 1. rewrite P3. fold (kk a4 (pr - 1)). rewrite K4.
      rewrite Nat.eqb_refl. reflexivity. }
    assert (K6 : forall x, kk (swap a5 i (pr - 1)) x
                           = if x =? pr - 1 then kk a5 i
                             else if x =? i then kk a5 (pr - 1)
                                  else kk a5 x).
    { intros x. apply kk_swap; lia. }
    split.
    { eapply rearr_trans; [exact R1|]. eapply rearr_trans; [exact R2|].
      eapply rearr_trans; [exact R3|]. eapply rearr_trans; [exact R4|].
      eapply rearr_trans; [exact R5|]. apply rearr_one; lia. }
    split; [lia|]. split; [lia|].
    assert (Ki : kk (swap a5 i (pr - 1)) i = vp).
    { rewrite K6. destruct (Nat.eqb_spec i (pr - 1)) as [->|Hne].
      - exact Kp.
      - rewrite Nat.eqb_refl. exact Kp. }
    rewrite Ki. split.
    + intros x Hx1 Hx2. rewrite K6.
      destruct (Nat.eqb_spec x (pr - 1)); [lia|].
      destruct (Nat.eqb_spec x i); [lia|]. apply P4; lia.
    + intros x Hx1 Hx2. rewrite K6.
      destruct (Nat.eqb_spec x (pr - 1)); [apply P5; lia|].
      destruct (Nat.eqb_spec x i); [lia|]. apply P5; lia.
Qed.


(** ** The heap sort *)

Section Heap.

(** The partition starts at [pl]; the heap index [i], counted from 1, is
    the position [pl + i - 1]. *)
Variable pl : nat.

Definition hk (a : list nat) (i : nat) : Z := kk a (pl + i - 1).

(** From index [lo] to index [n], no entry is below its children. *)
Definition heap_from (lo n : nat) (a : list nat) : Prop :=
  forall x c, lo <= x -> x <= n -> c = 2 * x \/ c = 2 * x + 1 -> c <= n ->
              (hk a c <= hk a x)%Z.

Lemma hk_swap (a : list nat) (i j x : nat) :
  1 <= i -> 1 <= j -> 1 <= x ->
  pl + i - 1 < length a -> pl + j - 1 < length a ->
  hk (swap a (pl + i - 1) (pl + j - 1)) x
  = if x =? j then hk a i else if x =? i then hk a j else hk a x.
Proof.
  intros Hi Hj Hx Li Lj. unfold hk. rewrite kk_swap by assumption.
  destruct (Nat.eqb_spec (pl + x - 1) (pl + j - 1));
    destruct (Nat.eqb_spec x j); try lia; try reflexivity.
  destruct (Nat.eqb_spec (pl + x - 1) (pl + i - 1));
    destruct (Nat.eqb_spec x i); try lia; reflexivity.
Qed.

Lemma hk_put_same (a : list nat) (i x : nat) :
  pl + i - 1 < length a -> hk (put a (pl + i - 1) x) i = key v x.
Proof. intros H. unfold hk. apply kk_put_same, H. Qed.

Lemma hk_put_other (a : list nat) (i x j : nat) :
  1 <= i -> 1 <= j -> j <> i -> hk (put a (pl + i - 1) x) j = hk a j.
Proof. intros Hi Hj H. unfold hk. apply kk_put_other. lia. Qed.

(** The loop that lets [tmp] sink from index [i]: the array has a hole at
    [i]; with [tmp] in the hole, every entry from [lo] on but the one at
    [i] is not below its children, and the parent of [i] is not below the
    children of [i]. *)
Lemma sift_spec (lo n tmp : nat) :
  forall (fuel : nat) (a : list nat) (i : nat),
    1 <= lo -> lo <= i -> i <= n -> pl + n <= length a -> n < fuel + i ->
    (forall x c, lo <= x -> x <= n -> x <> i ->
                 c = 2 * x \/ c = 2 * x + 1 -> c <= n ->
                 (hk (put a (pl + i - 1) tmp) c
                  <= hk (put a (pl + i - 1) tmp) x)%Z) ->
    (forall p c, lo <= p -> i = 2 * p \/ i = 2 * p + 1 ->
                 c = 2 * i \/ c = 2 * i + 1 -> c <= n ->
                 (hk (put a (pl + i - 1) tmp) c
                  <= hk (put a (pl + i - 1) tmp) p)%Z) ->
    rearr pl (pl + n - 1) (put a (pl + i - 1) tmp)
          (sift v fuel a pl n tmp i (i + i))
    /\ heap_from lo n (sift v fuel a pl n tmp i (i + i)).
Proof.
  assert (Stop : forall (a : list nat) (i : nat),
             1 <= lo -> lo <= i -> i <= n -> pl + n <= length a ->
             (forall x c, lo <= x -> x <= n -> x <> i ->
                          c = 2 * x \/ c = 2 * x + 1 -> c <= n ->
                          (hk (put a (pl + i - 1) tmp) c
                           <= hk (put a (pl + i - 1) tmp) x)%Z) ->
             (forall c, c = 2 * i \/ c = 2 * i + 1 -> c <= n ->
                        (hk a c <= key v tmp)%Z) ->
             rearr pl (pl + n - 1) (put a (pl + i - 1) tmp)
                   (put a (pl + i - 1) tmp)
             /\ heap_from lo n (put a (pl + i - 1) tmp)).
  { intros a i H1 H2 H3 H4 HA HC. split; [apply rearr_refl|].
    intros x c Hx1 Hx2 Hc Hcn.
    destruct (Nat.eq_dec x i) as [->|Hne].
    - rewrite hk_put_same by lia. rewrite hk_put_other by lia.
      apply HC; assumption.
    - apply HA; assumption. }
  induction fuel as [|fuel IH]; intros a i H1 H2 H3 H4 Hf HA HB.
  - lia.
  - cbn [sift].
    destruct (i + i <=? n) eqn:Ej.
    2:{ apply Nat.leb_gt in Ej. apply Stop; try assumption.
        intros c Hc Hcn. lia. }
    apply Nat.leb_le in Ej.
    set (j := if (i + i <? n)
                 && less (key v (get a (pl + (i + i) - 1)))
                         (key v (get a (pl + (i + i))))
              then i + i + 1 else i + i).
    assert (Hj : (j = 2 * i \/ j = 2 * i + 1) /\ j <= n
                 /\ forall c, c = 2 * i \/ c = 2 * i + 1 -> c <= n ->
                              (hk a c <= hk a j)%Z).
    { unfold j.
      destruct (i + i <? n) eqn:E1; cbn [andb].
      - apply Nat.ltb_lt in E1.
        change (key v (get a (pl + (i + i) - 1))) with (hk a (i + i)).
        replace (key v (get a (pl + (i + i))))
          with (hk a (i + i + 1))
          by (unfold hk, kk; do 2 f_equal; lia).
        destruct (less (hk a (i + i)) (hk a (i + i + 1))) eqn:E2.
        + apply less_true in E2. split; [lia|]. split; [lia|].
          intros c [->| ->] Hcn.
          * replace (2 * i) with (i + i) by lia. lia.
          * replace (2 * i + 1) with (i + i + 1) by lia. lia.
        + apply less_false in E2. split; [lia|]. split; [lia|].
          intros c [->| ->] Hcn.
          * replace (2 * i) with (i + i) by lia. lia.
          * replace (2 * i + 1) with (i + i + 1) by lia. exact E2.
      - apply Nat.ltb_ge in E1. split; [lia|]. split; [lia|].
        intros c [->| ->] Hcn; [|lia].
        replace (2 * i) with (i + i) by lia. lia. }
    destruct Hj as [Hj1 [Hj2 Hj3]]. clearbody j.
    change (key v (get a (pl + j - 1))) with (hk a j).
    destruct (less (key v tmp) (hk a j)) eqn:E.
    2:{ apply less_false in E. apply Stop; try assumption.
        intros c Hc Hcn. apply Z.le_trans with (hk a j); [|exact E].
        apply Hj3; assumption. }
    apply less_true in E.
    set (b := put a (pl + i - 1) tmp) in *.
    set (a1 := put a (pl + i - 1) (get a (pl + j - 1))).
    assert (Hb1 : put a1 (pl + j - 1) tmp
                  = swap b (pl + i - 1) (pl + j - 1)).
    { unfold a1, b. apply put_hole; lia. }
    assert (Lb : length b = length a) by (unfold b; apply length_put).
    assert (Kb : forall x, 1 <= x ->
                           hk b x = if x =? i then key v tmp else hk a x).
    { intros x Hx. unfold b. destruct (Nat.eqb_spec x i) as [->|Hne].
      - apply hk_put_same. lia.
      - apply hk_put_other; lia. }
    assert (K1 : forall x, 1 <= x ->
                   hk (put a1 (pl + j - 1) tmp) x
                   = if x =? j then key v tmp
                     else if x =? i then hk a j else hk b x).
    { intros x Hx. rewrite Hb1. rewrite hk_swap by lia.
      rewrite (Kb i) by lia. rewrite Nat.eqb_refl.
      rewrite (Kb j) by lia.
      destruct (Nat.eqb_spec j i); [lia|]. reflexivity. }
    replace (j + j) with (j + j) by reflexivity.
    destruct (IH a1 j) as [R Hp]; try lia.
    + unfold a1. rewrite length_put. exact H4.
    + intros x c Hx1 Hx2 Hxj Hc Hcn.
      rewrite !K1 by lia.
      destruct (Nat.eqb_spec x j); [contradiction|].
      destruct (Nat.eqb_spec x i) as [->|Hxi].
      * destruct (Nat.eqb_spec c j); [lia|].
        destruct (Nat.eqb_spec c i); [lia|].
        rewrite Kb by lia. destruct (Nat.eqb_spec c i); [lia|].
        apply Hj3; assumption.
      * destruct (Nat.eqb_spec c j); [lia|].
        destruct (Nat.eqb_spec c i) as [->|Hci].
        -- specialize (HB x j Hx1 Hc Hj1 Hj2).
           rewrite (Kb j) in HB by lia.
           destruct (Nat.eqb_spec j i); [lia|]. exact HB.
        -- apply HA; assumption.
    + intros p c Hp1 Hp2 Hc Hcn.
      assert (p = i) by lia. subst p.
      rewrite !K1 by lia.
      destruct (Nat.eqb_spec c j); [lia|].
      destruct (Nat.eqb_spec c i); [lia|].
      destruct (Nat.eqb_spec i j); [lia|]. rewrite Nat.eqb_refl.
      specialize (HA j c ltac:(lia) Hj2 ltac:(lia) Hc Hcn).
      rewrite (Kb j) in HA by lia.
      destruct (Nat.eqb_spec j i); [lia|]. exact HA.
    + split; [|exact Hp].
      rewrite Hb1 in R. eapply rearr_trans; [|exact R].
      apply rearr_one; lia.
Qed.

(** The first loop makes the partition a heap. *)
Lemma heapify_spec (n : nat) :
  forall (l : nat) (a : list nat),
    l <= n -> pl + n <= length a ->
    heap_from (l + 1) n a ->
    rearr pl (pl + n - 1) a (heapify v l a pl n)
    /\ heap_from 1 n (heapify v l a pl n).
Proof.
  induction l as [|l IH]; intros a Hl Hlen Hh.
  - cbn [heapify]. split; [apply rearr_refl | exact Hh].
  - cbn [heapify].
    pose proof (put_get a (pl + S l - 1)) as Ea.
    destruct (@sift_spec (S l) n (get a (pl + S l - 1)) n a (S l))
      as [R Hp]; try lia.
    + rewrite Ea. intros x c Hx1 Hx2 Hx3 Hc Hcn. apply Hh; try assumption.
      lia.
    + rewrite Ea in R.
      destruct (IH (sift v n a pl n (get a (pl + S l - 1)) (S l) (S l + S l)))
        as [R' Hp']; try lia.
      * rewrite (rearr_length R). exact Hlen.
      * replace (l + 1) with (S l) by lia. exact Hp.
      * split; [|exact Hp']. eapply rearr_trans; eassumption.
Qed.

(** The root of a heap is not below any of its entries. *)
Lemma heap_root_max (n : nat) (a : list nat) :
  heap_from 1 n a ->
  forall x, 1 <= x -> x <= n -> (hk a x <= hk a 1)%Z.
Proof.
  intros Hh x. induction x as [x IH] using lt_wf_ind. intros Hx1 Hx2.
  destruct (Nat.eq_dec x 1) as [->|Hne]; [lia|].
  pose proof (Nat.div_mod_eq x 2) as D.
  pose proof (Nat.mod_upper_bound x 2) as M.
  apply Z.le_trans with (hk a (x / 2)).
  - apply Hh; lia.
  - apply IH; lia.
Qed.

(** The second loop takes the root out of the heap again and again: the
    entries behind the heap are in order, and none is below an entry of the
    heap. *)
Lemma sortdown_spec (N : nat) :
  forall (n : nat) (a : list nat),
    n <= N -> pl + N <= length a ->
    heap_from 1 n a ->
    (forall p q, n < p -> p <= q -> q <= N -> (hk a p <= hk a q)%Z) ->
    (forall x q, 1 <= x -> x <= n -> n < q -> q <= N ->
                 (hk a x <= hk a q)%Z) ->
    rearr pl (pl + N - 1) a (sortdown v n a pl)
    /\ forall p q, 1 <= p -> p <= q -> q <= N ->
                   (hk (sortdown v n a pl) p <= hk (sortdown v n a pl) q)%Z.
Proof.
  induction n as [|n IH]; intros a Hn Hlen Hh Ht Hx.
  - cbn [sortdown]. split; [apply rearr_refl|].
    intros p q Hp Hpq Hq. apply Ht; lia.
  - cbn [sortdown]. destruct (1 <? S n) eqn:E.
    2:{ apply Nat.ltb_ge in E. assert (n = 0) by lia. subst n.
        split; [apply rearr_refl|].
        intros p q Hp Hpq Hq.
        destruct (Nat.eq_dec p 1) as [->|Hp1].
        - destruct (Nat.eq_dec q 1) as [->|Hq1]; [lia|].
          apply Hx; lia.
        - apply Ht; lia. }
    apply Nat.ltb_lt in E.
    set (tmp := get a (pl + S n - 1)).
    set (a1 := put a (pl + S n - 1) (get a pl)).
    assert (Hb : put a1 (pl + 1 - 1) tmp
                 = swap a (pl + S n - 1) (pl + 1 - 1)).
    { unfold a1, tmp. replace (get a pl) with (get a (pl + 1 - 1))
        by (f_equal; lia).
      rewrite put_hole by lia. rewrite put_get. reflexivity. }
    assert (Kb : forall x, 1 <= x ->
                   hk (put a1 (pl + 1 - 1) tmp) x
                   = if x =? 1 then hk a (S n)
                     else if x =? S n then hk a 1 else hk a x).
    { intros x Hx1. rewrite Hb. rewrite hk_swap by lia. reflexivity. }
    destruct (@sift_spec 1 n tmp n a1 1) as [R Hp]; try lia.
    + unfold a1. rewrite length_put. lia.
    + intros x c Hx1 Hx2 Hx3 Hc Hcn. rewrite !Kb by lia.
      destruct (Nat.eqb_spec c 1); [lia|].
      destruct (Nat.eqb_spec c (S n)); [lia|].
      destruct (Nat.eqb_spec x 1); [lia|].
      destruct (Nat.eqb_spec x (S n)); [lia|].
      apply Hh; lia.
    + change (1 + 1) with 2 in R, Hp.
      set (a2 := sift v n a1 pl n tmp 1 2) in *.
      assert (Rb : rearr pl (pl + N - 1) a (put a1 (pl + 1 - 1) tmp)).
      { rewrite Hb. apply rearr_one; lia. }
      assert (R2 : rearr pl (pl + N - 1) a a2).
      { eapply rearr_trans; [exact Rb|].
        eapply rearr_weaken; [| |exact R]; lia. }
      assert (Kout : forall x, n < x -> 1 <= x ->
                               hk a2 x = hk (put a1 (pl + 1 - 1) tmp) x).
      { intros x Hx1 Hx2. unfold hk, kk. f_equal.
        apply (rearr_outside R). lia. }
      assert (Kin : forall x, 1 <= x -> x <= n ->
                              exists y, 1 <= y /\ y <= n
                                        /\ hk a2 x
                                           = hk (put a1 (pl + 1 - 1) tmp) y).
      { intros x Hx1 Hx2.
        destruct (rearr_inside R (x := pl + x - 1)) as [y [Hy Ey]];
          [lia|].
        exists (y - pl + 1). split; [lia|]. split; [lia|].
        unfold hk, kk. rewrite Ey. do 2 f_equal. lia. }
      destruct (IH a2) as [R' Hs']; try lia.
      * rewrite (rearr_length R2). exact Hlen.
      * exact Hp.
      * intros p q Hp1 Hpq Hq. rewrite !Kout by lia. rewrite !Kb by lia.
        destruct (Nat.eqb_spec p 1); [lia|].
        destruct (Nat.eqb_spec q 1); [lia|].
        destruct (Nat.eqb_spec p (S n)) as [->|Hpn];
          destruct (Nat.eqb_spec q (S n)) as [->|Hqn]; try lia.
        -- apply Hx; lia.
        -- apply Ht; lia.
      * intros x q Hx1 Hx2 Hq1 Hq2.
        destruct (Kin x Hx1 Hx2) as [y [Hy1 [Hy2 Ey]]].
        rewrite Ey, Kout by lia. rewrite !Kb by lia.
        destruct (Nat.eqb_spec q 1); [lia|].
        destruct (Nat.eqb_spec y (S n)); [lia|].
        assert (Hroot : forall z, 1 <= z -> z <= S n ->
                                  (hk a z <= hk a 1)%Z)
          by (apply heap_root_max; exact Hh).
        destruct (Nat.eqb_spec y 1) as [->|Hy];
          destruct (Nat.eqb_spec q (S n)) as [->|Hqn].
        -- apply Hroot; lia.
        -- apply Hx; lia.
        -- apply Hroot; lia.
        -- apply Hx; lia.
      * split; [|exact Hs']. eapply rearr_trans; eassumption.
Qed.

End Heap.

(** The heap sort puts a partition in order, by a rearrangement of the
    partition. *)
Lemma aheapsort_spec (a : list nat) (pl n : nat) :
  1 <= n -> pl + n <= length a ->
  rearr pl (pl + n - 1) a (aheapsort v a pl n)
  /\ sorted_seg (aheapsort v a pl n) pl (pl + n - 1).
Proof.
  intros H1 H2. unfold aheapsort.
  pose proof (Nat.div_mod_eq n 2) as D.
  pose proof (Nat.mod_upper_bound n 2) as M.
  destruct (@heapify_spec pl n (n / 2) a) as [R Hh]; try lia.
  - intros x c Hx1 Hx2 Hc Hcn. lia.
  - destruct (@sortdown_spec pl n n (heapify v (n / 2) a pl n))
      as [R' Hs]; try lia.
    + rewrite (rearr_length R). exact H2.
    + exact Hh.
    + split; [eapply rearr_trans; eassumption|].
      intros p q Hp Hpq Hq.
      specialize (Hs (p - pl + 1) (q - pl + 1)).
      unfold hk in Hs.
      replace (pl + (p - pl + 1) - 1) with p in Hs by lia.
      replace (pl + (q - pl + 1) - 1) with q in Hs by lia.
      apply Hs; lia.
Qed.


(** ** The loop of the quicksort *)

(** The partitions still to be sorted: the one at hand and those on the
    stack. *)
Definition segs_of (stack : list (nat * nat * Z)) : list (nat * nat) :=
  map (fun e => (fst (fst e), snd (fst e))) stack.

(** Each is a stretch of the array that is not empty. *)
Definition bounded (n : nat) (segs : list (nat * nat)) : Prop :=
  forall l r, In (l, r) segs -> l <= r /\ r < n.

(** No two of them meet. *)
Fixpoint apart (segs : list (nat * nat)) : Prop :=
  match segs with
  | [] => True
  | (l, r) :: t =>
      (forall l' r', In (l', r') t -> r < l' \/ r' < l) /\ apart t
  end.

(** Two entries of the array are in order unless both lie in one of the
    partitions still to be sorted. *)
Definition ordered (n : nat) (a : list nat) (segs : list (nat * nat))
  : Prop :=
  forall p q, p < q -> q < n ->
              (forall l r, In (l, r) segs -> ~ (l <= p /\ q <= r)) ->
              (kk a p <= kk a q)%Z.

(** The turns of the loops that the partitions still to be sorted may
    take. *)
Fixpoint stack_cost (stack : list (nat * nat * Z)) : nat :=
  match stack with
  | [] => 0
  | (l, r, _) :: t => 3 * (r - l + 1) + 1 + stack_cost t
  end.

Definition cost (at_ : label) (pl pr : nat) (stack : list (nat * nat * Z))
  : nat :=
  (match at_ with Outer => 1 | Inner => 0 end)
  + 3 * (pr - pl + 1) + stack_cost stack.

Lemma kk_rearr_outside (l r : nat) (a a' : list nat) (x : nat) :
  rearr l r a a' -> x < l \/ r < x -> kk a' x = kk a x.
Proof. intros R H. unfold kk. rewrite (rearr_outside R) by exact H. reflexivity. Qed.

Lemma kk_rearr_inside (l r : nat) (a a' : list nat) (x : nat) :
  rearr l r a a' -> l <= x <= r ->
  exists y, l <= y <= r /\ kk a' x = kk a y.
Proof.
  intros R H. destruct (rearr_inside R H) as [y [Hy E]].
  exists y. split; [exact Hy|]. unfold kk. rewrite E. reflexivity.
Qed.

(** What a rearrangement of the partition at hand keeps: the order of two
    entries that do not both lie in it. *)
Lemma ordered_rearr (n : nat) (a a' : list nat) (pl pr : nat)
      (rest : list (nat * nat)) :
  pl <= pr -> pr < n ->
  (forall l' r', In (l', r') rest -> pr < l' \/ r' < pl) ->
  ordered n a ((pl, pr) :: rest) ->
  rearr pl pr a a' ->
  forall p q, p < q -> q < n -> ~ (pl <= p /\ q <= pr) ->
              (forall l r, In (l, r) rest -> ~ (l <= p /\ q <= r)) ->
              (kk a' p <= kk a' q)%Z.
Proof.
  intros H1 H2 Hd Ho R p q Hpq Hq Hcur Hrest.
  assert (Hin : forall x y, x < y -> y < n ->
                  (pl <= x <= pr /\ pr < y) \/ (x < pl /\ pl <= y <= pr) ->
                  (kk a x <= kk a y)%Z).
  { intros x y Hxy Hy Hc. apply Ho; try assumption.
    intros l r [E|Hlr].
    - injection E as <- <-. lia.
    - specialize (Hd l r Hlr). lia. }
  assert (Out : forall x, x < pl \/ pr < x -> kk a' x = kk a x)
    by (intros x Hx; apply (kk_rearr_outside R); exact Hx).
  destruct (Nat.lt_ge_cases p pl) as [Hp|Hp];
    [|destruct (Nat.lt_ge_cases pr p) as [Hp'|Hp']].
  - destruct (Nat.lt_ge_cases q pl) as [Hq1|Hq1];
      [|destruct (Nat.lt_ge_cases pr q) as [Hq2|Hq2]].
    + rewrite (Out p), (Out q) by lia. apply Ho; try assumption.
      intros l r [E|Hlr]; [injection E as <- <-; lia | apply Hrest, Hlr].
    + rewrite (Out p), (Out q) by lia. apply Ho; try assumption.
      intros l r [E|Hlr]; [injection E as <- <-; lia | apply Hrest, Hlr].
    + rewrite (Out p) by lia.
      destruct (kk_rearr_inside R (x := q)) as [y [Hy ->]]; [lia|].
      apply Hin; lia.
  - rewrite (Out p), (Out q) by lia. apply Ho; try assumption.
    intros l r [E|Hlr]; [injection E as <- <-; lia | apply Hrest, Hlr].
  - assert (Hq2 : pr < q) by lia.
    rewrite (Out q) by lia.
    destruct (kk_rearr_inside R (x := p)) as [y [Hy ->]]; [lia|].
    apply Hin; lia.
Qed.

(** A partition that has been put in order is done with. *)
Lemma finish_segment (n : nat) (a a' : list nat) (pl pr : nat)
      (rest : list (nat * nat)) :
  arrangement n a ->
  bounded n ((pl, pr) :: rest) -> apart ((pl, pr) :: rest) ->
  ordered n a ((pl, pr) :: rest) ->
  rearr pl pr a a' -> sorted_seg a' pl pr ->
  arrangement n a' /\ bounded n rest /\ apart rest /\ ordered n a' rest.
Proof.
  intros Ha Hb Hd Ho R Hs.
  destruct (Hb pl pr (or_introl eq_refl)) as [B1 B2].
  destruct Hd as [Hd1 Hd2].
  split; [exact (rearr_arrangement R Ha)|].
  split; [intros l r Hlr; apply Hb; right; exact Hlr|].
  split; [exact Hd2|].
  intros p q Hpq Hq Hrest.
  destruct (Nat.le_gt_cases pl p) as [Hp|Hp];
    [destruct (Nat.le_gt_cases q pr) as [Hq'|Hq']|].
  - apply Hs; lia.
  - apply (ordered_rearr B1 B2 Hd1 Ho R); try assumption. lia.
  - apply (ordered_rearr B1 B2 Hd1 Ho R); try assumption. lia.
Qed.

(** A partition step leaves the two sides of the pivot to be sorted. *)
Lemma split_segment (n : nat) (a a' : list nat) (pl pr pi : nat)
      (rest : list (nat * nat)) :
  arrangement n a ->
  bounded n ((pl, pr) :: rest) -> apart ((pl, pr) :: rest) ->
  ordered n a ((pl, pr) :: rest) ->
  rearr pl pr a a' -> pl < pi -> pi < pr ->
  (forall x, pl <= x -> x < pi -> (kk a' x <= kk a' pi)%Z) ->
  (forall x, pi < x -> x <= pr -> (kk a' pi <= kk a' x)%Z) ->
  arrangement n a'
  /\ (bounded n ((pl, pi - 1) :: (pi + 1, pr) :: rest)
      /\ apart ((pl, pi - 1) :: (pi + 1, pr) :: rest)
      /\ ordered n a' ((pl, pi - 1) :: (pi + 1, pr) :: rest))
  /\ (bounded n ((pi + 1, pr) :: (pl, pi - 1) :: rest)
      /\ apart ((pi + 1, pr) :: (pl, pi - 1) :: rest)
      /\ ordered n a' ((pi + 1, pr) :: (pl, pi - 1) :: rest)).
Proof.
  intros Ha Hb Hd Ho R H1 H2 HL HR.
  destruct (Hb pl pr (or_introl eq_refl)) as [B1 B2].
  destruct Hd as [Hd1 Hd2].
  assert (Hord : forall p q, p < q -> q < n ->
                   ~ (pl <= p /\ q <= pi - 1) ->
                   ~ (pi + 1 <= p /\ q <= pr) ->
                   (forall l r, In (l, r) rest -> ~ (l <= p /\ q <= r)) ->
                   (kk a' p <= kk a' q)%Z).
  { intros p q Hpq Hq N1 N2 Hrest.
    destruct (Nat.le_gt_cases pl p) as [Hp|Hp];
      [destruct (Nat.le_gt_cases q pr) as [Hq'|Hq']|].
    - assert (Hpi : p <= pi /\ pi <= q) by lia.
      apply Z.le_trans with (kk a' pi).
      + destruct (Nat.eq_dec p pi) as [->|Hne]; [lia | apply HL; lia].
      + destruct (Nat.eq_dec q pi) as [->|Hne]; [lia | apply HR; lia].
    - apply (ordered_rearr B1 B2 Hd1 Ho R); try assumption. lia.
    - apply (ordered_rearr B1 B2 Hd1 Ho R); try assumption. lia. }
  split; [exact (rearr_arrangement R Ha)|].
  split; (split; [|split]).
  - intros l r [E|[E|Hlr]];
      [injection E as <- <-; lia | injection E as <- <-; lia |].
    apply Hb. right; exact Hlr.
  - cbn [apart]. split; [|split; [|exact Hd2]].
    + intros l' r' [E|Hlr]; [injection E as <- <-; lia|].
      specialize (Hd1 l' r' Hlr). lia.
    + intros l' r' Hlr. specialize (Hd1 l' r' Hlr). lia.
  - intros p q Hpq Hq Hsegs. apply Hord; try assumption.
    + apply Hsegs. left; reflexivity.
    + apply Hsegs. right; left; reflexivity.
    + intros l r Hlr. apply Hsegs. right; right; exact Hlr.
  - intros l r [E|[E|Hlr]];
      [injection E as <- <-; lia | injection E as <- <-; lia |].
    apply Hb. right; exact Hlr.
  - cbn [apart]. split; [|split; [|exact Hd2]].
    + intros l' r' [E|Hlr]; [injection E as <- <-; lia|].
      specialize (Hd1 l' r' Hlr). lia.
    + intros l' r' Hlr. specialize (Hd1 l' r' Hlr). lia.
  - intros p q Hpq Hq Hsegs. apply Hord; try assumption.
    + apply Hsegs. right; left; reflexivity.
    + apply Hsegs. left; reflexivity.
    + intros l r Hlr. apply Hsegs. right; right; exact Hlr.
Qed.

(** The loop ends with the array in order, within the turns it is
    given. *)
Lemma run_spec (n : nat) :
  forall (fuel : nat) (at_ : label) (a : list nat) (pl pr : nat)
         (cdepth : Z) (stack : list (nat * nat * Z)),
    arrangement n a ->
    bounded n ((pl, pr) :: segs_of stack) ->
    apart ((pl, pr) :: segs_of stack) ->
    ordered n a ((pl, pr) :: segs_of stack) ->
    cost at_ pl pr stack <= fuel ->
    arrangement n (run v fuel at_ a pl pr cdepth stack)
    /\ ordered n (run v fuel at_ a pl pr cdepth stack) [].
Proof.
  induction fuel as [|fuel IH];
    intros at_ a pl pr cdepth stack Ha Hb Hd Ho Hc.
  - unfold cost in Hc. lia.
  - destruct (Hb pl pr (or_introl eq_refl)) as [B1 B2].
    assert (Hlen : length a = n) by exact (proj1 Ha).
    assert (Pop : forall a' : list nat,
               rearr pl pr a a' -> sorted_seg a' pl pr ->
               arrangement n
                 (match stack with
                  | [] => a'
                  | (pl', pr', cdepth') :: stack' =>
                      run v fuel Outer a' pl' pr' cdepth' stack'
                  end)
               /\ ordered n
                    (match stack with
                     | [] => a'
                     | (pl', pr', cdepth') :: stack' =>
                         run v fuel Outer a' pl' pr' cdepth' stack'
                     end) []).
    { intros a' R Hs.
      destruct (finish_segment Ha Hb Hd Ho R Hs) as [Ha' [Hb' [Hd' Ho']]].
      destruct stack as [|[[pl' pr'] cdepth'] stack'].
      - split; assumption.
      - apply IH; try assumption.
        unfold cost in *. cbn [stack_cost] in Hc.
        destruct at_; lia. }
    cbn [run]. destruct at_.
    + destruct (cdepth <? 0)%Z.
      * destruct (@aheapsort_spec a pl (pr - pl + 1)) as [R Hs]; try lia.
        replace (pl + (pr - pl + 1) - 1) with pr in R, Hs by lia.
        apply Pop; assumption.
      * apply IH; try assumption. unfold cost in *. lia.
    + destruct (SMALL_QUICKSORT <? pr - pl) eqn:E.
      * apply Nat.ltb_lt in E. unfold SMALL_QUICKSORT in E.
        destruct (partition v a pl pr) as [a' pi] eqn:P.
        destruct (@partition_spec a pl pr a' pi) as [R [P1 [P2 [P3 P4]]]];
          try lia; try exact P.
        destruct (split_segment Ha Hb Hd Ho R P1 P2 P3 P4)
          as [Ha' [[Hb1 [Hd1 Ho1]] [Hb2 [Hd2 Ho2]]]].
        destruct (pi - pl <? pr - pi).
        -- apply IH; try assumption.
           unfold cost in *. cbn [stack_cost]. lia.
        -- apply IH; try assumption.
           unfold cost in *. cbn [stack_cost]. lia.
      * destruct (@insertion_sort_spec a pl pr) as [R Hs]; try lia.
        apply Pop; assumption.
Qed.

(** An array in order gives a sorted column of keys. *)
Lemma ordered_sorted (a : list nat) :
  ordered (length a) a [] ->
  Sorted Z.le (map (fun i => nth i v 0%Z) a).
Proof.
  intros H.
  assert (G : forall p q, p < q -> q < length a ->
                          (nth (nth p a 0%nat) v 0 <= nth (nth q a 0%nat) v 0)%Z).
  { intros p q Hpq Hq. apply (H p q Hpq Hq). intros l r []. }
  clear H. induction a as [|x t IH]; [constructor|].
  cbn [map]. constructor.
  - apply IH. intros p q Hpq Hq.
    apply (G (S p) (S q)); simpl; lia.
  - destruct t as [|y t']; constructor.
    apply (G 0 1); simpl; lia.
Qed.

(** numpy's quicksort gives a rearrangement of the positions that puts the
    keys in order. *)
Theorem aquicksort_spec :
  Permutation (aquicksort v) (seq 0 (length v))
  /\ Sorted Z.le (map (fun i => nth i v 0%Z) (aquicksort v)).
Proof.
  unfold aquicksort.
  destruct (Nat.eq_dec (length v) 0) as [E|E].
  - rewrite E. cbn. split; constructor.
  - destruct (@run_spec (length v) (3 * length v + 2) Outer
                        (seq 0 (length v)) 0 (length v - 1)
                        (depth_limit (length v)) [])
      as [Ha Ho].
    + apply arrangement_seq.
    + intros l r [X|[]]. injection X as <- <-. lia.
    + cbn. split; [intros l' r' []|exact I].
    + intros p q Hpq Hq Hsegs. exfalso.
      apply (Hsegs 0 (length v - 1)); [left; reflexivity | lia].
    + unfold cost. cbn [stack_cost]. lia.
    + split; [apply arrangement_perm, Ha|].
      apply ordered_sorted.
      replace (length (run v (3 * length v + 2) Outer (seq 0 (length v)) 0
                           (length v - 1) (depth_limit (length v)) []))
        with (length v) by (symmetry; exact (proj1 Ha)).
      exact Ho.
Qed.


(** ** Small columns: the insertion sort keeps ties in their order *)

(** Row [x] goes before row [y] in a stable sort: its key is smaller, or
    the keys are the same and [x] is the earlier row. *)
Definition before (x y : nat) : Prop :=
  (key v x < key v y)%Z \/ (key v x = key v y /\ x < y).

Definition stable_seg (a : list nat) (l r : nat) : Prop :=
  forall p q, l <= p -> p < q -> q <= r -> before (get a p) (get a q).

(** The loop of [shift] once more, for a row [vi] that comes after all the
    rows of the partition. *)
Lemma shift_stable (pl pi vi : nat) :
  forall (fuel : nat) (a : list nat) (pj : nat),
    fuel = pj - pl -> pl <= pj -> pj <= pi -> pi < length a ->
    (forall p q, pl <= p -> p < q -> q <= pi -> p <> pj -> q <> pj ->
                 before (get a p) (get a q)) ->
    (forall q, pj < q -> q <= pi -> (key v vi < kk a q)%Z) ->
    (forall p, pl <= p -> p <= pi -> p <> pj -> get a p < vi) ->
    stable_seg (shift v fuel a pl vi pj) pl pi.
Proof.
  assert (Stop : forall (a : list nat) (pj : nat),
             pl <= pj -> pj <= pi -> pi < length a ->
             (forall p q, pl <= p -> p < q -> q <= pi -> p <> pj ->
                          q <> pj -> before (get a p) (get a q)) ->
             (forall q, pj < q -> q <= pi -> (key v vi < kk a q)%Z) ->
             (forall p, pl <= p -> p <= pi -> p <> pj -> get a p < vi) ->
             (pl < pj -> (kk a (pj - 1) <= key v vi)%Z) ->
             stable_seg (put a pj vi) pl pi).
  { intros a pj H1 H2 H3 Hs Hgt Hval Hle p q Hp Hpq Hq.
    destruct (Nat.eq_dec p pj) as [->|Hpj];
      destruct (Nat.eq_dec q pj) as [->|Hqj].
    - lia.
    - rewrite get_put_same by lia. rewrite get_put_other by exact Hqj.
      left. apply Hgt; lia.
    - rewrite get_put_same by lia. rewrite get_put_other by exact Hpj.
      assert (Hk : (kk a p <= key v vi)%Z).
      { apply Z.le_trans with (kk a (pj - 1)); [|apply Hle; lia].
        destruct (Nat.eq_dec p (pj - 1)) as [->|Hne]; [lia|].
        destruct (Hs p (pj - 1)) as [Hlt|[Heq _]]; try lia;
          unfold kk; lia. }
      unfold before. unfold kk in Hk.
      specialize (Hval p Hp ltac:(lia) Hpj). lia.
    - rewrite !get_put_other by assumption. apply Hs; assumption. }
  induction fuel as [|fuel IH]; intros a pj Hf H1 H2 H3 Hs Hgt Hval.
  - cbn [shift]. apply Stop; try assumption. lia.
  - cbn [shift].
    destruct (pl <? pj) eqn:Elt; cbn [andb].
    2:{ apply Stop; try assumption. apply Nat.ltb_ge in Elt. lia. }
    apply Nat.ltb_lt in Elt.
    destruct (less (key v vi) (key v (get a (pj - 1)))) eqn:Eless.
    2:{ apply Stop; try assumption. intros _. apply less_false, Eless. }
    apply less_true in Eless.
    apply IH.
    + lia.
    + lia.
    + lia.
    + rewrite length_put. exact H3.
    + intros p q Hp Hpq Hq Hpj Hqj.
      destruct (Nat.eq_dec p pj) as [->|Hp'];
        destruct (Nat.eq_dec q pj) as [->|Hq'].
      * lia.
      * rewrite get_put_same by lia. rewrite get_put_other by exact Hq'.
        apply Hs; lia.
      * rewrite get_put_same by lia. rewrite get_put_other by exact Hp'.
        apply Hs; lia.
      * rewrite !get_put_other by assumption. apply Hs; assumption.
    + intros q Hq1 Hq2.
      destruct (Nat.eq_dec q pj) as [->|Hq'].
      * rewrite kk_put_same by lia. exact Eless.
      * rewrite kk_put_other by exact Hq'. apply Hgt; lia.
    + intros p Hp1 Hp2 Hp3.
      destruct (Nat.eq_dec p pj) as [->|Hp'].
      * rewrite get_put_same by lia. apply Hval; lia.
      * rewrite get_put_other by exact Hp'. apply Hval; lia.
Qed.

(** The rows up to [pi] have been put in order; they are the rows
    [0 .. pi - 1], and the rows behind are still in their places. *)
Lemma insertion_from_stable :
  forall (count : nat) (a : list nat) (pi : nat),
    0 < pi -> pi + count - 1 < length a ->
    stable_seg a 0 (pi - 1) ->
    (forall p, p < pi -> get a p < pi) ->
    (forall x, pi <= x -> x < length a -> get a x = x) ->
    stable_seg (insertion_from v count a 0 pi) 0 (pi + count - 1).
Proof.
  induction count as [|count IH]; intros a pi Hpi Hlen Hs Hlow Hrest.
  - cbn [insertion_from]. rewrite Nat.add_0_r. exact Hs.
  - cbn [insertion_from]. rewrite (Hrest pi) by lia.
    destruct (@shift_spec 0 pi pi (pi - 0) a pi) as [R _]; try lia.
    { intros p q Hp Hpq Hq Hpj Hqj.
      destruct (Nat.eq_dec p q) as [->|Hne]; [lia|].
      destruct (Hs p q) as [Hlt|[Heq _]]; try lia; unfold kk; lia. }
    assert (Ea : put a pi pi = a).
    { transitivity (put a pi (get a pi)); [|apply put_get].
      rewrite (Hrest pi) by lia. reflexivity. }
    rewrite Ea in R.
    replace (pi + S count - 1) with (S pi + count - 1) by lia.
    apply IH.
    + lia.
    + rewrite (rearr_length R). lia.
    + replace (S pi - 1) with pi by lia.
      apply shift_stable; try lia.
      * intros p q Hp Hpq Hq Hpj Hqj. apply Hs; lia.
      * intros p Hp1 Hp2 Hp3. apply Hlow. lia.
    + intros p Hp.
      destruct (rearr_inside R (x := p)) as [y [Hy ->]]; [lia|].
      destruct (Nat.eq_dec y pi) as [->|Hne].
      * rewrite Hrest by lia. lia.
      * specialize (Hlow y). lia.
    + intros x Hx1 Hx2. rewrite (rearr_length R) in Hx2.
      rewrite (rearr_outside R) by lia. apply Hrest; lia.
Qed.

(** On at most [SMALL_QUICKSORT + 1] rows the quicksort is the insertion
    sort. *)
Lemma aquicksort_small :
  length v <= SMALL_QUICKSORT + 1 ->
  aquicksort v = insertion_sort v (seq 0 (length v)) 0 (length v - 1).
Proof.
  intros H. unfold aquicksort.
  replace (3 * length v + 2) with (S (S (3 * length v))) by lia.
  cbn [run].
  assert (D : (depth_limit (length v) <? 0)%Z = false).
  { apply Z.ltb_ge. unfold depth_limit.
    pose proof (Z.log2_nonneg (Z.of_nat (length v))). lia. }
  rewrite D.
  assert (E : (SMALL_QUICKSORT <? length v - 1 - 0) = false)
    by (apply Nat.ltb_ge; lia).
  rewrite E. reflexivity.
Qed.

Lemma stable_sorted (a : list nat) :
  stable_seg a 0 (length a - 1) -> StronglySorted before a.
Proof.
  intros H.
  assert (G : forall p q, p < q -> q < length a ->
                          before (nth p a 0) (nth q a 0)).
  { intros p q Hpq Hq. apply (H p q); lia. }
  clear H. induction a as [|x t IH]; [constructor|].
  constructor.
  - apply IH. intros p q Hpq Hq. apply (G (S p) (S q)); simpl; lia.
  - apply Forall_forall. intros y Hy.
    apply (In_nth t y 0) in Hy. destruct Hy as [i [Hi <-]].
    apply (G 0 (S i)); simpl; lia.
Qed.

(** On at most 17 rows numpy's quicksort is stable: rows of the same key
    stay in their order. *)
Theorem aquicksort_stable :
  length v <= SMALL_QUICKSORT + 1 -> StronglySorted before (aquicksort v).
Proof.
  intros H. apply stable_sorted.
  replace (length (aquicksort v)) with (length v)
    by (rewrite (Permutation_length (proj1 aquicksort_spec));
        symmetry; apply length_seq).
  rewrite (aquicksort_small H). unfold insertion_sort.
  destruct (Nat.eq_dec (length v) 0) as [E|E].
  - rewrite E. cbn. intros p q Hp Hpq Hq. lia.
  - replace (length v - 1) with (0 + 1 + (length v - 1 - 0) - 1) at 2
      by lia.
    apply insertion_from_stable.
    + lia.
    + rewrite length_seq. lia.
    + intros p q Hp Hpq Hq. lia.
    + intros p Hp. rewrite seq_get by lia. lia.
    + intros x Hx1 Hx2. rewrite length_seq in Hx2. apply seq_get, Hx2.
Qed.

End Order.

(** The default [kind] of [sort_values]: numpy's quicksort. *)
Definition numpy_quicksort : SortKind :=
  {| argsort := aquicksort;
     argsort_perm := fun keys => proj1 (aquicksort_spec keys);
     argsort_sorted := fun keys => proj2 (aquicksort_spec keys) |}.

End NumpyFacts.

Import NumpyFacts.

(* ================================================================== *)
(** * Facts about [calculate_vwap] *)

Module VwapFacts.

(** [price * size] of a tick. *)
Definition notional (t : Trade) : float := mul_size (price t) (size t).

(** The sum of [price * size] over the positions [0..i] of a sequence,
    added up left to right as [cumsum] does; a product that is NaN counts
    as 0.0. *)
Definition notional_upto (ticks : list Trade) (i : nat) : float :=
  total PrimFloat.add PrimFloat.zero
        (map (fun t => nan_to_zero (notional t)) (firstn (S i) ticks)).

(** The sum of [size] over the positions [0..i] of a sequence. *)
Definition volume_upto (ticks : list Trade) (i : nat) : N :=
  total N.add 0%N (map size (firstn (S i) ticks)).

(** The volume weighted average price of the ticks at positions [0..i] of
    a sequence, where there is a tick at position [i]: the sum of
    [price * size] over these positions divided by the sum of [size] over
    them; NaN when the product of the tick at [i] itself is NaN. *)
Definition vwap_at (ticks : list Trade) (i : nat) : option float :=
  match nth_error ticks i with
  | Some t =>
      Some (truediv (if is_nan (notional t) then PrimFloat.nan
                     else notional_upto ticks i)
                    (volume_upto ticks i))
  | None => None
  end.

(** The rows of [calculate_vwap] after a prefix whose cumulated volume is
    [cv] and whose cumulated notional, as [np.cumsum] holds it, is [acc]. *)
Fixpoint rows_from (cv : N) (acc : float) (df : list Tick) : list VwapRow :=
  match df with
  | [] => []
  | r :: t =>
      let acc' := PrimFloat.add acc (nan_to_zero (notional r)) in
      let cvp := if is_nan (notional r) then PrimFloat.nan else acc' in
      {| tick := r;
         volume_price := notional r;
         cumulative_volume := cv + size r;
         cumulative_volume_price := cvp;
         vwap := truediv cvp (cv + size r) |}
        :: rows_from (cv + size r) acc' t
  end.

Lemma assign_rows_from (cv : N) (acc : float) (df : list Tick) :
  let vp := map (fun r : Tick => mul_size (price r) (size r)) df in
  let cvs := cumsum_from N.add cv (map (fun r : Tick => size r) df) in
  let cvps :=
    map2 (fun x s => if is_nan x then PrimFloat.nan else s)
         vp (cumsum_from PrimFloat.add acc (map nan_to_zero vp)) in
  assign_vwap_columns df vp cvs cvps (map2 truediv cvps cvs)
  = rows_from cv acc df.
Proof.
  revert cv acc; induction df as [|r t IH]; intros cv acc; simpl.
  - reflexivity.
  - f_equal. apply IH.
Qed.

Lemma calculate_vwap_cons (r : Tick) (t : list Tick) :
  calculate_vwap (r :: t)
  = (let acc := nan_to_zero (notional r) in
     let cvp := if is_nan (notional r) then PrimFloat.nan else acc in
     {| tick := r;
        volume_price := notional r;
        cumulative_volume := size r;
        cumulative_volume_price := cvp;
        vwap := truediv cvp (size r) |}
       :: rows_from (size r) acc t).
Proof.
  unfold calculate_vwap, cumsum_skipna; simpl. f_equal. apply assign_rows_from.
Qed.

Lemma rows_from_length (cv : N) (acc : float) (df : list Tick) :
  length (rows_from cv acc df) = length df.
Proof.
  revert cv acc; induction df as [|r t IH]; intros; simpl; auto.
Qed.

Lemma calculate_vwap_length (df : list Tick) :
  length (calculate_vwap df) = length df.
Proof.
  destruct df as [|r t]; [reflexivity|].
  rewrite calculate_vwap_cons; simpl. now rewrite rows_from_length.
Qed.

Lemma rows_from_tick (cv : N) (acc : float) (df : list Tick) :
  map tick (rows_from cv acc df) = df.
Proof.
  revert cv acc; induction df as [|r t IH]; intros; simpl; [|rewrite IH];
    reflexivity.
Qed.

(** The frame that comes back has the rows that went in, in their order. *)
Lemma calculate_vwap_tick (df : list Tick) :
  map tick (calculate_vwap df) = df.
Proof.
  destruct df as [|r t]; [reflexivity|].
  rewrite calculate_vwap_cons; simpl. now rewrite rows_from_tick.
Qed.

Lemma rows_from_nth (df : list Tick) :
  forall (cv : N) (acc : float) (i : nat) (r : VwapRow),
    nth_error (rows_from cv acc df) i = Some r ->
    cumulative_volume r
    = fold_left N.add (map (fun t : Tick => size t) (firstn (S i) df)) cv
    /\ cumulative_volume_price r
       = (if is_nan (notional r) then PrimFloat.nan
          else fold_left PrimFloat.add
                 (map (fun t : Tick => nan_to_zero (notional t))
                      (firstn (S i) df))
                 acc)
    /\ vwap r = truediv (cumulative_volume_price r) (cumulative_volume r).
Proof.
  induction df as [|x t IH]; intros cv acc i r H.
  - destruct i; discriminate.
  - destruct i as [|i]; simpl in H.
    + injection H as <-. simpl. repeat split; reflexivity.
    + apply IH in H. exact H.
Qed.

(** Row [i] of [calculate_vwap df] holds the totals of rows [0..i] of [df],
    added up in row order, and their quotient. *)
Lemma calculate_vwap_nth (df : list Tick) (i : nat) (r : VwapRow) :
  nth_error (calculate_vwap df) i = Some r ->
  cumulative_volume r
  = total N.add 0%N (map (fun t : Tick => size t) (firstn (S i) df))
  /\ cumulative_volume_price r
     = (if is_nan (notional r) then PrimFloat.nan
        else total PrimFloat.add PrimFloat.zero
               (map (fun t : Tick => nan_to_zero (notional t))
                    (firstn (S i) df)))
  /\ vwap r = truediv (cumulative_volume_price r) (cumulative_volume r).
Proof.
  destruct df as [|x t]; [destruct i; discriminate|].
  rewrite calculate_vwap_cons.
  destruct i as [|i]; simpl nth_error; intros H.
  - injection H as <-. simpl. repeat split; reflexivity.
  - apply rows_from_nth in H. exact H.
Qed.

Section Invariant.

(** A property of the running totals that holds after the first row and
    is kept by every further row holds in every row of the frame.  The
    second total is the one [np.cumsum] holds, before NaN is put back. *)
Variable I : N -> float -> Prop.
Hypothesis first_row : forall t : Tick, I (size t) (nan_to_zero (notional t)).
Hypothesis next_row :
  forall cv acc (t : Tick),
    I cv acc ->
    I (cv + size t)%N (PrimFloat.add acc (nan_to_zero (notional t))).

Lemma rows_from_invariant (df : list Tick) :
  forall cv acc,
    I cv acc ->
    Forall (fun r : VwapRow =>
              exists acc',
                I (cumulative_volume r) acc'
                /\ cumulative_volume_price r
                   = if is_nan (notional r) then PrimFloat.nan else acc')
           (rows_from cv acc df).
Proof.
  induction df as [|t df IH]; intros cv acc HI; simpl.
  - constructor.
  - constructor.
    + cbn [cumulative_volume cumulative_volume_price tick].
      eexists. split; [apply next_row; exact HI | reflexivity].
    + apply IH. apply next_row; assumption.
Qed.

Lemma calculate_vwap_invariant (df : list Tick) :
  Forall (fun r : VwapRow =>
            exists acc',
              I (cumulative_volume r) acc'
              /\ cumulative_volume_price r
                 = if is_nan (notional r) then PrimFloat.nan else acc')
         (calculate_vwap df).
Proof.
  destruct df as [|t df]; [constructor|].
  rewrite calculate_vwap_cons. constructor.
  - cbn [cumulative_volume cumulative_volume_price tick].
    eexists. split; [apply first_row | reflexivity].
  - apply rows_from_invariant. apply first_row.
Qed.

End Invariant.

Lemma rows_from_columns (df : list Tick) :
  forall cv acc,
    Forall (fun r : VwapRow =>
              volume_price r = mul_size (price r) (size r)
              /\ vwap r
                 = truediv (cumulative_volume_price r) (cumulative_volume r))
           (rows_from cv acc df).
Proof.
  induction df as [|t df IH]; intros cv acc; simpl; constructor.
  - split; reflexivity.
  - apply IH.
Qed.

Lemma calculate_vwap_columns (df : list Tick) :
  Forall (fun r : VwapRow =>
            volume_price r = mul_size (price r) (size r)
            /\ vwap r
               = truediv (cumulative_volume_price r) (cumulative_volume r))
         (calculate_vwap df).
Proof.
  destruct df as [|t df]; [constructor|].
  rewrite calculate_vwap_cons. constructor.
  - split; reflexivity.
  - apply rows_from_columns.
Qed.

Lemma rows_from_sorted (df : list Tick) :
  forall cv acc,
    Sorted N.le (cv :: map cumulative_volume (rows_from cv acc df)).
Proof.
  induction df as [|t df IH]; intros cv acc; simpl.
  - repeat constructor.
  - constructor; [apply IH|]. constructor. lia.
Qed.

Lemma rows_from_last (df : list Tick) :
  forall cv acc,
    last (cv :: map cumulative_volume (rows_from cv acc df)) 0%N
    = fold_left N.add (map (fun t : Tick => size t) df) cv.
Proof.
  induction df as [|t df IH]; intros cv acc; [reflexivity|].
  cbn [rows_from map fold_left].
  rewrite <- (IH (cv + size t)%N
                 (PrimFloat.add acc (nan_to_zero (notional t)))).
  reflexivity.
Qed.

Lemma nan_to_zero_zero (x : float) : zero_or_nan x -> is_zero (nan_to_zero x).
Proof.
  unfold nan_to_zero. destruct (is_nan x) eqn:E; [intros _; exact Logic.I|].
  unfold zero_or_nan, is_zero. intros H.
  destruct (Prim2SF x) eqn:F; try contradiction; try exact Logic.I.
  assert (G : is_nan x = true) by (apply is_nan_spec; exact F). congruence.
Qed.

(** No volume, no notional: while the running volume is 0 the running
    notional is a zero or NaN. *)
Lemma zero_volume_zero_notional (df : list Tick) :
  Forall (fun r => cumulative_volume r = 0%N ->
                   zero_or_nan (cumulative_volume_price r))
         (calculate_vwap df).
Proof.
  pose proof (@calculate_vwap_invariant
                (fun cv acc => cv = 0%N -> is_zero acc)) as H.
  eapply Forall_impl; [|apply H].
  - intros r [acc [Hz E]] Hcv. rewrite E.
    destruct (is_nan (notional r)); [exact Logic.I|].
    specialize (Hz Hcv). unfold is_zero in Hz. unfold zero_or_nan.
    destruct (Prim2SF acc); try contradiction; exact Logic.I.
  - intros t Hs. apply nan_to_zero_zero. unfold notional. rewrite Hs.
    apply mul_size_0.
  - intros cv acc t IH Hs.
    assert (Hcv : cv = 0%N) by lia. assert (Hst : size t = 0%N) by lia.
    apply add_zeros; [apply IH, Hcv|].
    apply nan_to_zero_zero. unfold notional. rewrite Hst. apply mul_size_0.
Qed.

End VwapFacts.

Import VwapFacts.

(* ================================================================== *)
(** * Facts about maxima and minima of a column *)

Module ExtremaFacts.

Lemma fmax_cases (a b : float) : fmax a b = a \/ fmax a b = b.
Proof. unfold fmax; destruct (PrimFloat.ltb a b); auto. Qed.

Lemma fmin_cases (a b : float) : fmin a b = a \/ fmin a b = b.
Proof. unfold fmin; destruct (PrimFloat.ltb b a); auto. Qed.

Lemma fmax_le_l (a b : float) : number a -> number b -> fle a (fmax a b).
Proof.
  intros Ha Hb. unfold fmax; destruct (PrimFloat.ltb a b) eqn:E.
  - apply flt_iff in E. apply E.
  - apply fle_refl, Ha.
Qed.

Lemma fmax_le_r (a b : float) : number a -> number b -> fle b (fmax a b).
Proof.
  intros Ha Hb. unfold fmax; destruct (PrimFloat.ltb a b) eqn:E.
  - apply fle_refl, Hb.
  - apply not_flt_fle; assumption.
Qed.

Lemma fmin_le_l (a b : float) : number a -> number b -> fle (fmin a b) a.
Proof.
  intros Ha Hb. unfold fmin; destruct (PrimFloat.ltb b a) eqn:E.
  - apply flt_iff in E. apply E.
  - apply fle_refl, Ha.
Qed.

Lemma fmin_le_r (a b : float) : number a -> number b -> fle (fmin a b) b.
Proof.
  intros Ha Hb. unfold fmin; destruct (PrimFloat.ltb b a) eqn:E.
  - apply fle_refl, Hb.
  - apply not_flt_fle; assumption.
Qed.

Lemma fold_fmax_in (t : list float) :
  forall x, In (fold_left fmax t x) (x :: t).
Proof.
  induction t as [|y t IH]; intros x; simpl; [auto|].
  destruct (IH (fmax x y)) as [H|H]; [|right; right; exact H].
  destruct (fmax_cases x y) as [E|E].
  - left; congruence.
  - right; left; congruence.
Qed.

Lemma fold_fmin_in (t : list float) :
  forall x, In (fold_left fmin t x) (x :: t).
Proof.
  induction t as [|y t IH]; intros x; simpl; [auto|].
  destruct (IH (fmin x y)) as [H|H]; [|right; right; exact H].
  destruct (fmin_cases x y) as [E|E].
  - left; congruence.
  - right; left; congruence.
Qed.

Lemma fmax_number (a b : float) : number a -> number b -> number (fmax a b).
Proof. intros Ha Hb. destruct (fmax_cases a b) as [-> | ->]; assumption. Qed.

Lemma fmin_number (a b : float) : number a -> number b -> number (fmin a b).
Proof. intros Ha Hb. destruct (fmin_cases a b) as [-> | ->]; assumption. Qed.

Lemma fold_fmax_upper (t : list float) :
  forall x y,
    Forall number (x :: t) -> In y (x :: t) -> fle y (fold_left fmax t x).
Proof.
  induction t as [|z t IH]; intros x y Hn H; simpl.
  - destruct H as [<-|[]]. inversion Hn; subst. apply fle_refl. assumption.
  - inversion Hn as [|? ? Hx Hn']; subst. inversion Hn' as [|? ? Hz Ht]; subst.
    assert (Hn2 : Forall number (fmax x z :: t))
      by (constructor; [apply fmax_number; assumption | exact Ht]).
    destruct H as [<-|[<-|H]].
    + eapply fle_trans; [apply (fmax_le_l Hx Hz)|].
      apply IH; [exact Hn2 | left; reflexivity].
    + eapply fle_trans; [apply (fmax_le_r Hx Hz)|].
      apply IH; [exact Hn2 | left; reflexivity].
    + apply IH; [exact Hn2 | right; exact H].
Qed.

Lemma fold_fmin_lower (t : list float) :
  forall x y,
    Forall number (x :: t) -> In y (x :: t) -> fle (fold_left fmin t x) y.
Proof.
  induction t as [|z t IH]; intros x y Hn H; simpl.
  - destruct H as [<-|[]]. inversion Hn; subst. apply fle_refl. assumption.
  - inversion Hn as [|? ? Hx Hn']; subst. inversion Hn' as [|? ? Hz Ht]; subst.
    assert (Hn2 : Forall number (fmin x z :: t))
      by (constructor; [apply fmin_number; assumption | exact Ht]).
    destruct H as [<-|[<-|H]].
    + eapply fle_trans; [|apply (fmin_le_l Hx Hz)].
      apply IH; [exact Hn2 | left; reflexivity].
    + eapply fle_trans; [|apply (fmin_le_r Hx Hz)].
      apply IH; [exact Hn2 | left; reflexivity].
    + apply IH; [exact Hn2 | right; exact H].
Qed.

Lemma dropna_In (l : list float) (x : float) :
  In x (dropna l) <-> In x l /\ number x.
Proof.
  unfold dropna, number. rewrite filter_In, negb_true_iff. reflexivity.
Qed.

Lemma dropna_number (l : list float) : Forall number (dropna l).
Proof. apply Forall_forall. intros x Hx. apply dropna_In in Hx. apply Hx. Qed.

(** A column without a number has no maximum and no minimum. *)
Lemma series_max_nan (l : list float) :
  (forall x, In x l -> is_nan x = true) -> series_max l = PrimFloat.nan.
Proof.
  intros H. unfold series_max. destruct (dropna l) as [|x t] eqn:E.
  - reflexivity.
  - assert (Hx : In x (dropna l)) by (rewrite E; left; reflexivity).
    apply dropna_In in Hx. destruct Hx as [Hx Hn]. apply H in Hx.
    unfold number in Hn. congruence.
Qed.

Lemma series_min_nan (l : list float) :
  (forall x, In x l -> is_nan x = true) -> series_min l = PrimFloat.nan.
Proof.
  intros H. unfold series_min. destruct (dropna l) as [|x t] eqn:E.
  - reflexivity.
  - assert (Hx : In x (dropna l)) by (rewrite E; left; reflexivity).
    apply dropna_In in Hx. destruct Hx as [Hx Hn]. apply H in Hx.
    unfold number in Hn. congruence.
Qed.

(** The maximum and the minimum of a column that holds a number are
    numbers of the column. *)
Lemma series_max_attained (l : list float) (x : float) :
  In x l -> number x -> In (series_max l) l /\ number (series_max l).
Proof.
  intros Hx Hn. unfold series_max.
  assert (Hd : In x (dropna l)) by (apply dropna_In; split; assumption).
  destruct (dropna l) as [|a t] eqn:E; [destruct Hd|].
  assert (Hm : In (fold_left fmax t a) (dropna l))
    by (rewrite E; apply fold_fmax_in).
  apply dropna_In in Hm. exact Hm.
Qed.

Lemma series_min_attained (l : list float) (x : float) :
  In x l -> number x -> In (series_min l) l /\ number (series_min l).
Proof.
  intros Hx Hn. unfold series_min.
  assert (Hd : In x (dropna l)) by (apply dropna_In; split; assumption).
  destruct (dropna l) as [|a t] eqn:E; [destruct Hd|].
  assert (Hm : In (fold_left fmin t a) (dropna l))
    by (rewrite E; apply fold_fmin_in).
  apply dropna_In in Hm. exact Hm.
Qed.

(** No number of the column is above its maximum or below its minimum. *)
Lemma series_max_upper (l : list float) (x : float) :
  In x l -> number x -> fle x (series_max l).
Proof.
  intros Hx Hn. unfold series_max.
  assert (Hd : In x (dropna l)) by (apply dropna_In; split; assumption).
  pose proof (dropna_number l) as Hall.
  destruct (dropna l) as [|a t] eqn:E; [destruct Hd|].
  apply fold_fmax_upper; assumption.
Qed.

Lemma series_min_lower (l : list float) (x : float) :
  In x l -> number x -> fle (series_min l) x.
Proof.
  intros Hx Hn. unfold series_min.
  assert (Hd : In x (dropna l)) by (apply dropna_In; split; assumption).
  pose proof (dropna_number l) as Hall.
  destruct (dropna l) as [|a t] eqn:E; [destruct Hd|].
  apply fold_fmin_lower; assumption.
Qed.

(** An entry of a column compares equal to the column's maximum exactly
    when it is a number and no number of the column is above it. *)
Lemma eq_series_max (l : list float) (p : float) :
  In p l ->
  (float_eqb p (series_max l) = true
   <-> number p /\ forall x, In x l -> number x -> fle x p).
Proof.
  intros Hp. split.
  - intros E. apply feq_iff in E. destruct E as [E1 E2].
    split; [apply (fle_number E1)|].
    intros x Hx Hn. eapply fle_trans; [|exact E2].
    apply series_max_upper; assumption.
  - intros [Hn H]. apply feq_iff. split.
    + apply series_max_upper; assumption.
    + destruct (series_max_attained l Hp Hn) as [Hin Hnum].
      apply H; assumption.
Qed.

Lemma eq_series_min (l : list float) (p : float) :
  In p l ->
  (float_eqb p (series_min l) = true
   <-> number p /\ forall x, In x l -> number x -> fle p x).
Proof.
  intros Hp. split.
  - intros E. apply feq_iff in E. destruct E as [E1 E2].
    split; [apply (fle_number E1)|].
    intros x Hx Hn. eapply fle_trans; [exact E1|].
    apply series_min_lower; assumption.
  - intros [Hn H]. apply feq_iff. split.
    + destruct (series_min_attained l Hp Hn) as [Hin Hnum].
      apply H; assumption.
    + apply series_min_lower; assumption.
Qed.

End ExtremaFacts.

Import ExtremaFacts.


(* ================================================================== *)
(** * Facts about [groupby] *)

Module GroupFacts.

Lemma insert_key_perm (k : string) (l : list string) :
  Permutation (insert_key k l) (k :: l).
Proof.
  induction l as [|k' l IH]; simpl; [apply Permutation_refl|].
  destruct (String.leb k k').
  - apply Permutation_refl.
  - eapply perm_trans; [apply perm_skip, IH | apply perm_swap].
Qed.

Lemma group_keys_perm (keys : list string) :
  Permutation (group_keys keys) (nodup string_dec keys).
Proof.
  unfold group_keys.
  induction (nodup string_dec keys) as [|k l IH]; simpl.
  - apply perm_nil.
  - eapply perm_trans; [apply insert_key_perm | apply perm_skip, IH].
Qed.

(** There is a group for every key of the column, and only for those. *)
Lemma group_keys_In (keys : list string) (k : string) :
  In k (group_keys keys) <-> In k keys.
Proof.
  rewrite <- (nodup_In string_dec keys k). split; apply Permutation_in.
  - apply group_keys_perm.
  - apply Permutation_sym, group_keys_perm.
Qed.

(** No key has two groups. *)
Lemma group_keys_NoDup (keys : list string) : NoDup (group_keys keys).
Proof.
  eapply Permutation_NoDup.
  - apply Permutation_sym, group_keys_perm.
  - apply NoDup_nodup.
Qed.

End GroupFacts.

Import GroupFacts.

(* ================================================================== *)
(** * Facts about the flags *)

Module FlagFacts.

(** The prices of the rows of one hour. *)
Definition hour_prices (df : list Houred) (h : string) : list float :=
  map (fun r : Houred => price r)
      (filter (fun r : Houred => String.eqb (hour r) h) df).

Definition day_prices (df : list Houred) : list float :=
  map (fun r : Houred => price r) df.

(** The two masks of the loop body. *)
Definition hits_max (st : HourStat) (r : Houred) : bool :=
  String.eqb (hour r) (hs_hour st) && float_eqb (price r) (hs_max st).

Definition hits_min (st : HourStat) (r : Houred) : bool :=
  String.eqb (hour r) (hs_hour st) && float_eqb (price r) (hs_min st).

(** What the loop body does to one row. *)
Definition mark_row (r : Flagged) (st : HourStat) : Flagged :=
  {| houred := r;
     is_hourly_high := is_hourly_high r || hits_max st r;
     is_hourly_low := is_hourly_low r || hits_min st r;
     is_day_high := is_day_high r;
     is_day_low := is_day_low r |}.

Lemma mark_hour_map (df : list Flagged) (st : HourStat) :
  mark_hour df st = map (fun r => mark_row r st) df.
Proof.
  unfold mark_hour, loc_set_hourly_low, loc_set_hourly_high.
  rewrite map_map. apply map_ext. intros [h hh hl dh dl].
  unfold mark_row, hits_max, hits_min.
  cbn [houred is_hourly_high is_hourly_low is_day_high is_day_low].
  destruct (String.eqb (hour h) (hs_hour st)) eqn:E;
    destruct (float_eqb (price h) (hs_max st)) eqn:A;
    destruct (float_eqb (price h) (hs_min st)) eqn:B;
    cbn [houred is_hourly_high is_hourly_low is_day_high is_day_low andb];
    rewrite ?E, ?A, ?B;
    cbn [houred is_hourly_high is_hourly_low is_day_high is_day_low andb];
    rewrite ?orb_true_r, ?orb_false_r; reflexivity.
Qed.

Lemma mark_hours_map (stats : list HourStat) :
  forall df,
    mark_hours stats df = map (fun r => fold_left mark_row stats r) df.
Proof.
  unfold mark_hours.
  induction stats as [|st stats IH]; intros df; simpl.
  - symmetry. apply map_id.
  - rewrite IH, mark_hour_map, map_map. reflexivity.
Qed.

Lemma fold_mark_row (stats : list HourStat) :
  forall r : Flagged,
    fold_left mark_row stats r
    = {| houred := r;
         is_hourly_high :=
           is_hourly_high r || existsb (fun st => hits_max st r) stats;
         is_hourly_low :=
           is_hourly_low r || existsb (fun st => hits_min st r) stats;
         is_day_high := is_day_high r;
         is_day_low := is_day_low r |}.
Proof.
  induction stats as [|st stats IH]; intros [h hh hl dh dl]; simpl.
  - rewrite !orb_false_r. reflexivity.
  - rewrite IH. simpl. rewrite !orb_assoc. reflexivity.
Qed.

Lemma exists_hits_max (df : list Houred) (r : Houred) :
  In r df ->
  existsb (fun st => hits_max st r) (hourly_stats df)
  = float_eqb (price r) (series_max (hour_prices df (hour r))).
Proof.
  intros Hr. apply eq_true_iff_eq. rewrite existsb_exists. split.
  - intros [st [Hst Hhit]]. unfold hourly_stats in Hst.
    apply in_map_iff in Hst. destruct Hst as [k [<- _]].
    unfold hits_max in Hhit; simpl in Hhit.
    apply andb_true_iff in Hhit. destruct Hhit as [Hk Hm].
    apply String.eqb_eq in Hk. subst k. exact Hm.
  - intros Hm.
    exists {| hs_hour := hour r;
              hs_max := series_max (hour_prices df (hour r));
              hs_min := series_min (hour_prices df (hour r)) |}.
    split.
    + unfold hourly_stats.
      apply (in_map (fun h =>
               {| hs_hour := h;
                  hs_max := series_max (hour_prices df h);
                  hs_min := series_min (hour_prices df h) |})).
      apply group_keys_In. apply in_map. exact Hr.
    + unfold hits_max; simpl. rewrite String.eqb_refl. exact Hm.
Qed.

Lemma exists_hits_min (df : list Houred) (r : Houred) :
  In r df ->
  existsb (fun st => hits_min st r) (hourly_stats df)
  = float_eqb (price r) (series_min (hour_prices df (hour r))).
Proof.
  intros Hr. apply eq_true_iff_eq. rewrite existsb_exists. split.
  - intros [st [Hst Hhit]]. unfold hourly_stats in Hst.
    apply in_map_iff in Hst. destruct Hst as [k [<- _]].
    unfold hits_min in Hhit; simpl in Hhit.
    apply andb_true_iff in Hhit. destruct Hhit as [Hk Hm].
    apply String.eqb_eq in Hk. subst k. exact Hm.
  - intros Hm.
    exists {| hs_hour := hour r;
              hs_max := series_max (hour_prices df (hour r));
              hs_min := series_min (hour_prices df (hour r)) |}.
    split.
    + unfold hourly_stats.
      apply (in_map (fun h =>
               {| hs_hour := h;
                  hs_max := series_max (hour_prices df h);
                  hs_min := series_min (hour_prices df h) |})).
      apply group_keys_In. apply in_map. exact Hr.
    + unfold hits_min; simpl. rewrite String.eqb_refl. exact Hm.
Qed.

(** The frame after the loop, row by row: each flag is one comparison of
    the row's price with an aggregate of its hour or of the frame. *)
Definition flag_row (df : list Houred) (r : Houred) : Flagged :=
  {| houred := r;
     is_hourly_high :=
       float_eqb (price r) (series_max (hour_prices df (hour r)));
     is_hourly_low :=
       float_eqb (price r) (series_min (hour_prices df (hour r)));
     is_day_high := float_eqb (price r) (series_max (day_prices df));
     is_day_low := float_eqb (price r) (series_min (day_prices df)) |}.

Lemma classify_rows (df : list Houred) :
  classify df = map (flag_row df) df.
Proof.
  unfold classify. rewrite mark_hours_map. unfold init_flags.
  rewrite map_map. apply map_ext_in. intros r Hr.
  rewrite fold_mark_row. unfold flag_row; simpl.
  rewrite exists_hits_max, exists_hits_min by exact Hr. reflexivity.
Qed.

Lemma classify_houred (df : list Houred) : map houred (classify df) = df.
Proof.
  rewrite classify_rows, map_map. simpl. apply map_id.
Qed.

End FlagFacts.

Import FlagFacts.

(* ================================================================== *)
(** * Facts about the notes and about the frame as a whole *)

Module PipelineFacts.

Local Open Scope Z_scope.

(** The label left in [note] after the four assignments of lines 89-92:
    a later assignment overwrites an earlier one. *)
Definition last_label (r : Flagged) : string :=
  if is_day_low r then "DAY_LOW"
  else if is_day_high r then "DAY_HIGH"
  else if is_hourly_low r then "HOUR_LOW"
  else if is_hourly_high r then "HOUR_HIGH"
  else "".

Lemma add_note_rows (df : list Flagged) :
  add_note df = map (fun r => {| flagged := r; note := last_label r |}) df.
Proof.
  unfold add_note, loc_set_note. rewrite !map_map.
  apply map_ext. intros r. unfold last_label. simpl.
  destruct (is_hourly_high r); simpl;
    destruct (is_hourly_low r); simpl;
    destruct (is_day_high r); simpl;
    destruct (is_day_low r); reflexivity.
Qed.

Lemma add_note_flagged (df : list Flagged) : map flagged (add_note df) = df.
Proof. rewrite add_note_rows, map_map. simpl. apply map_id. Qed.

Lemma add_hour_row (df : list VwapRow) : map row (add_hour df) = df.
Proof. unfold add_hour. rewrite map_map. simpl. apply map_id. Qed.

(** The exported frame has the rows of the normalized frame, in their
    order; the later stages only add columns. *)
Lemma enrich_rows (env : Env) (start_ts end_ts : Z) (df : list VwapRow) :
  map (fun r : Noted => row r) (enrich env start_ts end_ts df)
  = normalize env start_ts end_ts df.
Proof.
  unfold enrich.
  rewrite <- (map_map flagged (fun r : Flagged => row r)), add_note_flagged.
  rewrite <- (map_map houred row), classify_houred.
  apply add_hour_row.
Qed.

Lemma enrich_flagged (env : Env) (start_ts end_ts : Z) (df : list VwapRow) :
  map flagged (enrich env start_ts end_ts df)
  = classify (add_hour (normalize env start_ts end_ts df)).
Proof. unfold enrich. apply add_note_flagged. Qed.

Lemma enrich_houred (env : Env) (start_ts end_ts : Z) (df : list VwapRow) :
  map (fun r : Noted => houred r) (enrich env start_ts end_ts df)
  = add_hour (normalize env start_ts end_ts df).
Proof.
  rewrite <- (map_map flagged houred), enrich_flagged.
  apply classify_houred.
Qed.

Lemma normalize_perm (env : Env) (start_ts end_ts : Z) (df : list VwapRow) :
  Permutation (normalize env start_ts end_ts df)
              (filter (in_range start_ts end_ts) df).
Proof. unfold normalize. apply sort_values_perm. Qed.

Lemma normalize_sorted (env : Env) (start_ts end_ts : Z)
      (df : list VwapRow) :
  Sorted Z.le
         (map (fun r : VwapRow => ts_event r)
              (normalize env start_ts end_ts df)).
Proof. unfold normalize. apply sort_values_sorted. Qed.

Lemma in_range_spec (start_ts end_ts : Z) (r : VwapRow) :
  in_range start_ts end_ts r = true
  <-> start_ts <= ts_event r <= end_ts.
Proof. unfold in_range. rewrite andb_true_iff, !Z.leb_le. tauto. Qed.

Lemma out_of_range_spec (start_ts end_ts : Z) (r : VwapRow) :
  in_range start_ts end_ts r = false
  <-> ts_event r < start_ts \/ end_ts < ts_event r.
Proof. unfold in_range. rewrite andb_false_iff, !Z.leb_gt. tauto. Qed.

(** A frame splits into the rows of a mask and the other rows. *)
Lemma filter_split (A : Type) (mask : A -> bool) (df : list A) :
  Permutation df
              (filter mask df ++ filter (fun r => negb (mask r)) df).
Proof.
  induction df as [|r df IH]; simpl; [apply perm_nil|].
  destruct (mask r); simpl.
  - apply perm_skip, IH.
  - apply Permutation_cons_app, IH.
Qed.

(** The rows of [calculate_vwap] on the fetched trades: row [j] is trade
    [j] with the average over the trades [0..j] of the fetch. *)
Lemma vwap_of_fetched (env : Env) (trades : list Trade) (j : nat)
      (r : VwapRow) :
  nth_error (calculate_vwap (add_ts_event_et env trades)) j = Some r ->
  nth_error trades j = Some (trade r) /\ Some (vwap r) = vwap_at trades j.
Proof.
  intros H.
  assert (Ht : nth_error trades j = Some (trade r)).
  { pose proof (calculate_vwap_tick (add_ts_event_et env trades)) as E.
    apply (map_nth_error tick) in H. rewrite E in H.
    unfold add_ts_event_et in H.
    rewrite nth_error_map in H.
    destruct (nth_error trades j) as [t|]; [|discriminate].
    simpl in H. injection H as H. rewrite <- H. reflexivity. }
  split; [exact Ht|].
  apply calculate_vwap_nth in H. destruct H as [Hv [Hp Hq]].
  unfold vwap_at. rewrite Ht, Hq, Hv, Hp.
  unfold notional_upto, volume_upto, add_ts_event_et.
  rewrite !firstn_map, !map_map. reflexivity.
Qed.

Lemma series_sum_cons (x : N) (l : list N) :
  series_sum (x :: l) = (x + series_sum l)%N.
Proof.
  unfold series_sum; simpl.
  assert (G : forall l a b, fold_left N.add l (a + b)%N
                            = (a + fold_left N.add l b)%N).
  { clear. induction l as [|y l IH]; intros a b; simpl; [reflexivity|].
    rewrite <- N.add_assoc. apply IH. }
  rewrite <- (N.add_0_r x) at 1. apply G.
Qed.

Lemma filter_none (A : Type) (mask : A -> bool) (df : list A) :
  (forall r, In r df -> mask r = false) -> filter mask df = [].
Proof.
  induction df as [|r df IH]; intros H; [reflexivity|]. simpl.
  rewrite (H r (or_introl eq_refl)). apply IH.
  intros r' Hr'. apply H. right; exact Hr'.
Qed.

Lemma fetched_frame_trades (env : Env) (trades : list Trade) :
  map (fun r : VwapRow => trade r) (fetched_frame env trades) = trades.
Proof.
  unfold fetched_frame.
  rewrite <- (map_map tick (fun t : Tick => trade t)), calculate_vwap_tick.
  unfold add_ts_event_et. rewrite map_map. cbn [trade]. apply map_id.
Qed.

(** The report on an empty frame. *)
Definition empty_report : Report :=
  {| frame := [];
     csv := [];
     hourly_summary := [];
     day_high := PrimFloat.nan;
     day_low := PrimFloat.nan;
     total_volume := 0;
     volume_by_minute := [];
     chart := {| trade_price := [];
                 vwap_line := [];
                 hourly_high_markers := [];
                 hourly_low_markers := [];
                 day_high_markers := [];
                 day_low_markers := [];
                 volume_bars := [] |} |}.

Lemma chart_trades_empty (env : Env) (start_ts end_ts : Z)
      (df : list VwapRow) :
  (forall r, In r df -> in_range start_ts end_ts r = false) ->
  chart_trades env start_ts end_ts df = empty_report.
Proof.
  intros H. unfold chart_trades, normalize.
  rewrite (filter_none _ _ H), sort_values_nil. reflexivity.
Qed.

Lemma series_sum_perm (l l' : list N) :
  Permutation l l' -> series_sum l = series_sum l'.
Proof.
  induction 1 as [|x l l' _ IH|x y l|l l' l'' _ IH1 _ IH2].
  - reflexivity.
  - rewrite !series_sum_cons, IH. reflexivity.
  - rewrite !series_sum_cons. lia.
  - congruence.
Qed.

(** Closing steps of the case analysis on the four flags. *)
Ltac flag_case := intros; first [reflexivity | discriminate].

Ltac one_of_the_labels :=
  cbn [In];
  first [ left; reflexivity
        | right; left; reflexivity
        | right; right; left; reflexivity
        | right; right; right; left; reflexivity
        | right; right; right; right; left; reflexivity ].

End PipelineFacts.

Import PipelineFacts.

(* ================================================================== *)
(** * Facts about the volume per minute *)

Module VolumeFacts.

Local Open Scope N_scope.

(** The volume of the rows of one minute. *)
Definition minute_volume (df : list Noted) (k : string) : N :=
  series_sum
    (map (fun r : Noted => size r)
         (filter (fun r => String.eqb (minute r) k) df)).

Lemma sum_pointwise (A : Type) (f g : A -> N) (l : list A) :
  series_sum (map (fun k => f k + g k) l)
  = series_sum (map f l) + series_sum (map g l).
Proof.
  induction l as [|k l IH]; simpl map; [reflexivity|].
  rewrite !series_sum_cons, IH. lia.
Qed.

Lemma sum_zero (A : Type) (l : list A) :
  series_sum (map (fun _ => 0) l) = 0.
Proof.
  induction l as [|k l IH]; simpl map; [reflexivity|].
  rewrite series_sum_cons, IH. reflexivity.
Qed.

(** A row counts in the group of its own minute and in no other. *)
Lemma sum_own_group (keys : list string) (a : string) (v : N) :
  NoDup keys ->
  series_sum (map (fun k => if String.eqb a k then v else 0) keys)
  = if in_dec string_dec a keys then v else 0.
Proof.
  induction 1 as [|k keys Hk Hnd IH]; simpl map; [reflexivity|].
  rewrite series_sum_cons, IH.
  destruct (String.eqb_spec a k) as [->|Hne].
  - destruct (in_dec string_dec k keys) as [Hin|_]; [contradiction|].
    destruct (in_dec string_dec k (k :: keys)) as [_|Hn]; [lia|].
    exfalso; apply Hn; left; reflexivity.
  - destruct (in_dec string_dec a keys) as [Hin|Hn];
      destruct (in_dec string_dec a (k :: keys)) as [Hin'|Hn']; try lia.
    + exfalso; apply Hn'; right; exact Hin.
    + destruct Hin' as [E|Hin']; [congruence | contradiction].
Qed.

Lemma minute_volumes_total (keys : list string) (df : list Noted) :
  NoDup keys ->
  (forall r, In r df -> In (minute r) keys) ->
  series_sum (map (minute_volume df) keys)
  = series_sum (map (fun r : Noted => size r) df).
Proof.
  intros Hnd. induction df as [|x df IH]; intros Hin.
  - unfold minute_volume; cbn [filter map]. apply sum_zero.
  - cbn [map]. rewrite series_sum_cons, <- IH.
    2:{ intros r Hr. apply Hin. right; exact Hr. }
    assert (Hx : In (minute x) keys) by (apply Hin; left; reflexivity).
    pose proof (sum_own_group (minute x) (size x) Hnd) as E.
    destruct (in_dec string_dec (minute x) keys) as [_|Hn];
      [|contradiction].
    rewrite <- E, <- sum_pointwise. f_equal. apply map_ext. intros k.
    unfold minute_volume. cbn [filter].
    destruct (String.eqb (minute x) k); cbn [map];
      [rewrite series_sum_cons|]; reflexivity.
Qed.

(** Summing by minute loses no volume. *)
Lemma group_volume_total (df : list Noted) :
  series_sum (map snd (group_volume df))
  = series_sum (map (fun r : Noted => size r) df).
Proof.
  unfold group_volume. rewrite map_map. cbn [snd].
  apply (minute_volumes_total (keys := group_keys (map minute df))).
  - apply group_keys_NoDup.
  - intros r Hr. apply group_keys_In. apply in_map. exact Hr.
Qed.

(** The groups are the minutes that occur, each once. *)
Lemma group_volume_keys (df : list Noted) :
  NoDup (map fst (group_volume df))
  /\ forall k, In k (map fst (group_volume df)) <-> In k (map minute df).
Proof.
  unfold group_volume. rewrite map_map. cbn [fst]. rewrite map_id. split.
  - apply group_keys_NoDup.
  - intros k. apply group_keys_In.
Qed.

End VolumeFacts.

Import VolumeFacts.


(* ================================================================== *)
(** * The flags of the exported frame *)

Module FrameFacts.

Section HourFrame.

Variable df : list Houred.
Variable h : Houred.
Hypothesis h_in : In h df.

Lemma own_hour_price : In (price h) (hour_prices df (hour h)).
Proof.
  unfold hour_prices.
  apply (in_map (fun r : Houred => price r)).
  apply filter_In. split; [exact h_in | apply String.eqb_refl].
Qed.

Lemma own_day_price : In (price h) (day_prices df).
Proof.
  unfold day_prices. apply (in_map (fun r : Houred => price r)).
  exact h_in.
Qed.

Lemma hour_prices_all (P : float -> Prop) :
  (forall x, In x (hour_prices df (hour h)) -> P x)
  <-> (forall h', In h' df -> hour h' = hour h -> P (price h')).
Proof.
  unfold hour_prices. split.
  - intros H h' Hin Hh. apply H.
    apply (in_map (fun r : Houred => price r)).
    apply filter_In. split; [exact Hin | apply String.eqb_eq, Hh].
  - intros H x Hx. apply in_map_iff in Hx.
    destruct Hx as [h' [<- Hh']]. apply filter_In in Hh'.
    destruct Hh' as [Hin Hh]. apply H; [exact Hin|].
    apply String.eqb_eq, Hh.
Qed.

Lemma day_prices_all (P : float -> Prop) :
  (forall x, In x (day_prices df) -> P x)
  <-> (forall h', In h' df -> P (price h')).
Proof.
  unfold day_prices. split.
  - intros H h' Hin. apply H.
    apply (in_map (fun r : Houred => price r)). exact Hin.
  - intros H x Hx. apply in_map_iff in Hx.
    destruct Hx as [h' [<- Hh']]. apply H, Hh'.
Qed.

(** The four flags of a row of the frame, read as statements on the
    prices of its hour and of the whole frame: the price is a number, and
    no price that is a number is beyond it. *)
Lemma flag_row_spec :
  (is_hourly_high (flag_row df h) = true
   <-> number (price h)
       /\ forall h', In h' df -> hour h' = hour h ->
                     number (price h') -> fle (price h') (price h))
  /\ (is_hourly_low (flag_row df h) = true
      <-> number (price h)
          /\ forall h', In h' df -> hour h' = hour h ->
                        number (price h') -> fle (price h) (price h'))
  /\ (is_day_high (flag_row df h) = true
      <-> number (price h)
          /\ forall h', In h' df ->
                        number (price h') -> fle (price h') (price h))
  /\ (is_day_low (flag_row df h) = true
      <-> number (price h)
          /\ forall h', In h' df ->
                        number (price h') -> fle (price h) (price h')).
Proof.
  cbn [flag_row is_hourly_high is_hourly_low is_day_high is_day_low].
  rewrite (eq_series_max _ _ own_hour_price),
    (eq_series_min _ _ own_hour_price),
    (eq_series_max _ _ own_day_price), (eq_series_min _ _ own_day_price).
  rewrite (hour_prices_all (fun x => number x -> fle x (price h))).
  rewrite (hour_prices_all (fun x => number x -> fle (price h) x)).
  rewrite (day_prices_all (fun x => number x -> fle x (price h))).
  rewrite (day_prices_all (fun x => number x -> fle (price h) x)).
  split; [reflexivity|]. split; [reflexivity|]. split; reflexivity.
Qed.

End HourFrame.

Section Exported.

Variable env : Env.
Variables start_ts end_ts : Z.
Variable df : list VwapRow.

Let sorted : list Houred := add_hour (normalize env start_ts end_ts df).
Let out : list Noted := enrich env start_ts end_ts df.

(** A row of the exported frame is a row of the sorted frame with its
    flags and its note. *)
Lemma exported_row (r : Noted) :
  In r out ->
  In (houred r) sorted
  /\ flagged r = flag_row sorted (houred r)
  /\ note r = last_label r.
Proof.
  unfold out, enrich. rewrite add_note_rows, classify_rows.
  intros H. apply in_map_iff in H. destruct H as [f [<- Hf]].
  apply in_map_iff in Hf. destruct Hf as [h [<- Hh]].
  cbn [flagged houred note flag_row]. repeat split. exact Hh.
Qed.

Lemma sorted_row (h : Houred) :
  In h sorted <-> exists r, In r out /\ houred r = h.
Proof.
  unfold sorted, out.
  rewrite <- (enrich_houred env start_ts end_ts df) at 1.
  rewrite in_map_iff. split.
  - intros [r [E Hr]]. exists r. split; [exact Hr | exact E].
  - intros [r [Hr E]]. exists r. split; [exact E | exact Hr].
Qed.

Lemma sorted_all (P : Houred -> Prop) :
  (forall h, In h sorted -> P h)
  <-> (forall r : Noted, In r out -> P r).
Proof.
  split.
  - intros H r Hr. apply H. apply sorted_row. exists r.
    split; [exact Hr | reflexivity].
  - intros H h Hh. apply sorted_row in Hh. destruct Hh as [r [Hr <-]].
    apply H, Hr.
Qed.

(** The four flags of a row of the exported frame, read on the exported
    frame itself. *)
Lemma exported_flags (r : Noted) :
  In r out ->
  (is_hourly_high r = true
   <-> number (price r)
       /\ forall r' : Noted,
            In r' out -> hour r' = hour r ->
            number (price r') -> fle (price r') (price r))
  /\ (is_hourly_low r = true
      <-> number (price r)
          /\ forall r' : Noted,
               In r' out -> hour r' = hour r ->
               number (price r') -> fle (price r) (price r'))
  /\ (is_day_high r = true
      <-> number (price r)
          /\ forall r' : Noted,
               In r' out -> number (price r') -> fle (price r') (price r))
  /\ (is_day_low r = true
      <-> number (price r)
          /\ forall r' : Noted,
               In r' out -> number (price r') -> fle (price r) (price r')).
Proof.
  intros Hr. destruct (@exported_row r Hr) as [Hh [Hf _]].
  destruct (@flag_row_spec sorted r Hh) as [HH [HL [DH DL]]].
  rewrite <- Hf in HH, HL, DH, DL.
  rewrite HH, HL, DH, DL.
  rewrite (sorted_all
             (fun h' => hour h' = hour r ->
                        number (price h') -> fle (price h') (price r))).
  rewrite (sorted_all
             (fun h' => hour h' = hour r ->
                        number (price h') -> fle (price r) (price h'))).
  rewrite (sorted_all
             (fun h' => number (price h') -> fle (price h') (price r))).
  rewrite (sorted_all
             (fun h' => number (price h') -> fle (price r) (price h'))).
  split; [reflexivity|]. split; [reflexivity|]. split; reflexivity.
Qed.

End Exported.

End FrameFacts.

Import FrameFacts.

(* ================================================================== *)
(** * The exported frame and the fetched batch *)

Module BatchFacts.

Local Open Scope Z_scope.

(** The positions of the rows of a mask, in ascending order. *)
Fixpoint positions_from (A : Type) (mask : A -> bool) (i : nat) (l : list A)
  : list nat :=
  match l with
  | [] => []
  | x :: t =>
      if mask x then i :: positions_from mask (S i) t
      else positions_from mask (S i) t
  end.

Definition positions (A : Type) (mask : A -> bool) (l : list A) : list nat :=
  positions_from mask 0 l.

Lemma take_cons (A : Type) (df : list A) (i : nat) (idx : list nat) :
  take df (i :: idx)
  = match nth_error df i with Some r => r :: take df idx | None => take df idx
    end.
Proof. unfold take; simpl. destruct (nth_error df i); reflexivity. Qed.

Lemma positions_from_bound (A : Type) (mask : A -> bool) (l : list A) :
  forall i,
    Forall (fun j => (i <= j < i + length l)%nat) (positions_from mask i l).
Proof.
  induction l as [|x t IH]; intros i; simpl; [constructor|].
  assert (H : Forall (fun j => (i <= j < i + S (length t))%nat)
                     (positions_from mask (S i) t)).
  { eapply Forall_impl; [|apply (IH (S i))]. simpl. intros j Hj. lia. }
  destruct (mask x); [constructor; [lia | exact H] | exact H].
Qed.

Lemma filter_take_from (A : Type) (mask : A -> bool) (l : list A) :
  forall pre,
    take (pre ++ l) (positions_from mask (length pre) l) = filter mask l.
Proof.
  induction l as [|x t IH]; intros pre; simpl; [reflexivity|].
  specialize (IH (pre ++ [x])).
  rewrite <- app_assoc, length_app in IH; simpl in IH.
  rewrite Nat.add_1_r in IH.
  destruct (mask x); [|exact IH].
  rewrite take_cons, nth_error_app2 by lia.
  rewrite Nat.sub_diag; simpl. f_equal. exact IH.
Qed.

(** [df[mask]] holds the rows at the positions of the mask. *)
Lemma filter_take (A : Type) (mask : A -> bool) (l : list A) :
  filter mask l = take l (positions mask l).
Proof. symmetry. exact (filter_take_from mask l []). Qed.

Lemma positions_bound (A : Type) (mask : A -> bool) (l : list A) :
  Forall (fun j => (j < length l)%nat) (positions mask l).
Proof.
  eapply Forall_impl; [|apply (positions_from_bound mask l 0)].
  simpl. intros j Hj. lia.
Qed.

Lemma positions_from_map (A B : Type) (g : A -> B) (mask : B -> bool)
      (l : list A) :
  forall i,
    positions_from (fun x => mask (g x)) i l
    = positions_from mask i (map g l).
Proof.
  induction l as [|x t IH]; intros i; simpl; [reflexivity|].
  rewrite IH. reflexivity.
Qed.

Lemma nth_error_take (A : Type) (df : list A) (js : list nat) :
  Forall (fun j => (j < length df)%nat) js ->
  forall i,
    nth_error (take df js) i
    = match nth_error js i with
      | Some j => nth_error df j
      | None => None
      end.
Proof.
  induction 1 as [|j js Hj _ IH]; intros i.
  - destruct i; reflexivity.
  - rewrite take_cons.
    destruct (nth_error df j) as [r|] eqn:E.
    + destruct i as [|i]; simpl; [symmetry; exact E | apply IH].
    + apply nth_error_None in E. lia.
Qed.

Lemma take_length (A : Type) (df : list A) (js : list nat) :
  Forall (fun j => (j < length df)%nat) js ->
  length (take df js) = length js.
Proof.
  induction 1 as [|j js Hj _ IH]; [reflexivity|].
  rewrite take_cons.
  destruct (nth_error df j) as [r|] eqn:E.
  - simpl. rewrite IH. reflexivity.
  - apply nth_error_None in E. lia.
Qed.

(** Taking from what was taken is taking at the positions taken. *)
Lemma take_take (A : Type) (df : list A) (js idx : list nat) :
  Forall (fun j => (j < length df)%nat) js ->
  take (take df js) idx = take df (take js idx).
Proof.
  intros Hjs. induction idx as [|i idx IH]; [reflexivity|].
  rewrite !take_cons, (@nth_error_take _ _ _ Hjs).
  destruct (nth_error js i) as [j|] eqn:E.
  - rewrite take_cons.
    destruct (nth_error df j) as [r|]; rewrite IH; reflexivity.
  - exact IH.
Qed.

Lemma take_rows (A : Type) (df : list A) (js : list nat) :
  Forall (fun j => (j < length df)%nat) js ->
  Forall2 (fun r j => nth_error df j = Some r) (take df js) js.
Proof.
  induction 1 as [|j js Hj _ IH]; [constructor|].
  rewrite take_cons.
  destruct (nth_error df j) as [r|] eqn:E.
  - constructor; [exact E | exact IH].
  - apply nth_error_None in E. lia.
Qed.

Lemma Forall2_map_l (A B C : Type) (f : A -> B) (R : B -> C -> Prop)
      (l : list A) :
  forall js,
    Forall2 R (map f l) js -> Forall2 (fun a j => R (f a) j) l js.
Proof.
  induction l as [|a l IH]; intros js F; inversion F; subst; constructor.
  - assumption.
  - apply IH. assumption.
Qed.

Section Batch.

Variable env : Env.
Variables start_ts end_ts : Z.

(** The tick is within the range, bounds included. *)
Definition within (t : Trade) : bool :=
  (start_ts <=? ts_event t) && (ts_event t <=? end_ts).

(** The hour and the minute of a tick: those of its time in New York. *)
Definition hour_of (t : Trade) : string :=
  strftime_hour (tz_convert (new_york env) (ts_event t)).

Definition minute_of (t : Trade) : string :=
  strftime_minute (tz_convert (new_york env) (ts_event t)).

Variable trades : list Trade.

Let df : list VwapRow := fetched_frame env trades.
Let out : list Noted := enrich env start_ts end_ts df.

Lemma fetched_row (v : VwapRow) :
  In v df ->
  In (trade v) trades
  /\ ts_event_et v = tz_convert (new_york env) (ts_event v).
Proof.
  intros H. apply (in_map tick) in H.
  unfold df, fetched_frame in H. rewrite calculate_vwap_tick in H.
  unfold add_ts_event_et in H. apply in_map_iff in H.
  destruct H as [t [E Ht]]. rewrite <- E. split; [exact Ht | reflexivity].
Qed.

Lemma filter_in_range :
  map (fun v : VwapRow => trade v) (filter (in_range start_ts end_ts) df)
  = filter within trades.
Proof.
  rewrite <- (fetched_frame_trades env trades). fold df.
  generalize df. intros l0.
  induction l0 as [|v l IH]; [reflexivity|]. cbn [filter map].
  change (within (trade v)) with (in_range start_ts end_ts v).
  destruct (in_range start_ts end_ts v); cbn [map]; rewrite IH; reflexivity.
Qed.

(** The ticks of the exported frame are the ticks of the batch that are
    within the range, each as often as the batch has it. *)
Lemma exported_ticks :
  Permutation (map (fun r : Noted => trade r) out) (filter within trades).
Proof.
  rewrite <- filter_in_range.
  rewrite <- (map_map (fun r : Noted => row r) (fun v : VwapRow => trade v)).
  unfold out. rewrite enrich_rows.
  apply Permutation_map, normalize_perm.
Qed.

Lemma exported_from_batch (r : Noted) :
  In r out ->
  In (trade r) trades /\ within r = true
  /\ ts_event_et r = tz_convert (new_york env) (ts_event r)
  /\ hour r = hour_of r.
Proof.
  intros Hr.
  destruct (@exported_row env start_ts end_ts df r Hr) as [Hh _].
  unfold add_hour in Hh. apply in_map_iff in Hh.
  destruct Hh as [v [E Hv]].
  apply (Permutation_in _ (normalize_perm env start_ts end_ts df)) in Hv.
  apply filter_In in Hv. destruct Hv as [Hv Hin].
  destruct (fetched_row v Hv) as [Ht Het].
  assert (Ev : row r = v) by (rewrite <- E; reflexivity).
  assert (Eh : hour r = strftime_hour (ts_event_et v))
    by (rewrite <- E; reflexivity).
  rewrite Eh. unfold hour_of. rewrite Ev. repeat split; try assumption.
  rewrite Het. reflexivity.
Qed.

(** A statement about every tick of the batch within the range is a
    statement about every row of the exported frame. *)
Lemma exported_all (P : Trade -> Prop) :
  (forall r : Noted, In r out -> P r)
  <-> (forall t, In t trades -> within t = true -> P t).
Proof.
  split.
  - intros H t Ht Hw.
    assert (Hin : In t (filter within trades))
      by (apply filter_In; split; assumption).
    apply (Permutation_in _ (Permutation_sym exported_ticks)) in Hin.
    apply in_map_iff in Hin. destruct Hin as [r [<- Hr]]. apply H, Hr.
  - intros H r Hr. destruct (exported_from_batch r Hr) as [Ht [Hw _]].
    apply H; assumption.
Qed.

Lemma exported_hour_all (h : string) (P : Trade -> Prop) :
  (forall r : Noted, In r out -> hour r = h -> P r)
  <-> (forall t, In t trades -> within t = true -> hour_of t = h -> P t).
Proof.
  rewrite <- (exported_all (fun t => hour_of t = h -> P t)).
  split; intros H r Hr E; apply (H r Hr);
    destruct (exported_from_batch r Hr) as [_ [_ [_ Eh]]]; congruence.
Qed.

(** The four flags of a row of the exported frame, read on the fetched
    batch. *)
Lemma exported_flags_of_batch (r : Noted) :
  In r out ->
  (is_hourly_high r = true
   <-> number (price r)
       /\ forall t, In t trades -> within t = true ->
                    hour_of t = hour_of r ->
                    number (price t) -> fle (price t) (price r))
  /\ (is_hourly_low r = true
      <-> number (price r)
          /\ forall t, In t trades -> within t = true ->
                       hour_of t = hour_of r ->
                       number (price t) -> fle (price r) (price t))
  /\ (is_day_high r = true
      <-> number (price r)
          /\ forall t, In t trades -> within t = true ->
                       number (price t) -> fle (price t) (price r))
  /\ (is_day_low r = true
      <-> number (price r)
          /\ forall t, In t trades -> within t = true ->
                       number (price t) -> fle (price r) (price t)).
Proof.
  intros Hr.
  destruct (exported_flags env start_ts end_ts df r Hr)
    as [HH [HL [DH DL]]].
  destruct (exported_from_batch r Hr) as [_ [_ [_ Eh]]].
  rewrite <- Eh.
  pose proof (exported_hour_all (hour r)
                (fun t => number (price t) -> fle (price t) (price r))) as A1.
  pose proof (exported_hour_all (hour r)
                (fun t => number (price t) -> fle (price r) (price t))) as A2.
  pose proof (exported_all
                (fun t => number (price t) -> fle (price t) (price r))) as A3.
  pose proof (exported_all
                (fun t => number (price t) -> fle (price r) (price t))) as A4.
  cbv beta in A1, A2, A3, A4.
  split; [|split; [|split]].
  - etransitivity; [exact HH|].
    split; intros [Hn H]; (split; [exact Hn|]);
      [apply (proj1 A1) | apply (proj2 A1)]; exact H.
  - etransitivity; [exact HL|].
    split; intros [Hn H]; (split; [exact Hn|]);
      [apply (proj1 A2) | apply (proj2 A2)]; exact H.
  - etransitivity; [exact DH|].
    split; intros [Hn H]; (split; [exact Hn|]);
      [apply (proj1 A3) | apply (proj2 A3)]; exact H.
  - etransitivity; [exact DL|].
    split; intros [Hn H]; (split; [exact Hn|]);
      [apply (proj1 A4) | apply (proj2 A4)]; exact H.
Qed.

(** The positions in the fetched batch of the rows of the exported frame,
    in the order of the exported frame: the positions of the ticks within
    the range, rearranged as the sort rearranges these ticks. *)
Definition fetch_positions : list nat :=
  take (positions within trades)
       (argsort (quicksort env)
                (map (fun t : Trade => ts_event t) (filter within trades))).

Lemma filter_keys :
  map (fun r : VwapRow => ts_event r) (filter (in_range start_ts end_ts) df)
  = map (fun t : Trade => ts_event t) (filter within trades).
Proof.
  rewrite <- filter_in_range, map_map. reflexivity.
Qed.

Lemma positions_in_range :
  positions (in_range start_ts end_ts) df = positions within trades.
Proof.
  unfold positions. rewrite <- (fetched_frame_trades env trades). fold df.
  apply (positions_from_map (fun v : VwapRow => trade v) within).
Qed.

Lemma filter_length :
  length (filter within trades) = length (positions within trades).
Proof. rewrite filter_take. apply take_length, positions_bound. Qed.

(** The exported frame holds the rows of the fetched frame at these
    positions. *)
Lemma exported_positions :
  Permutation fetch_positions (positions within trades)
  /\ Forall2 (fun (r : Noted) j => nth_error df j = Some (row r))
             out fetch_positions.
Proof.
  unfold fetch_positions.
  set (ps := positions within trades).
  set (idx := argsort (quicksort env)
                      (map (fun t : Trade => ts_event t)
                           (filter within trades))).
  assert (Hps : Forall (fun j => (j < length df)%nat) ps).
  { unfold ps. rewrite <- positions_in_range. apply positions_bound. }
  assert (Hidx : Permutation idx (seq 0 (length ps))).
  { unfold idx, ps. rewrite <- filter_length.
    rewrite <- (length_map (fun t : Trade => ts_event t)).
    apply argsort_perm. }
  split; [apply take_perm, Hidx|].
  assert (Hjs : Forall (fun j => (j < length df)%nat) (take ps idx)).
  { apply Forall_forall. intros j Hj.
    apply (Permutation_in _ (@take_perm _ ps idx Hidx)) in Hj.
    exact (proj1 (Forall_forall _ _) Hps j Hj). }
  pose proof (enrich_rows env start_ts end_ts df) as E. fold out in E.
  assert (N : normalize env start_ts end_ts df = take df (take ps idx)).
  { unfold normalize, sort_values. rewrite filter_keys. fold idx.
    rewrite filter_take, positions_in_range. fold ps.
    apply take_take, Hps. }
  rewrite N in E. pose proof (@take_rows _ _ _ Hjs) as F. rewrite <- E in F.
  apply Forall2_map_l in F. exact F.
Qed.

End Batch.

(** ** Ticks of the same instant *)

Definition ts_event_at (trades : list Trade) (j : nat) : Z :=
  match nth_error trades j with
  | Some t => ts_event t
  | None => 0
  end.

(** The tick at position [j1] of the batch goes before the tick at [j2] in
    a stable sort of the batch by [ts_event]. *)
Definition in_fetch_order (trades : list Trade) (j1 j2 : nat) : Prop :=
  ts_event_at trades j1 < ts_event_at trades j2
  \/ (ts_event_at trades j1 = ts_event_at trades j2 /\ (j1 < j2)%nat).

Lemma positions_from_ascending (A : Type) (mask : A -> bool) (l : list A) :
  forall i, StronglySorted lt (positions_from mask i l).
Proof.
  induction l as [|x t IH]; intros i; simpl; [constructor|].
  destruct (mask x); [|apply IH].
  constructor; [apply IH|].
  eapply Forall_impl; [|apply (positions_from_bound mask t (S i))].
  simpl. intros j Hj. lia.
Qed.

Lemma ascending_nth (l : list nat) :
  StronglySorted lt l ->
  forall x y, (x < y)%nat -> (y < length l)%nat ->
              (nth x l 0 < nth y l 0)%nat.
Proof.
  induction 1 as [|a l _ IH Hall]; intros x y Hxy Hy; [simpl in Hy; lia|].
  destruct y as [|y]; [lia|]. simpl in Hy. destruct x as [|x]; simpl.
  - apply (proj1 (Forall_forall _ _) Hall). apply nth_In. lia.
  - apply IH; lia.
Qed.

Lemma take_map (A : Type) (d : A) (l : list A) (idx : list nat) :
  Forall (fun i => (i < length l)%nat) idx ->
  take l idx = map (fun i => nth i l d) idx.
Proof.
  induction 1 as [|i idx Hi _ IH]; [reflexivity|].
  rewrite take_cons. cbn [map].
  destruct (nth_error l i) as [r|] eqn:E.
  - rewrite IH. f_equal. symmetry. apply nth_error_nth, E.
  - apply nth_error_None in E. lia.
Qed.

Lemma StronglySorted_map (A B : Type) (R : A -> A -> Prop)
      (R' : B -> B -> Prop) (f : A -> B) (l : list A) :
  (forall x y, In x l -> In y l -> R x y -> R' (f x) (f y)) ->
  StronglySorted R l -> StronglySorted R' (map f l).
Proof.
  intros H S. induction S as [|a l _ IH Hall]; [constructor|].
  cbn [map]. constructor.
  - apply IH. intros x y Hx Hy. apply H; right; assumption.
  - apply Forall_forall. intros b Hb. apply in_map_iff in Hb.
    destruct Hb as [y [<- Hy]].
    apply H; [left; reflexivity | right; exact Hy|].
    exact (proj1 (Forall_forall _ _) Hall y Hy).
Qed.

(** The key of a tick within the range is the [ts_event] of the tick at
    its position in the batch. *)
Lemma key_at_position (start_ts end_ts : Z) (trades : list Trade) (x : nat) :
  (x < length (positions (within start_ts end_ts) trades))%nat ->
  nth x (map (fun t : Trade => ts_event t)
             (filter (within start_ts end_ts) trades)) 0
  = ts_event_at trades (nth x (positions (within start_ts end_ts) trades) 0%nat).
Proof.
  intros Hx. unfold ts_event_at.
  rewrite filter_take.
  pose proof (@nth_error_take _ trades _
                (positions_bound (within start_ts end_ts) trades) x) as E.
  rewrite (nth_error_nth' _ 0%nat Hx) in E.
  destruct (nth_error (take trades (positions (within start_ts end_ts) trades))
                      x) as [t|] eqn:F.
  - rewrite <- E.
    apply (nth_error_nth _ _ 0).
    rewrite nth_error_map, F. reflexivity.
  - exfalso. apply nth_error_None in F.
    rewrite take_length in F by apply positions_bound. lia.
Qed.

(** With numpy's quicksort and at most 17 ticks within the range, the
    ticks are exported in the order of a stable sort. *)
Lemma fetch_positions_stable (env : Env) (start_ts end_ts : Z)
      (trades : list Trade) :
  argsort (quicksort env) = aquicksort ->
  (length (filter (within start_ts end_ts) trades) <= 17)%nat ->
  StronglySorted (in_fetch_order trades)
                 (fetch_positions env start_ts end_ts trades).
Proof.
  intros Hq Hlen. unfold fetch_positions. rewrite Hq.
  set (ps := positions (within start_ts end_ts) trades).
  set (keys := map (fun t : Trade => ts_event t)
                   (filter (within start_ts end_ts) trades)).
  assert (Lk : length keys = length ps).
  { unfold keys, ps. rewrite length_map. apply filter_length. }
  assert (Hidx : forall i, In i (aquicksort keys) -> (i < length ps)%nat).
  { intros i Hi.
    apply (Permutation_in _ (proj1 (aquicksort_spec keys))) in Hi.
    apply in_seq in Hi. lia. }
  rewrite (take_map 0%nat).
  2:{ apply Forall_forall. exact Hidx. }
  apply (StronglySorted_map (R := before keys)).
  - intros x y Hx Hy Hb. apply Hidx in Hx, Hy.
    unfold in_fetch_order. unfold before, key in Hb.
    unfold keys in Hb. rewrite !key_at_position in Hb by assumption.
    fold ps in Hb. destruct Hb as [Hlt|[Heq Hxy]]; [left; exact Hlt|].
    right. split; [exact Heq|].
    apply ascending_nth; try assumption.
    apply positions_from_ascending.
  - apply aquicksort_stable. rewrite Lk. unfold ps.
    rewrite <- filter_length. unfold SMALL_QUICKSORT. lia.
Qed.

(** With numpy's quicksort the sorted frame is in order of [ts_event]:
    the routine sorts. *)
Lemma normalize_sorted_by_quicksort (env : Env) (start_ts end_ts : Z)
      (df : list VwapRow) :
  argsort (quicksort env) = aquicksort ->
  Sorted Z.le
         (map (fun r : VwapRow => ts_event r)
              (normalize env start_ts end_ts df)).
Proof.
  intros Hq. unfold normalize, sort_values. rewrite Hq.
  rewrite take_keys.
  - apply (proj2 (aquicksort_spec _)).
  - apply Forall_forall. intros i Hi.
    apply (Permutation_in _ (proj1 (aquicksort_spec _))) in Hi.
    apply in_seq in Hi. rewrite length_map in Hi. lia.
Qed.

End BatchFacts.

Import BatchFacts.

(* ================================================================== *)
(** * Concrete collaborators and batches *)

Module Examples.

Local Open Scope Z_scope.

(** The day number of a date, counted from 1970-01-01. *)
Definition days_from_civil (y m d : Z) : Z :=
  let y := if m <=? 2 then y - 1 else y in
  let era := y / 400 in
  let yoe := y - era * 400 in
  let mp := if 2 <? m then m - 3 else m + 9 in
  let doy := (153 * mp + 2) / 5 + d - 1 in
  let doe := yoe * 365 + yoe / 4 - yoe / 100 + doy in
  era * 146097 + doe - 719468.

Definition is_leap (y : Z) : bool :=
  ((y mod 4 =? 0) && negb (y mod 100 =? 0)) || (y mod 400 =? 0).

Definition days_in_month (y m : Z) : Z :=
  if m =? 2 then (if is_leap y then 29 else 28)
  else if (m =? 4) || (m =? 6) || (m =? 9) || (m =? 11) then 30
  else 31.

Definition digit_of (c : ascii) : option Z :=
  let n := Z.of_nat (nat_of_ascii c) in
  if (48 <=? n) && (n <=? 57) then Some (n - 48) else None.

Fixpoint digits (s : string) (acc : Z) : option Z :=
  match s with
  | EmptyString => Some acc
  | String c s' =>
      match digit_of c with
      | Some d => digits s' (10 * acc + d)
      | None => None
      end
  end.

Definition ValueError (message : string) : exn :=
  {| exn_class := "ValueError"; exn_message := message |}.

Definition OSError (message : string) : exn :=
  {| exn_class := "OSError"; exn_message := message |}.

(** [pd.Timestamp(date).tz_localize('UTC')] on the dates this development
    runs the program with: a date written YYYY-MM-DD, the format the
    docstring of [fetch_and_chart_trades] asks for, is midnight UTC of that
    day when the calendar has the day and is refused otherwise; the empty
    string is NaT.  No other spelling of a date is read here. *)
Definition iso_date (s : string) : outcome (option Z) :=
  if String.eqb s "" then Returned None
  else
    match digits (substring 0 4 s) 0,
          digits (substring 5 2 s) 0,
          digits (substring 8 2 s) 0 with
    | Some y, Some m, Some d =>
        if (String.length s =? 10)%nat
           && String.eqb (substring 4 1 s) "-"
           && String.eqb (substring 7 1 s) "-"
           && (1 <=? y)
           && (1 <=? m) && (m <=? 12)
           && (1 <=? d) && (d <=? days_in_month y m)
        then Returned (Some (days_from_civil y m d * NS_PER_DAY))
        else Raised (ValueError "could not convert string to Timestamp")
    | _, _, _ => Raised (ValueError "could not convert string to Timestamp")
    end.

Fixpoint has_slash (s : string) : bool :=
  match s with
  | EmptyString => false
  | String c s' => Ascii.eqb c "/" || has_slash s'
  end.

(** A working directory without subdirectories: a file is written when its
    name has no directory part, and pandas refuses a path into a directory
    that is not there before it writes anything. *)
Definition flat_directory (path : string) (_ : list CsvRow) : outcome unit :=
  if has_slash path
  then Raised (OSError "Cannot save file into a non-existent directory")
  else Returned tt.

(** A renderer that shows every chart. *)
Definition browser (_ : Chart) : outcome unit := Returned tt.

(** A vendor that answers every request with [trades], the winter offset
    of New York, numpy's quicksort, and the file system and the renderer
    above. *)
Definition vendor (trades : list Trade) : Env :=
  {| get_range := fun _ _ _ => Returned trades;
     utc_timestamp := iso_date;
     new_york := EST;
     quicksort := numpy_quicksort;
     write_csv := flat_directory;
     show := browser |}.

(** 2024-12-23 09:30:00 in New York. *)
Definition opening : Z := 1734964200000000000.

Definition on_2024_12_23 : Z := 1734912000000000000.
Definition on_2024_12_24 : Z := 1734998400000000000.

Definition pltr (ts : Z) (p : float) (s : N) : Trade :=
  {| symbol := "PLTR"; ts_event := ts; price := p; size := s |}.

(** Two trades whose fetch order is not their time order. *)
Definition late_then_early : list Trade :=
  [ pltr (opening + 2 * NS_PER_MINUTE) 80 100;
    pltr (opening + 1 * NS_PER_MINUTE) 82 100 ].

(** A batch that opens with a trade of size zero. *)
Definition zero_size_first : list Trade :=
  [ pltr opening 80 0; pltr (opening + NS_PER_MINUTE) 82 100 ].

(** Eighteen trades of the same instant, at the prices 1 to 18. *)
Definition eighteen_at_once : list Trade :=
  map (fun p => pltr opening p 1)
      [1; 2; 3; 4; 5; 6; 7; 8; 9; 10; 11; 12; 13; 14; 15; 16; 17; 18]%float.

(** A single trade. *)
Definition sole_trade : list Trade := [ pltr opening 80 100 ].

(** A single trade whose price is undefined. *)
Definition undefined_price : list Trade :=
  [ pltr opening PrimFloat.nan 100 ].

(** Trades of two hours; the high of the first hour is reached twice. *)
Definition two_hours : list Trade :=
  [ pltr opening 80 100;
    pltr (opening + NS_PER_MINUTE) 82 50;
    pltr (opening + NS_PER_MINUTE + 1) 82 25;
    pltr (opening + NS_PER_HOUR) 81 10;
    pltr (opening + NS_PER_HOUR + NS_PER_MINUTE) 79 40 ].

(** Trades of the day before. *)
Definition day_before : list Trade :=
  [ pltr (opening - NS_PER_DAY) 80 100;
    pltr (opening - NS_PER_DAY + NS_PER_MINUTE) 82 50 ].

(** The report on a batch for the dates 2024-12-23 to 2024-12-24. *)
Definition report_on (trades : list Trade) : Report :=
  chart_trades (vendor trades) on_2024_12_23 on_2024_12_24
               (fetched_frame (vendor trades) trades).

End Examples.

Import Examples.


(* ================================================================== *)
(** * Facts about the run of the program *)

Module DriverFacts.

(** With the answer of the vendor and the two bounds in hand, what is left
    of [fetch_and_chart_trades] is the writing of the table and the showing
    of the chart. *)
Lemma fetch_and_chart_trades_runs (env : Env)
      (symbol start_date end_date : string) (start_ts end_ts : Z)
      (trades : list Trade) :
  get_range env symbol start_date end_date = Returned trades ->
  utc_timestamp env start_date = Returned (Some start_ts) ->
  utc_timestamp env end_date = Returned (Some end_ts) ->
  fetch_and_chart_trades env symbol start_date end_date
  = (let report :=
       chart_trades env start_ts end_ts (fetched_frame env trades) in
     _ <- write_csv env (output_file symbol start_date) (csv report) ;;
     _ <- show env (chart report) ;;
     Returned report).
Proof.
  intros Hfetch Hstart Hend. unfold fetch_and_chart_trades.
  rewrite Hfetch. cbn [bind]. rewrite Hstart. cbn [bind].
  rewrite Hend. reflexivity.
Qed.

Lemma nan_zero_or_nan : zero_or_nan PrimFloat.nan.
Proof. exact Logic.I. Qed.

Lemma Forall2_weaken (A B : Type) (R1 R2 : A -> B -> Prop) :
  (forall a b, R1 a b -> R2 a b) ->
  forall l1 l2, Forall2 R1 l1 l2 -> Forall2 R2 l1 l2.
Proof.
  intros H l1 l2 F. induction F; constructor; auto.
Qed.

End DriverFacts.

Import DriverFacts.

(* ================================================================== *)
(** * The average price (C1, C2) *)

(** The trades of the exported frame, in its order: the normalized tick
    sequence. *)
Definition normalized_ticks (rep : Report) : list Trade :=
  map (fun r : Noted => trade r) (frame rep).

(** C1, as the code has it.  [calculate_vwap] runs on the fetched frame
    (line 51), before the range filter (line 60) and the sort (line 66).
    So the exported frame is the fetched batch read at the positions [js]
    of the ticks within the range, each position once, in the order the
    sort gives them; and the row read at position [j] is the tick at [j] of
    the fetched batch with the average over the positions [0..j] of the
    fetched batch: the sum of price * size over them divided by the sum of
    size over them, whatever is filtered out or moved afterwards. *)
Theorem vwap_is_over_the_fetch_order (env : Env) (start_ts end_ts : Z)
        (trades : list Trade) :
  exists js : list nat,
    Permutation js (positions (within start_ts end_ts) trades)
    /\ Forall2
         (fun (r : Noted) (j : nat) =>
            nth_error trades j = Some (trade r)
            /\ Some (vwap r) = vwap_at trades j)
         (frame (chart_trades env start_ts end_ts (fetched_frame env trades)))
         js.
Proof.
  destruct (exported_positions env start_ts end_ts trades) as [P F].
  exists (fetch_positions env start_ts end_ts trades). split; [exact P|].
  change (frame (chart_trades env start_ts end_ts (fetched_frame env trades)))
    with (enrich env start_ts end_ts (fetched_frame env trades)).
  revert F. apply Forall2_weaken. intros r j H.
  apply (vwap_of_fetched env trades j H).
Qed.

(** C1 as the specification states it fails: in the batch
    [late_then_early] the trade at 82 is fetched second and comes first in
    time.  It carries the average 81 of both trades, where the average over
    positions [0..0] of the normalized sequence is 82. *)
Lemma vwap_is_not_over_the_normalized_sequence :
  exists r,
    nth_error (frame (report_on late_then_early)) 0 = Some r
    /\ price r = 82%float
    /\ vwap r = 81%float
    /\ vwap_at (normalized_ticks (report_on late_then_early)) 0
       = Some 82%float
    /\ float_eqb (vwap r) 82 = false.
Proof.
  vm_compute. eexists. split; [reflexivity|]. repeat split.
Qed.

(** C2, as the code has it.  When the first tick of the frame has size 0,
    [calculate_vwap] raises nothing: the division of line 18 is a division
    of two columns, where a zero or NaN divided by 0 is NaN.  That NaN is
    stored as the [vwap] of the first row, and the frame keeps all its
    rows. *)
Theorem zero_volume_prefix_yields_nan (t : Tick) (df : list Tick) :
  size t = 0%N ->
  exists (r : VwapRow) (rows : list VwapRow),
    calculate_vwap (t :: df) = r :: rows
    /\ tick r = t
    /\ is_nan (vwap r) = true
    /\ length rows = length df.
Proof.
  intros Hsize. rewrite calculate_vwap_cons. cbv zeta.
  eexists. eexists. split; [reflexivity|]. split; [reflexivity|].
  split; [|apply rows_from_length].
  cbn [vwap]. rewrite Hsize. apply truediv_0.
  assert (Hn : zero_or_nan (notional t)).
  { unfold notional. rewrite Hsize. apply mul_size_0. }
  unfold nan_to_zero. destruct (is_nan (notional t));
    [apply nan_zero_or_nan | exact Hn].
Qed.

Lemma zero_volume_prefix_yields_nan_witness :
  exists (r : VwapRow) (rows : list VwapRow),
    calculate_vwap
      (add_ts_event_et (vendor zero_size_first) zero_size_first)
    = r :: rows
    /\ tick r = {| trade := pltr opening 80 0;
                   ts_event_et := tz_convert EST opening |}
    /\ is_nan (vwap r) = true
    /\ length rows = 1%nat.
Proof.
  apply (@zero_volume_prefix_yields_nan
           {| trade := pltr opening 80 0;
              ts_event_et := tz_convert EST opening |}
           [{| trade := pltr (opening + NS_PER_MINUTE) 82 100;
               ts_event_et := tz_convert EST (opening + NS_PER_MINUTE) |}]).
  reflexivity.
Defined.

(** C2 as the specification states it fails: on the batch
    [zero_size_first] the program raises nothing, and the table it writes
    has NaN as the average of the first tick. *)
Lemma zero_volume_prefix_does_not_fail :
  fetch_and_chart_trades (vendor zero_size_first)
                         "PLTR" "2024-12-23" "2024-12-24"
  = Returned (report_on zero_size_first)
  /\ map (fun c => is_nan (csv_vwap c))
         (csv (report_on zero_size_first))
     = [true; false]
  /\ map csv_vwap (csv (report_on zero_size_first))
     = [PrimFloat.nan; 82%float].
Proof.
  split; [vm_compute; reflexivity|]. split; vm_compute; reflexivity.
Qed.

(* ================================================================== *)
(** * The order of the frame (C3) and the range filter (C7) *)




(** C7.  The rows that the normalization drops are the rows whose
    [ts_event] is before [start_ts] or after [end_ts], and it keeps every
    other row, those at [start_ts] and at [end_ts] included: the fetched
    frame is, up to order, the exported frame followed by rows strictly
    outside of the range, and every exported row is within the range. *)
Theorem range_filter_is_inclusive (env : Env) (start_ts end_ts : Z)
        (df : list VwapRow) :
  exists dropped : list VwapRow,
    Permutation
      df
      (map (fun r : Noted => row r)
           (frame (chart_trades env start_ts end_ts df)) ++ dropped)
    /\ Forall (fun r : Noted => (start_ts <= ts_event r <= end_ts)%Z)
              (frame (chart_trades env start_ts end_ts df))
    /\ Forall (fun r : VwapRow =>
                 (ts_event r < start_ts \/ end_ts < ts_event r)%Z)
              dropped.
Proof.
  exists (filter (fun r => negb (in_range start_ts end_ts r)) df).
  change (frame (chart_trades env start_ts end_ts df))
    with (enrich env start_ts end_ts df).
  rewrite enrich_rows. split; [|split].
  - eapply perm_trans; [apply (filter_split (in_range start_ts end_ts))|].
    apply Permutation_app_tail. apply Permutation_sym, normalize_perm.
  - apply Forall_forall. intros r Hr.
    apply (in_map (fun r : Noted => row r)) in Hr.
    rewrite enrich_rows in Hr.
    apply (Permutation_in _ (normalize_perm env start_ts end_ts df)) in Hr.
    apply filter_In in Hr. apply in_range_spec, Hr.
  - apply Forall_forall. intros r Hr. apply filter_In in Hr.
    destruct Hr as [_ Hr]. apply negb_true_iff in Hr.
    apply out_of_range_spec, Hr.
Qed.

(* ================================================================== *)
(** * The labels (C4, C5, C10) and the note (C9) *)

(** C4, as the code has it.  When a single tick of the batch is within the
    range, that tick is the exported frame, and its four flags are set
    together when its price is a number; when its price is NaN none of the
    four is set, since NaN is the maximum and the minimum of no column and
    compares equal to nothing. *)
Theorem sole_tick_has_all_four_labels (env : Env) (start_ts end_ts : Z)
        (trades : list Trade) (t : Trade) :
  filter (within start_ts end_ts) trades = [t] ->
  exists r : Noted,
    frame (chart_trades env start_ts end_ts (fetched_frame env trades)) = [r]
    /\ trade r = t
    /\ is_hourly_high r = negb (is_nan (price t))
    /\ is_hourly_low r = negb (is_nan (price t))
    /\ is_day_high r = negb (is_nan (price t))
    /\ is_day_low r = negb (is_nan (price t)).
Proof.
  intros H.
  change (frame (chart_trades env start_ts end_ts (fetched_frame env trades)))
    with (enrich env start_ts end_ts (fetched_frame env trades)).
  pose proof (exported_ticks env start_ts end_ts trades) as P.
  rewrite H in P. apply Permutation_sym, Permutation_length_1_inv in P.
  destruct (enrich env start_ts end_ts (fetched_frame env trades))
    as [|r [|r' out]] eqn:F; try discriminate P.
  exists r. cbn [map] in P.
  assert (E : trade r = t) by congruence.
  split; [reflexivity|]. split; [exact E|].
  assert (Hr : In r (enrich env start_ts end_ts (fetched_frame env trades)))
    by (rewrite F; left; reflexivity).
  destruct (exported_flags env start_ts end_ts (fetched_frame env trades)
                           r Hr) as [HH [HL [DH DL]]].
  rewrite F in HH, HL, DH, DL. rewrite <- E.
  assert (G : forall flag : bool,
             (flag = true
              <-> number (price r)
                  /\ forall r' : Noted,
                       In r' [r] -> number (price r') ->
                       fle (price r') (price r)
                       /\ fle (price r) (price r')) ->
             flag = negb (is_nan (price r))).
  { intros flag Hflag. unfold number in Hflag.
    destruct (is_nan (price r)) eqn:N; cbn [negb].
    - destruct flag; [|reflexivity].
      destruct (proj1 Hflag eq_refl) as [C _]. discriminate C.
    - apply Hflag. split; [reflexivity|].
      intros r' [<-|[]] _. split; apply fle_refl; exact N. }
  repeat split; apply G.
  - rewrite HH. split; intros [Hn Hall]; (split; [exact Hn|]).
    + intros r' [<-|[]] _. split; apply fle_refl; exact Hn.
    + intros r' Hr' _ Hn'. apply (Hall r' Hr' Hn').
  - rewrite HL. split; intros [Hn Hall]; (split; [exact Hn|]).
    + intros r' [<-|[]] _. split; apply fle_refl; exact Hn.
    + intros r' Hr' _ Hn'. apply (Hall r' Hr' Hn').
  - rewrite DH. split; intros [Hn Hall]; (split; [exact Hn|]).
    + intros r' [<-|[]] _. split; apply fle_refl; exact Hn.
    + intros r' Hr' Hn'. apply (Hall r' Hr' Hn').
  - rewrite DL. split; intros [Hn Hall]; (split; [exact Hn|]).
    + intros r' [<-|[]] _. split; apply fle_refl; exact Hn.
    + intros r' Hr' Hn'. apply (Hall r' Hr' Hn').
Qed.

Lemma sole_tick_has_all_four_labels_witness :
  exists r : Noted,
    frame (report_on sole_trade) = [r]
    /\ trade r = pltr opening 80 100
    /\ is_hourly_high r = true
    /\ is_hourly_low r = true
    /\ is_day_high r = true
    /\ is_day_low r = true.
Proof.
  apply (@sole_tick_has_all_four_labels
           (vendor sole_trade) on_2024_12_23 on_2024_12_24
           sole_trade (pltr opening 80 100)).
  reflexivity.
Defined.

(** C4 as the specification states it fails: the batch [undefined_price]
    is a single tick, within the range, whose price is NaN.  It is exported
    with none of the four flags and with an empty note. *)
Lemma sole_tick_without_price_has_no_label :
  undefined_price = [pltr opening PrimFloat.nan 100]
  /\ map (fun r : Noted =>
            (trade r, is_hourly_high r, is_hourly_low r, is_day_high r,
             is_day_low r, note r))
         (frame (report_on undefined_price))
     = [(pltr opening PrimFloat.nan 100, false, false, false, false,
         ""%string)].
Proof.
  split; [reflexivity|]. vm_compute. reflexivity.
Qed.

(** C5.  The exported frame holds the ticks of the batch that are within
    the range.  The hour of a tick is the hour of its time in New York.  A
    tick is flagged as hourly high exactly when its price is a number and no
    tick of the batch that is within the range and of the same hour has a
    higher price, that is, when its price equals the maximum of its hour; so
    every tick at the maximum is flagged, however many there are.  The same
    holds of the hourly low with the minimum of the hour, and of the day
    high and the day low with the maximum and the minimum over all the ticks
    within the range.  The comparison is that of the floats, with no
    tolerance. *)
Theorem every_extremal_tick_is_flagged (env : Env) (start_ts end_ts : Z)
        (trades : list Trade) :
  Permutation
    (map (fun r : Noted => trade r)
         (frame (chart_trades env start_ts end_ts (fetched_frame env trades))))
    (filter (within start_ts end_ts) trades)
  /\ Forall
       (fun r : Noted =>
          hour r = hour_of env r
          /\ (is_hourly_high r = true
              <-> number (price r)
                  /\ forall t,
                       In t trades -> within start_ts end_ts t = true ->
                       hour_of env t = hour_of env r ->
                       number (price t) -> fle (price t) (price r))
          /\ (is_hourly_low r = true
              <-> number (price r)
                  /\ forall t,
                       In t trades -> within start_ts end_ts t = true ->
                       hour_of env t = hour_of env r ->
                       number (price t) -> fle (price r) (price t))
          /\ (is_day_high r = true
              <-> number (price r)
                  /\ forall t,
                       In t trades -> within start_ts end_ts t = true ->
                       number (price t) -> fle (price t) (price r))
          /\ (is_day_low r = true
              <-> number (price r)
                  /\ forall t,
                       In t trades -> within start_ts end_ts t = true ->
                       number (price t) -> fle (price r) (price t)))
       (frame (chart_trades env start_ts end_ts (fetched_frame env trades))).
Proof.
  change (frame (chart_trades env start_ts end_ts (fetched_frame env trades)))
    with (enrich env start_ts end_ts (fetched_frame env trades)).
  split; [apply exported_ticks|].
  apply Forall_forall. intros r Hr. split.
  - apply (exported_from_batch env start_ts end_ts trades r Hr).
  - apply exported_flags_of_batch, Hr.
Qed.

(** The day flags of a frame, whatever frame it is: a tick flagged for
    the day is flagged for its hour; with a number among the prices there
    is a day high and a day low; without one no tick is flagged. *)
Lemma day_flags (env : Env) (start_ts end_ts : Z)
        (df : list VwapRow) :
  Forall
    (fun r : Noted =>
       (is_day_high r = true -> is_hourly_high r = true)
       /\ (is_day_low r = true -> is_hourly_low r = true))
    (frame (chart_trades env start_ts end_ts df))
  /\ (Exists (fun r : Noted => number (price r))
             (frame (chart_trades env start_ts end_ts df)) ->
      Exists (fun r : Noted => is_day_high r = true)
             (frame (chart_trades env start_ts end_ts df))
      /\ Exists (fun r : Noted => is_day_low r = true)
                (frame (chart_trades env start_ts end_ts df)))
  /\ (Forall (fun r : Noted => is_nan (price r) = true)
             (frame (chart_trades env start_ts end_ts df)) ->
      Forall (fun r : Noted =>
                is_hourly_high r = false /\ is_hourly_low r = false
                /\ is_day_high r = false /\ is_day_low r = false)
             (frame (chart_trades env start_ts end_ts df))).
Proof.
  change (frame (chart_trades env start_ts end_ts df))
    with (enrich env start_ts end_ts df).
  set (sorted := add_hour (normalize env start_ts end_ts df)).
  split; [|split].
  - apply Forall_forall. intros r Hr.
    destruct (exported_flags env start_ts end_ts df r Hr)
      as [HH [HL [DH DL]]].
    rewrite HH, HL, DH, DL.
    split; intros [Hn H]; (split; [exact Hn|]); intros r' Hr' _;
      apply H, Hr'.
  - intros Hex. apply Exists_exists in Hex. destruct Hex as [r0 [Hr0 Hn0]].
    destruct (@exported_row env start_ts end_ts df r0 Hr0) as [Hh0 _].
    fold sorted in Hh0.
    pose proof (own_day_price sorted r0 Hh0) as Hp0.
    assert (Hflag : forall (p : float) (flag : Flagged -> bool),
               In p (day_prices sorted) ->
               (forall h, In h sorted -> price h = p ->
                          flag (flag_row sorted h) = true) ->
               Exists (fun r : Noted => flag r = true)
                      (enrich env start_ts end_ts df)).
    { intros p flag Hp Hf. unfold day_prices in Hp.
      apply in_map_iff in Hp. destruct Hp as [h [<- Hh]].
      pose proof Hh as Hh'.
      apply (sorted_row env start_ts end_ts df) in Hh'.
      destruct Hh' as [r [Hr <-]].
      apply Exists_exists. exists r. split; [exact Hr|].
      destruct (@exported_row env start_ts end_ts df r Hr) as [_ [E _]].
      rewrite E. apply Hf; [exact Hh | reflexivity]. }
    split.
    + destruct (series_max_attained _ Hp0 Hn0) as [Hin Hnum].
      apply (Hflag _ is_day_high Hin). intros h _ E.
      cbn [flag_row is_day_high]. fold (day_prices sorted). rewrite E.
      apply float_eqb_refl, Hnum.
    + destruct (series_min_attained _ Hp0 Hn0) as [Hin Hnum].
      apply (Hflag _ is_day_low Hin). intros h _ E.
      cbn [flag_row is_day_low]. fold (day_prices sorted). rewrite E.
      apply float_eqb_refl, Hnum.
  - intros Hall. apply Forall_forall. intros r Hr.
    pose proof (proj1 (Forall_forall _ _) Hall r Hr) as Hnan.
    destruct (@exported_row env start_ts end_ts df r Hr) as [_ [E _]].
    rewrite E. cbn [flag_row is_hourly_high is_hourly_low is_day_high
                    is_day_low].
    assert (Z : forall y, float_eqb (price r) y = false)
      by (intros y; apply float_eqb_nan_l; exact Hnan).
    rewrite !Z. repeat split.
Qed.


(** C10, as the code has it.  The exported frame holds the ticks of the
    batch that are within the range.  A tick flagged day high is flagged
    hourly high, and a tick flagged day low is flagged hourly low.  When
    some tick within the range has a price that is a number, there is a
    tick flagged day high and a tick flagged day low; when the price of
    every tick within the range is NaN, no tick is flagged. *)
Theorem day_extrema_are_hour_extrema (env : Env) (start_ts end_ts : Z)
        (trades : list Trade) :
  Permutation
    (map (fun r : Noted => trade r)
         (frame (chart_trades env start_ts end_ts (fetched_frame env trades))))
    (filter (within start_ts end_ts) trades)
  /\ Forall
       (fun r : Noted =>
          (is_day_high r = true -> is_hourly_high r = true)
          /\ (is_day_low r = true -> is_hourly_low r = true))
       (frame (chart_trades env start_ts end_ts (fetched_frame env trades)))
  /\ ((exists t, In t trades /\ within start_ts end_ts t = true
                 /\ number (price t)) ->
      Exists (fun r : Noted => is_day_high r = true)
             (frame (chart_trades env start_ts end_ts
                                  (fetched_frame env trades)))
      /\ Exists (fun r : Noted => is_day_low r = true)
                (frame (chart_trades env start_ts end_ts
                                     (fetched_frame env trades))))
  /\ ((forall t, In t trades -> within start_ts end_ts t = true ->
                 is_nan (price t) = true) ->
      Forall (fun r : Noted =>
                is_hourly_high r = false /\ is_hourly_low r = false
                /\ is_day_high r = false /\ is_day_low r = false)
             (frame (chart_trades env start_ts end_ts
                                  (fetched_frame env trades)))).
Proof.
  destruct (day_flags env start_ts end_ts (fetched_frame env trades))
    as [A [B C]].
  pose proof (exported_ticks env start_ts end_ts trades) as P.
  change (frame (chart_trades env start_ts end_ts (fetched_frame env trades)))
    with (enrich env start_ts end_ts (fetched_frame env trades)) in *.
  split; [exact P|]. split; [exact A|]. split.
  - intros [t [Ht [Hw Hn]]]. apply B.
    assert (Hin : In t (filter (within start_ts end_ts) trades))
      by (apply filter_In; split; assumption).
    apply (Permutation_in _ (Permutation_sym P)) in Hin.
    apply in_map_iff in Hin. destruct Hin as [r [E Hr]].
    apply Exists_exists. exists r. split; [exact Hr|].
    rewrite E. exact Hn.
  - intros Hall. apply C. apply Forall_forall. intros r Hr.
    destruct (exported_from_batch env start_ts end_ts trades r Hr)
      as [Ht [Hw _]].
    apply Hall; assumption.
Qed.

(** C10 as the specification states it fails: the filtered sequence of the
    batch [undefined_price] is not empty, and no tick of it is flagged day
    high or day low. *)
Lemma a_day_without_prices_has_no_extrema :
  length (frame (report_on undefined_price)) = 1%nat
  /\ existsb (fun r : Noted => is_day_high r)
             (frame (report_on undefined_price)) = false
  /\ existsb (fun r : Noted => is_day_low r)
             (frame (report_on undefined_price)) = false
  /\ is_nan (day_high (report_on undefined_price)) = true
  /\ is_nan (day_low (report_on undefined_price)) = true.
Proof.
  vm_compute. repeat split.
Qed.

(** C9.  The exported frame holds the ticks of the batch that are within
    the range, and the table written has their notes row by row.  The note
    of a tick is the empty string or one of the four labels: DAY_LOW when
    the tick is flagged day low; otherwise DAY_HIGH when it is flagged day
    high; otherwise HOUR_LOW when it is flagged hourly low; otherwise
    HOUR_HIGH when it is flagged hourly high.  It is the empty string
    exactly when the tick has none of the four flags. *)
Theorem note_is_the_last_label (env : Env) (start_ts end_ts : Z)
        (trades : list Trade) :
  Permutation
    (map (fun r : Noted => trade r)
         (frame (chart_trades env start_ts end_ts (fetched_frame env trades))))
    (filter (within start_ts end_ts) trades)
  /\ Forall
       (fun r : Noted =>
          In (note r)
             [""; "HOUR_HIGH"; "HOUR_LOW"; "DAY_HIGH"; "DAY_LOW"]%string
          /\ (is_day_low r = true -> note r = "DAY_LOW"%string)
          /\ (is_day_low r = false -> is_day_high r = true ->
              note r = "DAY_HIGH"%string)
          /\ (is_day_low r = false -> is_day_high r = false ->
              is_hourly_low r = true -> note r = "HOUR_LOW"%string)
          /\ (is_day_low r = false -> is_day_high r = false ->
              is_hourly_low r = false -> is_hourly_high r = true ->
              note r = "HOUR_HIGH"%string)
          /\ (note r = ""%string
              <-> is_hourly_high r = false /\ is_hourly_low r = false
                  /\ is_day_high r = false /\ is_day_low r = false))
       (frame (chart_trades env start_ts end_ts (fetched_frame env trades)))
  /\ Forall2
       (fun (c : CsvRow) (r : Noted) =>
          csv_symbol c = symbol r
          /\ csv_ts_event_et c = ts_event_et r
          /\ csv_price c = price r
          /\ csv_size c = size r
          /\ csv_note c = note r)
       (csv (chart_trades env start_ts end_ts (fetched_frame env trades)))
       (frame (chart_trades env start_ts end_ts (fetched_frame env trades))).
Proof.
  change (csv (chart_trades env start_ts end_ts (fetched_frame env trades)))
    with (selected_columns
            (enrich env start_ts end_ts (fetched_frame env trades))).
  change (frame (chart_trades env start_ts end_ts (fetched_frame env trades)))
    with (enrich env start_ts end_ts (fetched_frame env trades)).
  split; [apply exported_ticks|]. split.
  - apply Forall_forall. intros r Hr.
    destruct (@exported_row env start_ts end_ts (fetched_frame env trades)
                            r Hr) as [_ [_ E]].
    rewrite E. unfold last_label.
    destruct (is_day_low r), (is_day_high r), (is_hourly_low r),
      (is_hourly_high r);
      (split; [one_of_the_labels|]);
      (split; [flag_case|]); (split; [flag_case|]);
      (split; [flag_case|]); (split; [flag_case|]);
      (split; [intros H; first [discriminate H | repeat split]
              | intros [H1 [H2 [H3 H4]]]; flag_case]).
  - unfold selected_columns.
    induction (enrich env start_ts end_ts (fetched_frame env trades))
      as [|r l IH]; cbn [map]; constructor.
    + repeat split.
    + exact IH.
Qed.

(* ================================================================== *)
(** * The empty range (C6) and the volume per minute (C8) *)




(** C8.  The totals of the groups of [volume_by_minute] add up to the sum
    of [size] over the exported frame, which is the sum of [size] over the
    rows of the range filter and the total volume of the summary; and
    there is one group for each minute. *)
Theorem minute_volumes_add_up (env : Env) (start_ts end_ts : Z)
        (df : list VwapRow) :
  series_sum (map snd (volume_by_minute (chart_trades env start_ts end_ts df)))
  = series_sum (map (fun r : VwapRow => size r)
                    (filter (in_range start_ts end_ts) df))
  /\ series_sum
       (map snd (volume_by_minute (chart_trades env start_ts end_ts df)))
     = total_volume (chart_trades env start_ts end_ts df)
  /\ NoDup (map fst (volume_by_minute (chart_trades env start_ts end_ts df))).
Proof.
  change (volume_by_minute (chart_trades env start_ts end_ts df))
    with (group_volume (enrich env start_ts end_ts df)).
  change (total_volume (chart_trades env start_ts end_ts df))
    with (series_sum (map (fun r : Noted => size r)
                          (enrich env start_ts end_ts df))).
  rewrite group_volume_total. split; [|split].
  - rewrite <- (map_map (fun r : Noted => row r)
                        (fun r : VwapRow => size r)).
    rewrite enrich_rows. apply series_sum_perm.
    apply Permutation_map, normalize_perm.
  - reflexivity.
  - apply group_volume_keys.
Qed.

(* ================================================================== *)
(** * More facts about groups and about the rows of [hourly_stats] *)

Module SummaryFacts.

(** The order of the group keys. *)
Definition key_le (a b : string) : Prop := String.leb a b = true.
Definition key_lt (a b : string) : Prop := String.ltb a b = true.

Lemma insert_key_hd (k k' : string) (l : list string) :
  key_le k' k -> HdRel key_le k' l -> HdRel key_le k' (insert_key k l).
Proof.
  intros Hk Hl. destruct l as [|j l]; simpl.
  - constructor. exact Hk.
  - destruct (String.leb k j).
    + constructor. exact Hk.
    + inversion Hl; subst. constructor. assumption.
Qed.

Lemma insert_key_sorted (k : string) (l : list string) :
  Sorted key_le l -> Sorted key_le (insert_key k l).
Proof.
  induction l as [|j l IH]; simpl; intros Hs.
  - repeat constructor.
  - destruct (String.leb k j) eqn:E.
    + constructor; [exact Hs|]. constructor. exact E.
    + inversion Hs; subst. constructor; [apply IH; assumption|].
      apply insert_key_hd; [|assumption].
      destruct (String.leb_total k j) as [H|H]; [congruence | exact H].
Qed.

Lemma key_le_lt (a b : string) : key_le a b -> a <> b -> key_lt a b.
Proof.
  unfold key_le, key_lt, String.leb, String.ltb. intros Hle Hne.
  destruct (String.compare a b) eqn:E; try reflexivity; try discriminate.
  apply String.compare_eq_iff in E. contradiction.
Qed.

Lemma sorted_distinct_strict (l : list string) :
  Sorted key_le l -> NoDup l -> Sorted key_lt l.
Proof.
  induction 1 as [|a l Hs IH Hd]; intros Hnd; [constructor|].
  inversion Hnd; subst. constructor; [apply IH; assumption|].
  destruct Hd as [|b l Hab]; constructor.
  apply key_le_lt; [exact Hab|]. intros ->. apply H1. left; reflexivity.
Qed.

(** The group keys come in strictly ascending order. *)
Lemma group_keys_ascending (keys : list string) :
  Sorted key_lt (group_keys keys).
Proof.
  apply sorted_distinct_strict; [|apply group_keys_NoDup].
  unfold group_keys.
  induction (nodup string_dec keys) as [|k l IH]; simpl.
  - constructor.
  - apply insert_key_sorted, IH.
Qed.

Lemma hourly_stats_keys (df : list Houred) :
  map hs_hour (hourly_stats df) = group_keys (map hour df).
Proof.
  unfold hourly_stats. rewrite map_map. cbn [hs_hour]. apply map_id.
Qed.

(** The prices of a row of [hourly_stats] are the prices of its hour. *)
Lemma hourly_stats_row (df : list Houred) (st : HourStat) :
  In st (hourly_stats df) ->
  In (hs_hour st) (map hour df)
  /\ hs_max st = series_max (hour_prices df (hs_hour st))
  /\ hs_min st = series_min (hour_prices df (hs_hour st)).
Proof.
  unfold hourly_stats. intros H. apply in_map_iff in H.
  destruct H as [k [<- Hk]]. cbn [hs_hour hs_max hs_min].
  split; [apply (proj1 (group_keys_In _ _)), Hk|].
  split; reflexivity.
Qed.

Lemma hour_prices_In (df : list Houred) (k : string) (p : float) :
  In p (hour_prices df k)
  <-> exists h : Houred, In h df /\ hour h = k /\ price h = p.
Proof.
  unfold hour_prices. rewrite in_map_iff. split.
  - intros [h [E Hh]]. apply filter_In in Hh. destruct Hh as [Hh Hk].
    exists h. repeat split; try assumption. apply String.eqb_eq, Hk.
  - intros [h [Hh [Hk E]]]. exists h. split; [exact E|].
    apply filter_In. split; [exact Hh | apply String.eqb_eq, Hk].
Qed.

Lemma day_prices_In (df : list Houred) (p : float) :
  In p (day_prices df) <-> exists h : Houred, In h df /\ price h = p.
Proof.
  unfold day_prices. rewrite in_map_iff. split.
  - intros [h [E Hh]]. exists h. split; assumption.
  - intros [h [Hh E]]. exists h. split; assumption.
Qed.

(** A column of prices and its two aggregates: with a number in the column
    both are numbers of the column and bound its numbers; without one both
    are NaN. *)
Definition bounds (prices : list float) (hi lo : float) : Prop :=
  ((exists p, In p prices /\ number p) ->
   number hi /\ number lo /\ In hi prices /\ In lo prices
   /\ fle lo hi
   /\ forall p, In p prices -> number p -> fle lo p /\ fle p hi)
  /\ ((forall p, In p prices -> is_nan p = true) ->
      is_nan hi = true /\ is_nan lo = true).

Lemma series_bounds (prices : list float) :
  bounds prices (series_max prices) (series_min prices).
Proof.
  split.
  - intros [p [Hp Hn]].
    destruct (series_max_attained _ Hp Hn) as [Hin Hnum].
    destruct (series_min_attained _ Hp Hn) as [Hin' Hnum'].
    repeat split; try assumption.
    + apply series_max_upper; assumption.
    + apply series_min_lower; assumption.
    + apply series_max_upper; assumption.
  - intros Hall. rewrite (series_max_nan _ Hall), (series_min_nan _ Hall).
    split; reflexivity.
Qed.

Lemma add_hour_hour (df : list VwapRow) (h : Houred) :
  In h (add_hour df) -> hour h = strftime_hour (ts_event_et h).
Proof.
  unfold add_hour. intros H. apply in_map_iff in H.
  destruct H as [r [<- _]]. reflexivity.
Qed.

End SummaryFacts.

Import SummaryFacts.

(* ================================================================== *)
(** * More facts about the exported frame *)

Module ReportFacts.

(** The key of a minute begins with the key of its hour. *)
Lemma same_minute_same_hour (t1 t2 : Timestamp) :
  strftime_minute t1 = strftime_minute t2 ->
  strftime_hour t1 = strftime_hour t2.
Proof.
  unfold strftime_minute, strftime_hour, format_date.
  destruct (civil_from_days (wall_clock t1 / NS_PER_DAY)) as [[y1 m1] d1].
  destruct (civil_from_days (wall_clock t2 / NS_PER_DAY)) as [[y2 m2] d2].
  unfold pad4, pad2. cbn [append]. intros H.
  injection H as E1 E2 E3 E4 E5 E6 E7 E8 E9 E10 E11 E12.
  congruence.
Qed.

(** The flags of a row depend on the rows of the frame, not on their
    order. *)
Lemma flag_row_perm (l1 l2 : list Houred) (h : Houred) :
  Permutation l1 l2 -> In h l1 -> flag_row l1 h = flag_row l2 h.
Proof.
  intros Hp H1. pose proof (Permutation_in _ Hp H1) as H2.
  destruct (flag_row_spec l1 h H1) as [A1 [B1 [C1 D1]]].
  destruct (flag_row_spec l2 h H2) as [A2 [B2 [C2 D2]]].
  assert (Hin : forall x : Houred, In x l1 <-> In x l2).
  { intros x. split; apply Permutation_in;
      [exact Hp | apply Permutation_sym, Hp]. }
  assert (HH : is_hourly_high (flag_row l1 h)
               = is_hourly_high (flag_row l2 h)).
  { apply eq_true_iff_eq. rewrite A1, A2.
    split; intros [Hn H]; (split; [exact Hn|]); intros x Hx;
      apply H, Hin, Hx. }
  assert (HL : is_hourly_low (flag_row l1 h)
               = is_hourly_low (flag_row l2 h)).
  { apply eq_true_iff_eq. rewrite B1, B2.
    split; intros [Hn H]; (split; [exact Hn|]); intros x Hx;
      apply H, Hin, Hx. }
  assert (DH : is_day_high (flag_row l1 h) = is_day_high (flag_row l2 h)).
  { apply eq_true_iff_eq. rewrite C1, C2.
    split; intros [Hn H]; (split; [exact Hn|]); intros x Hx;
      apply H, Hin, Hx. }
  assert (DL : is_day_low (flag_row l1 h) = is_day_low (flag_row l2 h)).
  { apply eq_true_iff_eq. rewrite D1, D2.
    split; intros [Hn H]; (split; [exact Hn|]); intros x Hx;
      apply H, Hin, Hx. }
  change (flag_row l1 h)
    with {| houred := h;
            is_hourly_high := is_hourly_high (flag_row l1 h);
            is_hourly_low := is_hourly_low (flag_row l1 h);
            is_day_high := is_day_high (flag_row l1 h);
            is_day_low := is_day_low (flag_row l1 h) |}.
  rewrite HH, HL, DH, DL. reflexivity.
Qed.

Lemma enrich_unfold (env : Env) (start_ts end_ts : Z) (df : list VwapRow) :
  enrich env start_ts end_ts df
  = map (fun r => {| flagged := r; note := last_label r |})
        (map (flag_row (add_hour (normalize env start_ts end_ts df)))
             (add_hour (normalize env start_ts end_ts df))).
Proof.
  unfold enrich. rewrite add_note_rows, classify_rows. reflexivity.
Qed.

Lemma no_label_no_flag (r : Flagged) :
  last_label r = ""%string ->
  is_hourly_high r = false /\ is_hourly_low r = false
  /\ is_day_high r = false /\ is_day_low r = false.
Proof.
  unfold last_label.
  destruct (is_day_low r), (is_day_high r), (is_hourly_low r),
    (is_hourly_high r); intros H; try discriminate H; repeat split.
Qed.

(** NaN divided by anything is NaN. *)
Lemma truediv_nan (x : float) (b : N) :
  is_nan x = true -> is_nan (truediv x b) = true.
Proof.
  intros H. apply is_nan_spec in H. apply is_nan_spec.
  unfold truediv. rewrite FloatAxioms.div_spec, H. reflexivity.
Qed.

(** Of two numbers that do not compare equal, one is below the other. *)
Lemma fle_neq_lt (x y : float) :
  fle x y -> float_eqb x y = false -> PrimFloat.ltb x y = true.
Proof.
  intros Hle Hne. apply flt_iff. split; [exact Hle|]. intros Hge.
  assert (E : float_eqb x y = true) by (apply feq_iff; split; assumption).
  congruence.
Qed.

Lemma float_eqb_sym (x y : float) : float_eqb x y = float_eqb y x.
Proof.
  apply eq_true_iff_eq. rewrite !feq_iff. tauto.
Qed.

Section Exported.

Variable env : Env.
Variables start_ts end_ts : Z.
Variable df : list VwapRow.

Let sorted : list Houred := add_hour (normalize env start_ts end_ts df).
Let out : list Noted := enrich env start_ts end_ts df.

(** The prices of an hour, and of the day, of the sorted frame are the
    prices of the exported ticks of that hour, and of the day. *)
Lemma exported_hour_prices (k : string) (p : float) :
  In p (hour_prices sorted k)
  <-> exists r : Noted, In r out /\ hour r = k /\ price r = p.
Proof.
  rewrite hour_prices_In. split.
  - intros [h [Hh [Hk E]]].
    apply (sorted_row env start_ts end_ts df) in Hh.
    destruct Hh as [r [Hr <-]]. exists r. repeat split; assumption.
  - intros [r [Hr [Hk E]]]. exists r. repeat split; try assumption.
    apply (sorted_row env start_ts end_ts df). exists r.
    split; [exact Hr | reflexivity].
Qed.

Lemma exported_day_prices (p : float) :
  In p (day_prices sorted) <-> exists r : Noted, In r out /\ price r = p.
Proof.
  rewrite day_prices_In. split.
  - intros [h [Hh E]].
    apply (sorted_row env start_ts end_ts df) in Hh.
    destruct Hh as [r [Hr <-]]. exists r. split; assumption.
  - intros [r [Hr E]]. exists r. split; [|exact E].
    apply (sorted_row env start_ts end_ts df). exists r.
    split; [exact Hr | reflexivity].
Qed.

End Exported.

End ReportFacts.

Import ReportFacts.

(* ================================================================== *)
(** * Further properties of [calculate_vwap] *)

(** X1.  [calculate_vwap] only adds columns: the frame it returns has the
    rows it was given, in their order, and in each row [volume_price] is
    price * size and [vwap] is the quotient of the row's own two running
    totals. *)
Theorem calculate_vwap_only_adds_columns (df : list Tick) :
  map tick (calculate_vwap df) = df
  /\ Forall (fun r : VwapRow =>
               volume_price r = mul_size (price r) (size r)
               /\ vwap r
                  = truediv (cumulative_volume_price r)
                            (cumulative_volume r))
            (calculate_vwap df).
Proof.
  split; [apply calculate_vwap_tick | apply calculate_vwap_columns].
Qed.

(** X2.  The running volume never decreases from one row to the next, and
    in the last row it is the volume of the whole frame. *)
Theorem cumulative_volume_never_decreases (df : list Tick) :
  Sorted N.le (map cumulative_volume (calculate_vwap df))
  /\ last (map cumulative_volume (calculate_vwap df)) 0%N
     = series_sum (map (fun t : Tick => size t) df).
Proof.
  destruct df as [|t df].
  - split; [constructor | reflexivity].
  - rewrite calculate_vwap_cons. cbv zeta. cbn [map cumulative_volume]. split.
    + apply rows_from_sorted.
    + rewrite rows_from_last. reflexivity.
Qed.

(** X3.  The average of a row is NaN while the running volume is still 0
    (the division is then a zero or NaN by 0), and it is NaN in a row whose
    own price * size is NaN, whatever the running volume. *)
Theorem vwap_is_nan_without_volume_or_price (df : list Tick) :
  Forall (fun r : VwapRow =>
            (cumulative_volume r = 0%N -> is_nan (vwap r) = true)
            /\ (is_nan (volume_price r) = true -> is_nan (vwap r) = true))
         (calculate_vwap df).
Proof.
  apply Forall_forall. intros r Hr.
  pose proof (proj1 (Forall_forall _ _) (calculate_vwap_columns df) r Hr)
    as [Hp Hv].
  pose proof (proj1 (Forall_forall _ _) (zero_volume_zero_notional df) r Hr)
    as Hz.
  pose proof (proj1 (Forall_forall _ _)
                    (@calculate_vwap_invariant
                       (fun _ _ => True) (fun _ => Logic.I)
                       (fun _ _ _ _ => Logic.I) df) r Hr)
    as [acc [_ Hc]].
  rewrite Hv. split.
  - intros E. rewrite E. apply truediv_0, Hz, E.
  - intros Hn. apply truediv_nan. rewrite Hc.
    change (notional r) with (mul_size (price r) (size r)).
    rewrite <- Hp, Hn. reflexivity.
Qed.

(* ================================================================== *)
(** * Further properties of the summary, the labels and the chart *)

(** X8.  [hourly_stats] has one row for each hour of the exported frame
    and for no other hour, and its rows come in strictly ascending order of
    the hour key. *)
Theorem hourly_summary_has_one_row_per_hour (env : Env)
        (start_ts end_ts : Z) (df : list VwapRow) :
  Sorted key_lt
         (map hs_hour (hourly_summary (chart_trades env start_ts end_ts df)))
  /\ NoDup
       (map hs_hour (hourly_summary (chart_trades env start_ts end_ts df)))
  /\ forall h : string,
       In h (map hs_hour
                 (hourly_summary (chart_trades env start_ts end_ts df)))
       <-> exists r : Noted,
             In r (frame (chart_trades env start_ts end_ts df))
             /\ hour r = h.
Proof.
  change (hourly_summary (chart_trades env start_ts end_ts df))
    with (hourly_stats (add_hour (normalize env start_ts end_ts df))).
  change (frame (chart_trades env start_ts end_ts df))
    with (enrich env start_ts end_ts df).
  rewrite hourly_stats_keys.
  split; [apply group_keys_ascending|]. split; [apply group_keys_NoDup|].
  intros h. rewrite group_keys_In, in_map_iff. split.
  - intros [h0 [E Hh]].
    apply (sorted_row env start_ts end_ts df) in Hh.
    destruct Hh as [r [Hr <-]]. exists r. split; assumption.
  - intros [r [Hr E]]. exists r. split; [exact E|].
    apply (sorted_row env start_ts end_ts df). exists r.
    split; [exact Hr | reflexivity].
Qed.

(** X9.  The exported frame holds the rows of the range filter, and a row
    of [hourly_stats] bounds its hour.  When some exported tick of the hour
    has a price that is a number, the maximum and the minimum of the row
    are numbers, each is the price of an exported tick of that hour, and
    every price of the hour that is a number lies between them.
    When the prices of the hour are all NaN, both are NaN. *)
Theorem hourly_summary_bounds_its_hour (env : Env) (start_ts end_ts : Z)
        (df : list VwapRow) :
  Permutation
    (map (fun r : Noted => row r) (frame (chart_trades env start_ts end_ts df)))
    (filter (in_range start_ts end_ts) df)
  /\ Forall
    (fun st : HourStat =>
       ((exists r : Noted,
            In r (frame (chart_trades env start_ts end_ts df))
            /\ hour r = hs_hour st /\ number (price r)) ->
        number (hs_max st) /\ number (hs_min st)
        /\ (exists r : Noted,
               In r (frame (chart_trades env start_ts end_ts df))
               /\ hour r = hs_hour st /\ price r = hs_max st)
        /\ (exists r : Noted,
               In r (frame (chart_trades env start_ts end_ts df))
               /\ hour r = hs_hour st /\ price r = hs_min st)
        /\ forall r : Noted,
             In r (frame (chart_trades env start_ts end_ts df)) ->
             hour r = hs_hour st -> number (price r) ->
             fle (hs_min st) (price r) /\ fle (price r) (hs_max st))
       /\ ((forall r : Noted,
               In r (frame (chart_trades env start_ts end_ts df)) ->
               hour r = hs_hour st -> is_nan (price r) = true) ->
           is_nan (hs_max st) = true /\ is_nan (hs_min st) = true))
    (hourly_summary (chart_trades env start_ts end_ts df)).
Proof.
  split.
  { change (frame (chart_trades env start_ts end_ts df))
      with (enrich env start_ts end_ts df).
    rewrite enrich_rows. apply normalize_perm. }
  change (hourly_summary (chart_trades env start_ts end_ts df))
    with (hourly_stats (add_hour (normalize env start_ts end_ts df))).
  change (frame (chart_trades env start_ts end_ts df))
    with (enrich env start_ts end_ts df).
  apply Forall_forall. intros st Hst. apply hourly_stats_row in Hst.
  destruct Hst as [_ [Emax Emin]]. rewrite Emax, Emin.
  destruct (series_bounds
              (hour_prices (add_hour (normalize env start_ts end_ts df))
                           (hs_hour st))) as [B1 B2].
  split.
  - intros [r [Hr [Hk Hn]]].
    destruct B1 as [N1 [N2 [I1 [I2 [_ Hall]]]]].
    { exists (price r). split; [|exact Hn].
      apply exported_hour_prices. exists r. repeat split; assumption. }
    split; [exact N1|]. split; [exact N2|].
    apply exported_hour_prices in I1, I2.
    split; [exact I1|]. split; [exact I2|].
    intros r' Hr' Hk' Hn'. apply Hall; [|exact Hn'].
    apply exported_hour_prices. exists r'. repeat split; assumption.
  - intros Hall. apply B2. intros p Hp.
    apply exported_hour_prices in Hp. destruct Hp as [r [Hr [Hk <-]]].
    apply Hall; assumption.
Qed.

(** X10.  The exported frame holds the rows of the range filter, and the
    day high and the day low of the summary bound it.  When some exported
    tick has a price that is a number, both are numbers, each is the price
    of an exported tick, the low is not above the high, and every exported
    price that is a number lies between them.
    When every exported price is NaN, and so when nothing is exported, both
    are NaN. *)
Theorem day_summary_bounds_the_frame (env : Env) (start_ts end_ts : Z)
        (df : list VwapRow) :
  Permutation
    (map (fun r : Noted => row r) (frame (chart_trades env start_ts end_ts df)))
    (filter (in_range start_ts end_ts) df)
  /\ ((exists r : Noted,
       In r (frame (chart_trades env start_ts end_ts df))
       /\ number (price r)) ->
   number (day_high (chart_trades env start_ts end_ts df))
   /\ number (day_low (chart_trades env start_ts end_ts df))
   /\ (exists r : Noted,
          In r (frame (chart_trades env start_ts end_ts df))
          /\ price r = day_high (chart_trades env start_ts end_ts df))
   /\ (exists r : Noted,
          In r (frame (chart_trades env start_ts end_ts df))
          /\ price r = day_low (chart_trades env start_ts end_ts df))
   /\ fle (day_low (chart_trades env start_ts end_ts df))
          (day_high (chart_trades env start_ts end_ts df))
   /\ forall r : Noted,
        In r (frame (chart_trades env start_ts end_ts df)) ->
        number (price r) ->
        fle (day_low (chart_trades env start_ts end_ts df)) (price r)
        /\ fle (price r) (day_high (chart_trades env start_ts end_ts df)))
  /\ ((forall r : Noted,
          In r (frame (chart_trades env start_ts end_ts df)) ->
          is_nan (price r) = true) ->
      is_nan (day_high (chart_trades env start_ts end_ts df)) = true
      /\ is_nan (day_low (chart_trades env start_ts end_ts df)) = true).
Proof.
  split.
  { change (frame (chart_trades env start_ts end_ts df))
      with (enrich env start_ts end_ts df).
    rewrite enrich_rows. apply normalize_perm. }
  change (day_high (chart_trades env start_ts end_ts df))
    with (series_max
            (day_prices (add_hour (normalize env start_ts end_ts df)))).
  change (day_low (chart_trades env start_ts end_ts df))
    with (series_min
            (day_prices (add_hour (normalize env start_ts end_ts df)))).
  change (frame (chart_trades env start_ts end_ts df))
    with (enrich env start_ts end_ts df).
  destruct (series_bounds
              (day_prices (add_hour (normalize env start_ts end_ts df))))
    as [B1 B2].
  split.
  - intros [r [Hr Hn]].
    destruct B1 as [N1 [N2 [I1 [I2 [Hle Hall]]]]].
    { exists (price r). split; [|exact Hn].
      apply exported_day_prices. exists r. split; [exact Hr | reflexivity]. }
    split; [exact N1|]. split; [exact N2|].
    apply exported_day_prices in I1, I2.
    split; [exact I1|]. split; [exact I2|]. split; [exact Hle|].
    intros r' Hr' Hn'. apply Hall; [|exact Hn'].
    apply exported_day_prices. exists r'. split; [exact Hr' | reflexivity].
  - intros Hall. apply B2. intros p Hp.
    apply exported_day_prices in Hp. destruct Hp as [r [Hr <-]].
    apply Hall; assumption.
Qed.

(** X11.  The exported frame holds the rows of the range filter, and every
    hour of it in which some tick has a price that is a number has a tick
    flagged hourly high and a tick flagged hourly low. *)
Theorem every_hour_has_a_high_and_a_low (env : Env) (start_ts end_ts : Z)
        (df : list VwapRow) :
  Permutation
    (map (fun r : Noted => row r) (frame (chart_trades env start_ts end_ts df)))
    (filter (in_range start_ts end_ts) df)
  /\ Forall
    (fun r : Noted =>
       number (price r) ->
       (exists r' : Noted,
           In r' (frame (chart_trades env start_ts end_ts df))
           /\ hour r' = hour r /\ is_hourly_high r' = true)
       /\ (exists r' : Noted,
              In r' (frame (chart_trades env start_ts end_ts df))
              /\ hour r' = hour r /\ is_hourly_low r' = true))
    (frame (chart_trades env start_ts end_ts df)).
Proof.
  split.
  { change (frame (chart_trades env start_ts end_ts df))
      with (enrich env start_ts end_ts df).
    rewrite enrich_rows. apply normalize_perm. }
  change (frame (chart_trades env start_ts end_ts df))
    with (enrich env start_ts end_ts df).
  apply Forall_forall. intros r Hr Hn.
  set (sorted := add_hour (normalize env start_ts end_ts df)).
  destruct (series_bounds (hour_prices sorted (hour r))) as [B _].
  destruct B as [N1 [N2 [I1 [I2 _]]]].
  { exists (price r). split; [|exact Hn].
    apply exported_hour_prices. exists r. repeat split. exact Hr. }
  apply exported_hour_prices in I1, I2.
  destruct I1 as [r1 [Hr1 [K1 P1]]]. destruct I2 as [r2 [Hr2 [K2 P2]]].
  split.
  - exists r1. split; [exact Hr1|]. split; [exact K1|].
    destruct (@exported_row env start_ts end_ts df r1 Hr1) as [_ [F _]].
    rewrite F. cbn [flag_row is_hourly_high]. fold sorted.
    rewrite K1, P1. apply float_eqb_refl, N1.
  - exists r2. split; [exact Hr2|]. split; [exact K2|].
    destruct (@exported_row env start_ts end_ts df r2 Hr2) as [_ [F _]].
    rewrite F. cbn [flag_row is_hourly_low]. fold sorted.
    rewrite K2, P2. apply float_eqb_refl, N2.
Qed.

(** X12.  [volume_by_minute] has one row for each minute of the exported
    frame and for no other minute (a minute without a trade has no row),
    its rows come in strictly ascending order of the minute key, and the
    volume of a row is the sum of [size] over the exported ticks of its
    minute. *)
Theorem volume_by_minute_has_one_row_per_minute (env : Env)
        (start_ts end_ts : Z) (df : list VwapRow) :
  Sorted key_lt
         (map fst (volume_by_minute (chart_trades env start_ts end_ts df)))
  /\ (forall k : string,
         In k (map fst
                   (volume_by_minute (chart_trades env start_ts end_ts df)))
         <-> exists r : Noted,
               In r (frame (chart_trades env start_ts end_ts df))
               /\ minute r = k)
  /\ Forall
       (fun row : string * N =>
          snd row
          = series_sum
              (map (fun r : Noted => size r)
                   (filter (fun r => String.eqb (minute r) (fst row))
                           (frame (chart_trades env start_ts end_ts df)))))
       (volume_by_minute (chart_trades env start_ts end_ts df)).
Proof.
  change (volume_by_minute (chart_trades env start_ts end_ts df))
    with (group_volume (enrich env start_ts end_ts df)).
  change (frame (chart_trades env start_ts end_ts df))
    with (enrich env start_ts end_ts df).
  set (out := enrich env start_ts end_ts df).
  assert (K : map fst (group_volume out) = group_keys (map minute out)).
  { unfold group_volume. rewrite map_map. cbn [fst]. apply map_id. }
  rewrite K. split; [apply group_keys_ascending|]. split.
  - intros k. rewrite group_keys_In, in_map_iff. split.
    + intros [r [E Hr]]. exists r. split; assumption.
    + intros [r [Hr E]]. exists r. split; assumption.
  - apply Forall_forall. intros row Hrow. unfold group_volume in Hrow.
    apply in_map_iff in Hrow. destruct Hrow as [k [<- _]]. reflexivity.
Qed.

(** X13.  The groups of the minutes refine the groups of the hours: two
    exported ticks of the same minute are of the same hour. *)
Theorem a_minute_lies_in_one_hour (env : Env) (start_ts end_ts : Z)
        (df : list VwapRow) :
  Forall
    (fun r : Noted =>
       Forall (fun r' : Noted => minute r = minute r' -> hour r = hour r')
              (frame (chart_trades env start_ts end_ts df)))
    (frame (chart_trades env start_ts end_ts df)).
Proof.
  change (frame (chart_trades env start_ts end_ts df))
    with (enrich env start_ts end_ts df).
  assert (H : forall r : Noted,
             In r (enrich env start_ts end_ts df) ->
             hour r = strftime_hour (ts_event_et r)).
  { intros r Hr.
    destruct (@exported_row env start_ts end_ts df r Hr) as [Hh _].
    apply (add_hour_hour _ _ Hh). }
  apply Forall_forall. intros r Hr. apply Forall_forall. intros r' Hr' E.
  rewrite (H r Hr), (H r' Hr'). apply same_minute_same_hour. exact E.
Qed.

(** X14.  Every day-high marker of the chart is also an hourly-high
    marker, and its price compares equal to the day high of the summary;
    the same holds of the day-low markers, the hourly-low markers and the
    day low. *)
Theorem day_markers_are_hour_markers (env : Env) (start_ts end_ts : Z)
        (df : list VwapRow) :
  Forall
    (fun point : Timestamp * float =>
       In point
          (hourly_high_markers (chart (chart_trades env start_ts end_ts df)))
       /\ float_eqb (snd point)
                    (day_high (chart_trades env start_ts end_ts df))
          = true)
    (day_high_markers (chart (chart_trades env start_ts end_ts df)))
  /\ Forall
       (fun point : Timestamp * float =>
          In point
             (hourly_low_markers
                (chart (chart_trades env start_ts end_ts df)))
          /\ float_eqb (snd point)
                       (day_low (chart_trades env start_ts end_ts df))
             = true)
       (day_low_markers (chart (chart_trades env start_ts end_ts df))).
Proof.
  change (hourly_high_markers (chart (chart_trades env start_ts end_ts df)))
    with (markers (fun r => is_hourly_high r)
                  (enrich env start_ts end_ts df)).
  change (hourly_low_markers (chart (chart_trades env start_ts end_ts df)))
    with (markers (fun r => is_hourly_low r)
                  (enrich env start_ts end_ts df)).
  change (day_high_markers (chart (chart_trades env start_ts end_ts df)))
    with (markers (fun r => is_day_high r) (enrich env start_ts end_ts df)).
  change (day_low_markers (chart (chart_trades env start_ts end_ts df)))
    with (markers (fun r => is_day_low r) (enrich env start_ts end_ts df)).
  change (day_high (chart_trades env start_ts end_ts df))
    with (series_max
            (day_prices (add_hour (normalize env start_ts end_ts df)))).
  change (day_low (chart_trades env start_ts end_ts df))
    with (series_min
            (day_prices (add_hour (normalize env start_ts end_ts df)))).
  unfold markers.
  split; apply Forall_forall; intros point Hp; apply in_map_iff in Hp;
    destruct Hp as [r [<- Hr]]; apply filter_In in Hr;
    destruct Hr as [Hr Hflag];
    destruct (exported_flags env start_ts end_ts df r Hr)
      as [HH [HL [DH DL]]];
    destruct (@exported_row env start_ts end_ts df r Hr) as [_ [F _]];
    (split;
     [ apply (in_map (fun r : Noted => (ts_event_et r, price r)));
       apply filter_In; split; [exact Hr|]
     | ]).
  - apply HH. apply DH in Hflag. destruct Hflag as [Hn H].
    split; [exact Hn|]. intros r' Hr' _. apply H, Hr'.
  - rewrite F in Hflag. exact Hflag.
  - apply HL. apply DL in Hflag. destruct Hflag as [Hn H].
    split; [exact Hn|]. intros r' Hr' _. apply H, Hr'.
  - rewrite F in Hflag. exact Hflag.
Qed.

(** X15.  The exported table and the two lines of the chart have one entry
    for each fetched row within the range, and they go row by row: the
    same timestamps, prices and averages in the same order. *)
Theorem exports_are_aligned (env : Env) (start_ts end_ts : Z)
        (df : list VwapRow) :
  length (csv (chart_trades env start_ts end_ts df))
  = length (filter (in_range start_ts end_ts) df)
  /\ map csv_ts_event_et (csv (chart_trades env start_ts end_ts df))
     = map fst (trade_price (chart (chart_trades env start_ts end_ts df)))
  /\ map csv_price (csv (chart_trades env start_ts end_ts df))
     = map snd (trade_price (chart (chart_trades env start_ts end_ts df)))
  /\ map csv_ts_event_et (csv (chart_trades env start_ts end_ts df))
     = map fst (vwap_line (chart (chart_trades env start_ts end_ts df)))
  /\ map csv_vwap (csv (chart_trades env start_ts end_ts df))
     = map snd (vwap_line (chart (chart_trades env start_ts end_ts df))).
Proof.
  change (csv (chart_trades env start_ts end_ts df))
    with (selected_columns (enrich env start_ts end_ts df)).
  change (trade_price (chart (chart_trades env start_ts end_ts df)))
    with (map (fun r : Noted => (ts_event_et r, price r))
              (enrich env start_ts end_ts df)).
  change (vwap_line (chart (chart_trades env start_ts end_ts df)))
    with (map (fun r : Noted => (ts_event_et r, vwap r))
              (enrich env start_ts end_ts df)).
  unfold selected_columns.
  rewrite !map_map. cbn [csv_ts_event_et csv_price csv_vwap fst snd].
  split; [|repeat split].
  rewrite length_map, <- (length_map (fun r : Noted => row r)), enrich_rows.
  apply Permutation_length, normalize_perm.
Qed.

(** X16.  What is exported does not depend on the sorting kind, up to the
    order of the rows: with two sorting kinds the exported frames hold the
    same rows, each with the same average, flags and note, equally often. *)
Theorem labels_do_not_depend_on_the_sorting_kind (env1 env2 : Env)
        (start_ts end_ts : Z) (df : list VwapRow) :
  Permutation (frame (chart_trades env1 start_ts end_ts df))
              (frame (chart_trades env2 start_ts end_ts df))
  /\ total_volume (chart_trades env1 start_ts end_ts df)
     = total_volume (chart_trades env2 start_ts end_ts df).
Proof.
  change (frame (chart_trades env1 start_ts end_ts df))
    with (enrich env1 start_ts end_ts df).
  change (frame (chart_trades env2 start_ts end_ts df))
    with (enrich env2 start_ts end_ts df).
  change (total_volume (chart_trades env1 start_ts end_ts df))
    with (series_sum (map (fun r : Noted => size r)
                          (enrich env1 start_ts end_ts df))).
  change (total_volume (chart_trades env2 start_ts end_ts df))
    with (series_sum (map (fun r : Noted => size r)
                          (enrich env2 start_ts end_ts df))).
  assert (P : Permutation (enrich env1 start_ts end_ts df)
                          (enrich env2 start_ts end_ts df)).
  { rewrite !enrich_unfold.
    set (l1 := add_hour (normalize env1 start_ts end_ts df)).
    set (l2 := add_hour (normalize env2 start_ts end_ts df)).
    assert (Hl : Permutation l1 l2).
    { unfold l1, l2, add_hour. apply Permutation_map.
      eapply perm_trans; [apply normalize_perm|].
      apply Permutation_sym, normalize_perm. }
    apply Permutation_map.
    rewrite (map_ext_in (flag_row l1) (flag_row l2) l1).
    - apply Permutation_map, Hl.
    - intros h Hh. apply flag_row_perm; assumption. }
  split; [exact P|].
  apply series_sum_perm. apply Permutation_map, P.
Qed.

(** X17.  The exported frame holds the rows of the range filter.  An
    exported tick whose price is NaN has an empty note.  An exported tick
    with an empty note whose price is a number is strictly inside the
    prices of its hour: some exported tick of the same hour has a higher
    price and some a lower one. *)
Theorem a_tick_without_note_is_inside_its_hour (env : Env)
        (start_ts end_ts : Z) (df : list VwapRow) :
  Permutation
    (map (fun r : Noted => row r) (frame (chart_trades env start_ts end_ts df)))
    (filter (in_range start_ts end_ts) df)
  /\ Forall
    (fun r : Noted =>
       (is_nan (price r) = true -> note r = ""%string)
       /\ (note r = ""%string -> number (price r) ->
           (exists r' : Noted,
               In r' (frame (chart_trades env start_ts end_ts df))
               /\ hour r' = hour r
               /\ PrimFloat.ltb (price r) (price r') = true)
           /\ (exists r' : Noted,
                  In r' (frame (chart_trades env start_ts end_ts df))
                  /\ hour r' = hour r
                  /\ PrimFloat.ltb (price r') (price r) = true)))
    (frame (chart_trades env start_ts end_ts df)).
Proof.
  split.
  { change (frame (chart_trades env start_ts end_ts df))
      with (enrich env start_ts end_ts df).
    rewrite enrich_rows. apply normalize_perm. }
  change (frame (chart_trades env start_ts end_ts df))
    with (enrich env start_ts end_ts df).
  apply Forall_forall. intros r Hr.
  set (sorted := add_hour (normalize env start_ts end_ts df)).
  destruct (@exported_row env start_ts end_ts df r Hr) as [Hh [F N]].
  fold sorted in Hh, F. split.
  - intros Hnan. rewrite N, F. unfold last_label.
    cbn [flag_row is_hourly_high is_hourly_low is_day_high is_day_low].
    assert (Z : forall y, float_eqb (price r) y = false)
      by (intros y; apply float_eqb_nan_l; exact Hnan).
    rewrite !Z. reflexivity.
  - intros Hnote Hn. rewrite N in Hnote.
    apply no_label_no_flag in Hnote. destruct Hnote as [HH [HL _]].
    rewrite F in HH, HL.
    cbn [flag_row is_hourly_high is_hourly_low] in HH, HL.
    destruct (series_bounds (hour_prices sorted (hour r))) as [B _].
    destruct B as [N1 [N2 [I1 [I2 [_ Hall]]]]].
    { exists (price r). split; [|exact Hn].
      apply (own_hour_price sorted r Hh). }
    destruct (Hall (price r) (own_hour_price sorted r Hh) Hn) as [Hlo Hhi].
    apply exported_hour_prices in I1, I2.
    destruct I1 as [r1 [Hr1 [K1 P1]]]. destruct I2 as [r2 [Hr2 [K2 P2]]].
    split.
    + exists r1. split; [exact Hr1|]. split; [exact K1|].
      rewrite P1. apply fle_neq_lt; assumption.
    + exists r2. split; [exact Hr2|]. split; [exact K2|].
      rewrite P2. apply fle_neq_lt; [exact Hlo|].
      rewrite float_eqb_sym. exact HL.
Qed.
